(** * github-action-random-proverb: the comment pipeline of [src/index.ts]

    A shallow embedding of the action's entry module.  The synchronous code
    ([buildConfigOptions], the body construction of [processComment], the
    filter of [getCommentId]) becomes plain functions; the asynchronous
    code becomes programs over the host API calls ([Prog]), which are run
    either one after the other ([exec]) or interleaved as the promises of
    [executeOperation] are ([Pool]). *)

From Stdlib Require Import ZArith String List DecimalString DecimalZ Decimal.
From stdpp Require Import base option list strings gmap.

Local Open Scope Z_scope.
Local Open Scope string_scope.
Local Open Scope list_scope.

(** ** Errors and results *)

Inductive Error :=
| ValueError (message : string)
| ConfigError (message : string)
| HostApiError (status : Z).

Inductive Result (A : Type) :=
| Ok (a : A)
| Err (e : Error).
Arguments Ok {A} a.
Arguments Err {A} e.

Definition is_ValueError (e : Error) : bool :=
  match e with ValueError _ => true | _ => false end.

Definition is_Ok {A} (r : Result A) : bool :=
  match r with Ok _ => true | Err _ => false end.

(** ** The data model of [typings/domain-types] as [index.ts] uses it *)

Record StyleOptions := { theme : string; layout : string }.
Record ResourceOptions := { requestId : Z }.
Record RepoOptions := { owner : string; repo : string }.

Record ConfigOptions := {
  styleOptions : StyleOptions;
  resourceOptions : ResourceOptions;
  repoOptions : RepoOptions
}.

Record CommentOptions := { message : string }.

Record PayloadOptions := {
  commentOptions : CommentOptions;
  payload_repoOptions : RepoOptions;
  payload_resourceOptions : ResourceOptions
}.

(** [Partial<ConfigOptions>] as a batch entry supplies it: every object and
    every field may be missing ([None] stands for an absent, [undefined] or
    [null] property, which [?.] and [||] do not tell apart). *)
Record PartialStyleOptions := {
  partial_theme : option string;
  partial_layout : option string
}.

(** A JavaScript number.  The numbers that reach [buildConfigOptions], the
    [requestId] of a batch entry and the number of the pull request of the
    payload, are used in two ways there: [||] tests them and a template
    literal prints them.  A number is given by what these two show of it. *)
Record Number := {
  (** the number is [0], [-0] or [NaN], which [||] skips *)
  number_falsy : bool;
  (** what [`${x}`] prints: the decimal numeral of an integer that the
      number type holds exactly (["9"], ["-5"]), and things like ["1.5"],
      ["1e+21"] or ["Infinity"] for other numbers *)
  number_text : string
}.

Record PartialResourceOptions := { partial_requestId : option Number }.

Record PartialConfigOptions := {
  partial_styleOptions : option PartialStyleOptions;
  partial_resourceOptions : option PartialResourceOptions;
  partial_repoOptions : option RepoOptions
}.

(** The object literal [{}]. *)
Definition empty_partial : PartialConfigOptions :=
  {| partial_styleOptions := None;
     partial_resourceOptions := None;
     partial_repoOptions := None |}.

(** ** JavaScript values met by the [requestId] expression *)

Inductive JsVal :=
| JsUndefined
| JsNumber (x : Number)
| JsString (s : string).

Definition truthy (v : JsVal) : bool :=
  match v with
  | JsUndefined => false
  | JsNumber x => negb (number_falsy x)
  | JsString s => negb (String.eqb s "")
  end.

(** [a || b]. *)
Definition js_or (a b : JsVal) : JsVal := if truthy a then a else b.

(** [`${v}`]. *)
Definition template (v : JsVal) : string :=
  match v with
  | JsUndefined => "undefined"
  | JsNumber x => number_text x
  | JsString s => s
  end.

Definition of_number (o : option Number) : JsVal :=
  match o with Some x => JsNumber x | None => JsUndefined end.

(** The decimal numeral of an integer: its digits, after a minus sign when
    the integer is negative. *)
Definition decimal (z : Z) : string :=
  NilZero.string_of_int (Z.to_int z).

(** [Number.MAX_SAFE_INTEGER]: up to this magnitude the number type holds
    every integer exactly, and a template literal prints its decimal
    numeral. *)
Definition MAX_SAFE_INTEGER : Z := 2 ^ 53 - 1.

(** The number whose value is the integer [z], when [z] is an integer the
    number type holds exactly. *)
Definition integer (z : Z) : option Number :=
  if Z.leb (Z.abs z) MAX_SAFE_INTEGER
  then Some {| number_falsy := Z.eqb z 0; number_text := decimal z |}
  else None.

(** [a || b] where [a : string | undefined] and [b : string]. *)
Definition or_string (a : option string) (b : string) : string :=
  match a with
  | Some s => if String.eqb s "" then b else s
  | None => b
  end.

(** ** The ambient environment of one run *)

(** [github.context]: the commit, the repository and, on pull-request
    events, the number of the pull request of the payload. *)
Record Context := {
  sha : string;
  context_repo : RepoOptions;
  pull_request_number : option Number
}.

(** What a batch source file holds, seen through its parser. *)
Inductive FileContent :=
| Structured (entries : list PartialConfigOptions)
| Malformed.

Record Env := {
  (** the single-run inputs of the workflow step ([with:]) *)
  inputs : gmap string string;
  (** the defaults the action declares for its inputs *)
  defaults : gmap string string;
  context : Context;
  (** [profile.requestOptions.url], the rendering endpoint *)
  profile_url : string;
  (** the files of the runner's work space *)
  files : gmap string FileContent
}.

(** Modelled from the spec: [getProperty] of [utils/properties], which is
    not among the sources.  It reads a named single-run input: the value the
    step supplies when there is one, else the ambient default, else the
    empty string. *)
Definition getProperty (env : Env) (name : string) : string :=
  match inputs env !! name with
  | Some v => v
  | None => default "" (defaults env !! name)
  end.

(** Modelled from the spec: [isNullOrUndefined] of [utils/validators], which
    is not among the sources: no tier yielded any candidate. *)
Definition isNullOrUndefined (v : JsVal) : bool :=
  match v with JsUndefined => true | _ => false end.

(** The integer that a string is a base-10 numeral of: digits, after a
    minus sign for a negative integer. *)
Definition parse_integer (s : string) : option Z :=
  Z.of_int <$> NilZero.int_of_string s.

(** Modelled from the spec: [toInt] of [utils/commons], which is not among
    the sources.  The candidate is coerced to a base-10 integer; the
    coercion fails with [ValueError] when the candidate is not the numeral
    of an integer, and when the integer is not strictly positive. *)
Definition toInt (s : string) : Result Z :=
  match parse_integer s with
  | Some n =>
      if Z.ltb 0 n
      then Ok n
      else Err (ValueError ("Invalid integer: " +:+ s))
  | None => Err (ValueError ("Invalid integer: " +:+ s))
  end.

(** [valueError] of [errors/value.error] builds the error that is thrown. *)
Definition valueError (message : string) : Error := ValueError message.

(** ** Config Resolver: [buildConfigOptions] *)

Definition explicit_theme (options : PartialConfigOptions) : option string :=
  partial_styleOptions options ≫= partial_theme.

Definition explicit_layout (options : PartialConfigOptions) : option string :=
  partial_styleOptions options ≫= partial_layout.

Definition explicit_requestId (options : PartialConfigOptions) : option Number :=
  partial_resourceOptions options ≫= partial_requestId.

(** The value of the [requestId] constant of [buildConfigOptions]. *)
Definition requestId_candidate (env : Env) (options : PartialConfigOptions) : JsVal :=
  js_or (js_or (of_number (explicit_requestId options))
               (JsString (getProperty env "requestId")))
        (of_number (pull_request_number (context env))).

Definition buildConfigOptions (env : Env) (options : PartialConfigOptions)
  : Result ConfigOptions :=
  let theme := or_string (explicit_theme options) (getProperty env "theme") in
  let layout := or_string (explicit_layout options) (getProperty env "layout") in
  let requestId := requestId_candidate env options in
  if isNullOrUndefined requestId then
    Err (valueError ("Invalid pull request identifier: " +:+ template requestId))
  else
    match toInt (template requestId) with
    | Err e => Err e
    | Ok n =>
        Ok {| styleOptions := {| theme := theme; layout := layout |};
              resourceOptions := {| requestId := n |};
              repoOptions := context_repo (context env) |}
    end.

(** ** The host API

    The host is not part of the action: it is the capability set behind
    [octokit.issues] (list the comments of an issue, create a comment,
    update a comment).  Its state is that of the repository the run's token
    is scoped to.  Every call of [index.ts] addresses [github.context.repo],
    so one repository's issues and comments are all the calls can reach. *)

Record Comment := {
  comment_id : Z;
  issue_number : Z;
  user_login : string;
  body : string
}.

Record Host := {
  (** the numbers of the issues and pull requests that exist *)
  issues : list Z;
  (** every comment of the repository, oldest first *)
  comments : list Comment;
  (** the identifier the next created comment gets *)
  next_comment_id : Z;
  (** the login of the identity the token authenticates *)
  viewer : string
}.

(** The three calls [index.ts] makes on [octokit.issues]. *)
Inductive ApiCall :=
| ListComments (repo : RepoOptions) (issue : Z)
| UpdateComment (repo : RepoOptions) (id : Z) (text : string)
| CreateComment (repo : RepoOptions) (issue : Z) (text : string).

(** The [data] a call resolves with. *)
Definition response (c : ApiCall) : Type :=
  match c with
  | ListComments _ _ => list Comment
  | UpdateComment _ _ _ => Comment
  | CreateComment _ _ _ => Comment
  end.

Definition is_write (c : ApiCall) : bool :=
  match c with ListComments _ _ => false | _ => true end.

Definition not_found {A} : Result A := Err (HostApiError 404).

Definition set_body (text : string) (c : Comment) : Comment :=
  {| comment_id := comment_id c; issue_number := issue_number c;
     user_login := user_login c; body := text |}.

Definition edit (id : Z) (text : string) (c : Comment) : Comment :=
  if bool_decide (comment_id c = id) then set_body text c else c.

(** The comments of issue [n], oldest first. *)
Definition thread (n : Z) (h : Host) : list Comment :=
  filter (λ x, issue_number x = n) (comments h).

(** The size of the page the host answers a listing with when the request
    names none, as that of [getCommentId] does. *)
Definition per_page : nat := 30.

(** What the host lists for issue [n].  The request of [getCommentId] names
    neither a page nor a page size and is not repeated: the answer is the
    first page of the thread. *)
Definition listed (n : Z) (h : Host) : list Comment :=
  take per_page (thread n h).

(** The host serves one call: the first page of the comments of an issue in
    the order they were made, the edit of one comment's body, or a new
    comment authored by the token's identity.  A call on an issue or a
    comment that does not exist is answered 404. *)
Definition serve (h : Host) (c : ApiCall) : Result (response c) * Host :=
  match c return Result (response c) * Host with
  | ListComments _ n =>
      if bool_decide (n ∈ issues h)
      then (Ok (listed n h), h)
      else (not_found, h)
  | UpdateComment _ id text =>
      match filter (λ x, comment_id x = id) (comments h) with
      | x :: _ =>
          (Ok (set_body text x),
           {| issues := issues h; comments := edit id text <$> comments h;
              next_comment_id := next_comment_id h; viewer := viewer h |})
      | [] => (not_found, h)
      end
  | CreateComment _ n text =>
      if bool_decide (n ∈ issues h)
      then
        let x := {| comment_id := next_comment_id h; issue_number := n;
                    user_login := viewer h; body := text |} in
        (Ok x,
         {| issues := issues h; comments := comments h ++ [x];
            next_comment_id := next_comment_id h + 1; viewer := viewer h |})
      else (not_found, h)
  end.

(** ** Asynchronous programs

    An [async] function is a tree: it returns, throws, writes a line to the
    action log, or awaits a host call and goes on with what the call
    settles to. *)

(** The lines of the action log: the [coreError] of [processComment] and
    the [core.setFailed] of [run], each with the value its message shows. *)
Inductive LogEntry :=
| CannotProcess (options : ConfigOptions)
| Failed (error : Error).

Inductive Prog (A : Type) :=
| Ret (a : A)
| Throw (e : Error)
| Log (entry : LogEntry) (k : Prog A)
| Call (c : ApiCall) (k : Result (response c) -> Prog A).
Arguments Ret {A} a.
Arguments Throw {A} e.
Arguments Log {A} entry k.
Arguments Call {A} c k.

Fixpoint bind {A B} (m : Prog A) (f : A -> Prog B) : Prog B :=
  match m with
  | Ret a => f a
  | Throw e => Throw e
  | Log entry k => Log entry (bind k f)
  | Call c k => Call c (λ r, bind (k r) f)
  end.

(** [try { m } catch (error) { handler error }]. *)
Fixpoint try_catch {A} (m : Prog A) (handler : Error -> Prog A) : Prog A :=
  match m with
  | Ret a => Ret a
  | Throw e => handler e
  | Log entry k => Log entry (try_catch k handler)
  | Call c k => Call c (λ r, try_catch (k r) handler)
  end.

(** [await] of a host call: a rejection is thrown where it is awaited. *)
Definition await (c : ApiCall) : Prog (response c) :=
  Call c (λ r, match r with Ok x => Ret x | Err e => Throw e end).

Notation "'await!' x ':=' m 'in' k" := (bind m (λ x, k))
  (at level 10, x pattern, m at level 100, k at level 200, only parsing).

(** [coreError] of [utils/loggers]. *)
Definition coreError {A} (entry : LogEntry) (k : Prog A) : Prog A := Log entry k.

(** ** Comment Locator: [getCommentId] *)

Definition bot_login : string := "github-actions[bot]".

(** The synchronous part: the filter and the choice of [res[0].id]. *)
Definition pick_comment_id (comments : list Comment) : option Z :=
  let res := filter (λ comment, user_login comment = bot_login) comments in
  if bool_decide (0 < length res)%nat
  then comment_id <$> head res
  else None.

Definition getCommentId (options : PayloadOptions) : Prog (option Z) :=
  let repoOptions := payload_repoOptions options in
  let requestId := requestId (payload_resourceOptions options) in
  await! comments := await (ListComments repoOptions requestId) in
  Ret (pick_comment_id comments).

(** ** Comment Publisher: [replaceComment] *)

(** The call chosen by [commentId ? updateComment(..) : createComment(..)]. *)
Definition write_call (options : PayloadOptions) (commentId : option Z) : ApiCall :=
  let message := message (commentOptions options) in
  let repoOptions := payload_repoOptions options in
  let requestId := requestId (payload_resourceOptions options) in
  match commentId with
  | Some id =>
      (* an identifier is truthy unless it is [0] *)
      if negb (Z.eqb id 0)
      then UpdateComment repoOptions id message
      else CreateComment repoOptions requestId message
  | None => CreateComment repoOptions requestId message
  end.

Definition replaceComment (options : PayloadOptions) : Prog unit :=
  await! commentId := getCommentId options in
  await! _ := await (write_call options commentId) in
  Ret tt.

(** ** Body construction and [processComment] *)

Definition comment_message (env : Env) (options : ConfigOptions) : string :=
  let commentText :=
    "![Styled Proverbs](" +:+ profile_url env +:+ "?theme="
      +:+ theme (styleOptions options) +:+ "&layout="
      +:+ layout (styleOptions options) +:+ ")" in
  let footer := "Triggered by commit: " +:+ sha (context env) in
  commentText +:+ "

" +:+ footer.

Definition comment_payload (env : Env) (options : ConfigOptions) : PayloadOptions :=
  {| commentOptions := {| message := comment_message env options |};
     payload_repoOptions := repoOptions options;
     payload_resourceOptions := resourceOptions options |}.

Definition processComment (env : Env) (options : ConfigOptions) : Prog unit :=
  try_catch
    (replaceComment (comment_payload env options))
    (λ error, coreError (CannotProcess options) (Throw error)).

(** ** One pipeline: [getOperationStatus] *)

Definition getOperationStatus (env : Env) (option : PartialConfigOptions) : Prog unit :=
  match buildConfigOptions env option with
  | Err e => Throw e
  | Ok options => processComment env options
  end.

(** ** Running a program to its end *)

Record World := {
  host : Host;
  (** the host calls issued so far, oldest first *)
  trace : list ApiCall;
  (** the lines written to the action log, oldest first *)
  log : list LogEntry
}.

Definition issue (c : ApiCall) (w : World) : World :=
  {| host := host w; trace := trace w ++ [c]; log := log w |}.

Definition write_log (entry : LogEntry) (w : World) : World :=
  {| host := host w; trace := trace w; log := log w ++ [entry] |}.

Definition set_host (h : Host) (w : World) : World :=
  {| host := h; trace := trace w; log := log w |}.

(** The host answers the call [c]. *)
Definition answer (c : ApiCall) (w : World) : Result (response c) * World :=
  let '(r, h) := serve (host w) c in (r, set_host h w).

(** A program run alone: every awaited call is issued, served and resumed
    before anything else happens. *)
Fixpoint exec {A} (m : Prog A) (w : World) : Result A * World :=
  match m with
  | Ret a => (Ok a, w)
  | Throw e => (Err e, w)
  | Log entry k => exec k (write_log entry w)
  | Call c k =>
      let '(r, w') := answer c (issue c w) in
      exec (k r) w'
  end.

Definition fresh_world (h : Host) : World :=
  {| host := h; trace := []; log := [] |}.

(** ** Batch Orchestrator: [executeOperation]

    Calling an [async] function runs it up to its first [await]: the call is
    issued and the promise is left pending.  The loop of [executeOperation]
    does so for every entry in turn; the answers then come in whatever order
    the host gives them, and each one resumes its pipeline up to the next
    [await].  A call takes effect on the host at the moment its answer is
    delivered.  [Promise.all] cancels nothing: it only settles the caller. *)

Inductive Task :=
| Pending (c : ApiCall) (k : Result (response c) -> Prog unit)
| Settled (r : Result unit).

(** Run a program up to its first awaited call, which is issued. *)
Fixpoint start (m : Prog unit) (w : World) : Task * World :=
  match m with
  | Ret a => (Settled (Ok a), w)
  | Throw e => (Settled (Err e), w)
  | Log entry k => start k (write_log entry w)
  | Call c k => (Pending c k, issue c w)
  end.

Record Pool := {
  tasks : list Task;
  world : World;
  (** the rejections so far, oldest first *)
  rejected : list Error
}.

Definition rejection (t : Task) : list Error :=
  match t with Settled (Err e) => [e] | _ => [] end.

(** [promises.push(m)] where [m] is the call of an [async] function. *)
Definition launch (pool : Pool) (m : Prog unit) : Pool :=
  let (t, w) := start m (world pool) in
  {| tasks := tasks pool ++ [t]; world := w;
     rejected := rejected pool ++ rejection t |}.

(** The answer to the pending call of task [i] arrives. *)
Definition deliver (pool : Pool) (i : nat) : Pool :=
  match tasks pool !! i with
  | Some (Pending c k) =>
      let (r, w) := answer c (world pool) in
      let (t, w2) := start (k r) w in
      {| tasks := <[i := t]> (tasks pool); world := w2;
         rejected := rejected pool ++ rejection t |}
  | _ => pool
  end.

(** Task [i] gets every answer it still waits for. *)
Definition complete (pool : Pool) (i : nat) : Pool :=
  match tasks pool !! i with
  | Some (Pending c k) =>
      let (r, w) := answer c (world pool) in
      let (r2, w2) := exec (k r) w in
      {| tasks := <[i := Settled r2]> (tasks pool); world := w2;
         rejected := rejected pool ++ rejection (Settled r2) |}
  | _ => pool
  end.

(** The event loop runs until no promise is pending. *)
Definition drain (pool : Pool) : Pool :=
  foldl complete pool (seq 0 (length (tasks pool))).

Definition settled (t : Task) : bool :=
  match t with Settled _ => true | Pending _ _ => false end.

(** What [await Promise.all(promises)] settles to: the first rejection. *)
Definition outcome (pool : Pool) : Result unit :=
  match rejected pool with
  | e :: _ => Err e
  | [] => Ok tt
  end.

Definition empty_pool (w : World) : Pool :=
  {| tasks := []; world := w; rejected := [] |}.

(** The pool of a batch: the pipelines are launched in the order of the
    batch, the answers of [schedule] arrive (each names the task it is
    for), and the rest is drained. *)
Definition run_pool (schedule : list nat) (ms : list (Prog unit)) (w : World) : Pool :=
  drain (foldl deliver (foldl launch (empty_pool w) ms) schedule).

Definition executeOperation_pool (env : Env) (schedule : list nat)
    (options : list PartialConfigOptions) (w : World) : Pool :=
  run_pool schedule (getOperationStatus env <$> options) w.

Definition executeOperation (env : Env) (schedule : list nat)
    (options : list PartialConfigOptions) (w : World) : Result unit * World :=
  let pool := executeOperation_pool env schedule options w in
  (outcome pool, world pool).

(** ** Batch Expander: the [params] of [getOperationResult] *)

(** [path.endsWith(extension)]. *)
Definition has_extension (extension path : string) : bool :=
  let n := String.length path in
  let m := String.length extension in
  (m <=? n)%nat && String.eqb (substring (n - m) m path) extension.

(** Modelled from the spec: [isValidFile] of [utils/validators], which is not
    among the sources: the source names an existing file with the recognized
    structured-data extension. *)
Definition isValidFile (env : Env) (fileName extension : string) : bool :=
  bool_decide (is_Some (files env !! fileName)) && has_extension extension fileName.

(** Modelled from the spec: [getConfigOptions] of [utils/files], which is not
    among the sources: the file is parsed as a sequence of partial
    configurations, and a file that does not parse so is a [ConfigError]. *)
Definition getConfigOptions (env : Env) (fileName : string)
  : Result (list PartialConfigOptions) :=
  match files env !! fileName with
  | Some (Structured entries) => Ok entries
  | Some Malformed => Err (ConfigError ("Invalid configuration file: " +:+ fileName))
  | None => Err (ConfigError ("Cannot read configuration file: " +:+ fileName))
  end.

Definition params (env : Env) (sourceData : string)
  : Result (list PartialConfigOptions) :=
  if isValidFile env sourceData ".json"
  then getConfigOptions env sourceData
  else Ok [empty_partial].

Definition getOperationResult (env : Env) (schedule : list nat)
    (sourceData : string) (w : World) : Result unit * World :=
  match params env sourceData with
  | Err e => (Err e, w)
  | Ok options => executeOperation env schedule options w
  end.

Definition runCommentOperation (env : Env) (schedule : list nat) (w : World)
  : Result unit * World :=
  let sourceData := getProperty env "sourceData" in
  getOperationResult env schedule sourceData w.

(** ** The caller of the batch: [run]

    [executeOperation], [getOperationResult] and [runCommentOperation] above
    give what the operation settles to and the world once every pipeline
    has settled.  Its caller does not wait that long for a failure:
    [await Promise.all(promises)] throws as soon as one promise is rejected,
    and what is thrown passes through the three functions to the [catch] of
    [run] before the next answer of the host is handled.  The pipelines
    that are still pending go on afterwards. *)

(** [core.setFailed]. *)
Definition setFailed (error : Error) (w : World) : World :=
  write_log (Failed error) w.

(** The handler of the caller runs at the step that brings the first
    rejection. *)
Definition notify (handler : Error -> World -> World) (before after : Pool) : Pool :=
  match rejected before, rejected after with
  | [], e :: _ =>
      {| tasks := tasks after; world := handler e (world after);
         rejected := rejected after |}
  | _, _ => after
  end.

(** The pool of [run_pool] with a caller that handles its rejection: the
    loop that launches the pipelines is synchronous, so the handler cannot
    run before all of them are launched; from then on it can run after
    every answer. *)
Definition watched_pool (handler : Error -> World -> World) (schedule : list nat)
    (ms : list (Prog unit)) (w : World) : Pool :=
  let launched := notify handler (empty_pool w) (foldl launch (empty_pool w) ms) in
  let answered :=
    foldl (λ pool i, notify handler pool (deliver pool i)) launched schedule in
  foldl (λ pool i, notify handler pool (complete pool i)) answered
    (seq 0 (length (tasks answered))).

(** [run]: a failure of the operation is reported to the host process, with
    [core.setFailed], and not thrown further.  A batch file that does not
    parse fails the operation before any pipeline is launched. *)
Definition run (env : Env) (schedule : list nat) (w : World) : World :=
  let sourceData := getProperty env "sourceData" in
  match params env sourceData with
  | Err error => setFailed error w
  | Ok options =>
      world (watched_pool setFailed schedule (getOperationStatus env <$> options) w)
  end.

(** The body a write call carries. *)
Definition call_text (c : ApiCall) : option string :=
  match c with
  | ListComments _ _ => None
  | UpdateComment _ _ text => Some text
  | CreateComment _ _ text => Some text
  end.

(** The call that lists the comments of the target of [options]. *)
Definition list_call (options : PayloadOptions) : ApiCall :=
  ListComments (payload_repoOptions options)
               (requestId (payload_resourceOptions options)).

(** The host keeps its identifiers positive and hands out fresh ones. *)
Definition host_ok (h : Host) : Prop :=
  0 < next_comment_id h ∧
  Forall (λ c, 0 < comment_id c < next_comment_id h) (comments h).

Definition by_bot (c : Comment) : Prop := user_login c = bot_login.

(** The comments of the bot on issue [n], oldest first. *)
Definition bot_comments (n : Z) (h : Host) : list Comment :=
  filter by_bot (thread n h).

(** The locator sees what it needs of the thread of issue [n]: a comment of
    the bot is on the first page, or the thread ends on the first page and
    leaves room there for one comment more. *)
Definition in_view (n : Z) (h : Host) : Prop :=
  Exists by_bot (listed n h) ∨ (length (thread n h) < per_page)%nat.

(** Task [i] of the pool is not waiting for an answer. *)
Definition idle (pool : Pool) (i : nat) : Prop :=
  ∀ c k, tasks pool !! i ≠ Some (Pending c k).

(** No task but task [i] is waiting for an answer. *)
Definition solo (i : nat) (pool : Pool) : Prop :=
  ∀ j, j ≠ i → idle pool j.

(** ** Concrete runs *)

Module Sample.

Definition repo_o_r : RepoOptions := {| owner := "o"; repo := "r" |}.

(** A push to repository [o/r] at commit [abc123]: no single-run input,
    the declared defaults, no pull request in the payload. *)
Definition env : Env :=
  {| inputs := ∅;
     defaults := {[ "theme" := "light"; "layout" := "classic" ]};
     context := {| sha := "abc123"; context_repo := repo_o_r;
                   pull_request_number := None |};
     profile_url := "<endpoint>";
     files := ∅ |}.

Definition with_inputs (i : gmap string string) (e : Env) : Env :=
  {| inputs := i; defaults := defaults e; context := context e;
     profile_url := profile_url e; files := files e |}.

Definition with_files (f : gmap string FileContent) (e : Env) : Env :=
  {| inputs := inputs e; defaults := defaults e; context := context e;
     profile_url := profile_url e; files := f |}.

Definition with_pull_request (n : Z) (e : Env) : Env :=
  {| inputs := inputs e; defaults := defaults e;
     context := {| sha := sha (context e);
                   context_repo := context_repo (context e);
                   pull_request_number := integer n |};
     profile_url := profile_url e; files := files e |}.

(** The batch entry [{"resourceOptions": {"requestId": n}}], for an integer
    [n] that the number type holds exactly. *)
Definition entry (n : Z) : PartialConfigOptions :=
  {| partial_styleOptions := None;
     partial_resourceOptions := Some {| partial_requestId := integer n |};
     partial_repoOptions := None |}.

(** The batch entry [{"styleOptions": {"theme": t, "layout": l},
    "resourceOptions": {"requestId": n}}], for such an [n]. *)
Definition styled_entry (t l : string) (n : Z) : PartialConfigOptions :=
  {| partial_styleOptions :=
       Some {| partial_theme := Some t; partial_layout := Some l |};
     partial_resourceOptions := Some {| partial_requestId := integer n |};
     partial_repoOptions := None |}.

Definition comment (id n : Z) (login text : string) : Comment :=
  {| comment_id := id; issue_number := n; user_login := login; body := text |}.

(** A repository with issues 9 and 10 and no comment yet. *)
Definition quiet_host : Host :=
  {| issues := [9; 10]; comments := []; next_comment_id := 1;
     viewer := bot_login |}.

(** The same with three comments on issue 9. *)
Definition busy_host : Host :=
  {| issues := [9; 10];
     comments := [comment 40 9 "alice" "hello";
                  comment 42 9 bot_login "old";
                  comment 43 9 bot_login "older"];
     next_comment_id := 44;
     viewer := bot_login |}.

(** The body of the end-to-end scenario. *)
Definition scenario_body : string :=
  "![Styled Proverbs](<endpoint>?theme=light&layout=classic)

Triggered by commit: abc123".

(** The end-to-end scenario: the batch file holds one entry for issue 9. *)
Definition scenario_env : Env :=
  with_files {[ "batch.json" := Structured [entry 9] ]}
    (with_inputs {[ "sourceData" := "batch.json" ]} env).

Definition scenario_world : World :=
  {| host := {| issues := [9; 10];
                comments := [comment 1 9 bot_login scenario_body];
                next_comment_id := 2;
                viewer := bot_login |};
     trace := [ListComments repo_o_r 9;
               CreateComment repo_o_r 9 scenario_body];
     log := [] |}.

(** The update scenario: the bot's comment 42 is already on issue 9. *)
Definition update_host : Host :=
  {| issues := [9; 10];
     comments := [comment 40 9 "alice" "hello"; comment 42 9 bot_login "old"];
     next_comment_id := 43;
     viewer := bot_login |}.

(** A repository whose issue 9 has a first page full of comments by
    alice, and none by the bot. *)
Definition crowded_host : Host :=
  {| issues := [9; 10];
     comments := (λ i, comment (Z.of_nat i) 9 "alice" "hello") <$> seq 1 per_page;
     next_comment_id := 31;
     viewer := bot_login |}.

End Sample.

(** ** Batch entries with one explicit field taken away *)

Definition unset_theme (options : PartialConfigOptions) : PartialConfigOptions :=
  {| partial_styleOptions :=
       (λ s, {| partial_theme := None; partial_layout := partial_layout s |})
         <$> partial_styleOptions options;
     partial_resourceOptions := partial_resourceOptions options;
     partial_repoOptions := partial_repoOptions options |}.

Definition unset_layout (options : PartialConfigOptions) : PartialConfigOptions :=
  {| partial_styleOptions :=
       (λ s, {| partial_theme := partial_theme s; partial_layout := None |})
         <$> partial_styleOptions options;
     partial_resourceOptions := partial_resourceOptions options;
     partial_repoOptions := partial_repoOptions options |}.

Definition unset_requestId (options : PartialConfigOptions) : PartialConfigOptions :=
  {| partial_styleOptions := partial_styleOptions options;
     partial_resourceOptions :=
       (λ _, {| partial_requestId := None |}) <$> partial_resourceOptions options;
     partial_repoOptions := partial_repoOptions options |}.

(** An explicit [requestId] is skipped when it is missing or falsy. *)
Definition skipped (explicit : option Number) : Prop :=
  truthy (of_number explicit) = false.

(** A repository that has issue 9 only, with a comment of alice and the
    comment 42 of the bot on it. *)
Definition lone_host : Host :=
  {| issues := [9];
     comments := [Sample.comment 40 9 "alice" "hello";
                  Sample.comment 42 9 bot_login "old"];
     next_comment_id := 43;
     viewer := bot_login |}.

(** The descriptor of the end-to-end scenario, for issue [n]. *)
Definition plain_config (n : Z) : ConfigOptions :=
  {| styleOptions := {| theme := "light"; layout := "classic" |};
     resourceOptions := {| requestId := n |};
     repoOptions := Sample.repo_o_r |}.

(** ** What a program may call *)

(** Every call the program can issue, whatever it is answered, satisfies [P]. *)
Fixpoint always {A} (P : ApiCall → Prop) (m : Prog A) : Prop :=
  match m with
  | Ret _ => True
  | Throw _ => True
  | Log _ k => always P k
  | Call c k => P c ∧ ∀ r, always P (k r)
  end.

(** The same of every call after the first one. *)
Fixpoint later {A} (P : ApiCall → Prop) (m : Prog A) : Prop :=
  match m with
  | Ret _ => True
  | Throw _ => True
  | Log _ k => later P k
  | Call c k => ∀ r, always P (k r)
  end.

(** The call a program issues when it is started, if it issues one. *)
Fixpoint first_call {A} (m : Prog A) : option ApiCall :=
  match m with
  | Ret _ => None
  | Throw _ => None
  | Log _ k => first_call k
  | Call c _ => Some c
  end.

(** The error a program throws when it is started, if it throws at once. *)
Fixpoint thrown {A} (m : Prog A) : option Error :=
  match m with
  | Ret _ => None
  | Throw e => Some e
  | Log _ k => thrown k
  | Call _ _ => None
  end.

(** What a task may still call once its pending call is answered. *)
Definition task_always (P : ApiCall → Prop) (t : Task) : Prop :=
  match t with
  | Pending c k => ∀ r, always P (k r)
  | Settled _ => True
  end.

(** The trace of [w] is [t0] followed by calls that satisfy [P]. *)
Definition extends (P : ApiCall → Prop) (t0 : list ApiCall) (w : World) : Prop :=
  ∃ added, trace w = t0 ++ added ∧ Forall P added.

(** ** A batch seen entry by entry *)

Definition resolves (env : Env) (entry : PartialConfigOptions) : Prop :=
  is_Ok (buildConfigOptions env entry) = true.

(** The listing of the entry, when the entry resolves. *)
Definition listing (env : Env) (entry : PartialConfigOptions) : option ApiCall :=
  match buildConfigOptions env entry with
  | Ok cfg => Some (list_call (comment_payload env cfg))
  | Err _ => None
  end.

(** The error of the entry, when the entry does not resolve. *)
Definition invalid (env : Env) (entry : PartialConfigOptions) : option Error :=
  match buildConfigOptions env entry with
  | Ok _ => None
  | Err e => Some e
  end.

(** The call [c] is one the pipeline of the descriptor [cfg] makes: on the
    repository and the issue of the descriptor and, when it writes, with the
    body of the descriptor. *)
Definition call_of (env : Env) (cfg : ConfigOptions) (c : ApiCall) : Prop :=
  match c with
  | ListComments r n =>
      r = repoOptions cfg ∧ n = requestId (resourceOptions cfg)
  | UpdateComment r _ text =>
      r = repoOptions cfg ∧ text = comment_message env cfg
  | CreateComment r n text =>
      r = repoOptions cfg ∧ n = requestId (resourceOptions cfg) ∧
      text = comment_message env cfg
  end.

(** The call [c] is one of an entry of the batch that resolves, and it is
    addressed to the repository of the run. *)
Definition call_of_batch (env : Env) (options : list PartialConfigOptions)
    (c : ApiCall) : Prop :=
  ∃ entry cfg,
    entry ∈ options ∧ buildConfigOptions env entry = Ok cfg ∧
    repoOptions cfg = context_repo (context env) ∧ call_of env cfg c.

(** ** Invariants of a pool *)

(** What was added to the trace after [t0] satisfies [P], and so will what
    the pending tasks go on to call. *)
Definition pool_always (P : ApiCall → Prop) (t0 : list ApiCall) (pool : Pool) : Prop :=
  Forall (task_always P) (tasks pool) ∧ extends P t0 (world pool).

(** ** Which comments a program touches *)

(** The issues the entries of a batch resolve to. *)
Definition targets (env : Env) (options : list PartialConfigOptions) : list Z :=
  omap (λ entry, match buildConfigOptions env entry with
                 | Ok cfg => Some (requestId (resourceOptions cfg))
                 | Err _ => None
                 end) options.

(** The comments of the bot on the issues [ns]. *)
Definition bot_on (ns : list Z) (c : Comment) : Prop :=
  by_bot c ∧ issue_number c ∈ ns.

(** The comments of the host that the bot did not write. *)
Definition others (h : Host) : list Comment :=
  filter (λ c, ¬ by_bot c) (comments h).

(** The comments of the host that are not comments of the bot on [ns]. *)
Definition kept (ns : list Z) (h : Host) : list Comment :=
  filter (λ c, ¬ bot_on ns c) (comments h).

(** The call touches comments of the bot on [ns] only: an update names a
    comment the host has, every comment that has that identifier is one of
    the bot on [ns], and so is the comment a creation makes. *)
Definition own_call (ns : list Z) (h : Host) (c : ApiCall) : Prop :=
  match c with
  | ListComments _ _ => True
  | UpdateComment _ id _ =>
      (∃ x, x ∈ comments h ∧ comment_id x = id) ∧
      ∀ x, x ∈ comments h → comment_id x = id → bot_on ns x
  | CreateComment _ n _ => n ∈ ns
  end.

(** The host authors as the bot, keeps its identifiers positive and below
    the next one, and gives no identifier twice. *)
Definition tidy (h : Host) : Prop :=
  viewer h = bot_login ∧ host_ok h ∧ NoDup (comment_id <$> comments h).

(** Issued on the host [h], the next call of the program touches comments
    of the bot on [ns] only, and so do the calls after it, on whatever tidy
    host the one before is served. *)
Fixpoint owns {A} (ns : list Z) (m : Prog A) (h : Host) : Prop :=
  match m with
  | Ret _ => True
  | Throw _ => True
  | Log _ k => owns ns k h
  | Call c k =>
      own_call ns h c ∧ ∀ h', tidy h' → owns ns (k (serve h' c).1) (serve h' c).2
  end.

Definition task_owns (ns : list Z) (h : Host) (t : Task) : Prop :=
  match t with
  | Pending c k =>
      own_call ns h c ∧ ∀ h', tidy h' → owns ns (k (serve h' c).1) (serve h' c).2
  | Settled _ => True
  end.

(** The host of the pool is tidy, the comments that are not the bot's on
    [ns] are [o], and the pending tasks touch comments of the bot on [ns]
    only. *)
Definition pool_owns (ns : list Z) (o : list Comment) (pool : Pool) : Prop :=
  tidy (host (world pool)) ∧
  kept ns (host (world pool)) = o ∧
  Forall (task_owns ns (host (world pool))) (tasks pool).

(** ** Calls the host cannot reject *)

(** The call names an issue among [ns] or a comment the host has. *)
Definition valid (ns : list Z) (h : Host) (c : ApiCall) : Prop :=
  match c with
  | ListComments _ n => n ∈ ns
  | UpdateComment _ id _ => ∃ x, x ∈ comments h ∧ comment_id x = id
  | CreateComment _ n _ => n ∈ ns
  end.

(** Issued on the host [h], the next call of the program is valid, it goes
    on in the same way on whatever host that has the issues [ns] the call is
    served, and it never throws. *)
Fixpoint thrives {A} (ns : list Z) (m : Prog A) (h : Host) : Prop :=
  match m with
  | Ret _ => True
  | Throw _ => False
  | Log _ k => thrives ns k h
  | Call c k =>
      valid ns h c ∧
      ∀ h', ns ⊆ issues h' → valid ns h' c →
            thrives ns (k (serve h' c).1) (serve h' c).2
  end.

Definition task_thrives (ns : list Z) (h : Host) (t : Task) : Prop :=
  match t with
  | Pending c k =>
      valid ns h c ∧
      ∀ h', ns ⊆ issues h' → valid ns h' c →
            thrives ns (k (serve h' c).1) (serve h' c).2
  | Settled r => is_Ok r = true
  end.

(** The host of the pool has the issues [ns], nothing was rejected, and no
    task will be. *)
Definition pool_thrives (ns : list Z) (pool : Pool) : Prop :=
  ns ⊆ issues (host (world pool)) ∧
  rejected pool = [] ∧
  Forall (task_thrives ns (host (world pool))) (tasks pool).

(** ** One entry among the others *)

(** The task a program is when it is started. *)
Fixpoint first_task (m : Prog unit) : Task :=
  match m with
  | Ret a => Settled (Ok a)
  | Throw e => Settled (Err e)
  | Log _ k => first_task k
  | Call c k => Pending c k
  end.

(** [processComment] from the answer of the listing on. *)
Definition publish (env : Env) (options : ConfigOptions) (comments : list Comment)
  : Prog unit :=
  try_catch
    (await! _ := await (write_call (comment_payload env options)
                          (pick_comment_id comments)) in
     Ret tt)
    (λ error, coreError (CannotProcess options) (Throw error)).

(** Where the pipeline of the descriptor [cfg] stands on the host [h], when
    the thread of its target was [before] at the start: it awaits the
    listing or the write, and the thread is as it was and in view; or it
    has succeeded, and the first comment of the bot on the target has its
    body, is on the first page, and is the comment that was first before
    when there was one. *)
Definition stage (env : Env) (cfg : ConfigOptions) (before : list Comment)
    (h : Host) (t : Task) : Prop :=
  let n := requestId (resourceOptions cfg) in
  (t = first_task (processComment env cfg) ∧ thread n h = before ∧ in_view n h) ∨
  (t = first_task (publish env cfg (take per_page before)) ∧
   thread n h = before ∧ in_view n h) ∨
  (t = Settled (Ok tt) ∧
   Exists by_bot (listed n h) ∧
   ∃ x rest,
     bot_comments n h = x :: rest ∧
     body x = comment_message env cfg ∧
     length rest = (length (filter by_bot before) - 1)%nat ∧
     ∀ c0 l, filter by_bot before = c0 :: l → comment_id x = comment_id c0).

(** The invariant of a pool for the entry at index [i], whose target no
    other entry shares: the others touch comments of the bot on [ns] only,
    and the entry is at one of its stages. *)
Definition pool_stage (env : Env) (cfg : ConfigOptions) (before : list Comment)
    (ns : list Z) (i : nat) (pool : Pool) : Prop :=
  tidy (host (world pool)) ∧
  requestId (resourceOptions cfg) ∈ issues (host (world pool)) ∧
  (∀ j t, j ≠ i → tasks pool !! j = Some t → task_owns ns (host (world pool)) t) ∧
  ∃ t, tasks pool !! i = Some t ∧ stage env cfg before (host (world pool)) t.

(** ** The calls of each pipeline *)

(** [h] is the list of the calls of one run of the program to its end, for
    some answers of the host. *)
Fixpoint runs {A} (m : Prog A) (h : list ApiCall) : Prop :=
  match m with
  | Ret _ => h = []
  | Throw _ => h = []
  | Log _ k => runs k h
  | Call c k => ∃ h', h = c :: h' ∧ ∃ r, runs (k r) h'
  end.

(** [h] is the list of the calls a task issues from now to its end, for
    some answers of the host. *)
Definition task_rest (t : Task) (h : list ApiCall) : Prop :=
  match t with
  | Pending c k => ∃ r, runs (k r) h
  | Settled _ => h = []
  end.

(** The pool keeps a ledger: what was added to the trace after [t0] is,
    in some order, the calls [hist] of the tasks, and the calls of each
    task are the beginning of a run of the program it was launched as. *)
Definition ledger (ms : list (Prog unit)) (t0 : list ApiCall) (pool : Pool) : Prop :=
  ∃ (hist : list (list ApiCall)) (added : list ApiCall),
    trace (world pool) = t0 ++ added ∧
    added ≡ₚ concat hist ∧
    length (tasks pool) = length ms ∧
    length hist = length ms ∧
    ∀ i m t h,
      ms !! i = Some m → tasks pool !! i = Some t → hist !! i = Some h →
      ∀ h', task_rest t h' → runs m (h ++ h').

(** The write of an entry, if it made one: a write call of the descriptor
    the entry resolves to. *)
Definition written (env : Env) (entry : PartialConfigOptions)
    (slot : option ApiCall) : Prop :=
  match slot with
  | None => True
  | Some c =>
      ∃ cfg commentId,
        buildConfigOptions env entry = Ok cfg ∧
        c = write_call (comment_payload env cfg) commentId
  end.

(** ** Two worlds that differ in the log only *)

(** The worlds have the same host and the same trace, and their logs are
    [l1] and [l2] followed by the same lines. *)
Definition follows (l1 l2 : list LogEntry) (w1 w2 : World) : Prop :=
  host w1 = host w2 ∧ trace w1 = trace w2 ∧
  ∃ new, log w1 = l1 ++ new ∧ log w2 = l2 ++ new.

Definition pool_follows (l1 l2 : list LogEntry) (p1 p2 : Pool) : Prop :=
  tasks p1 = tasks p2 ∧ rejected p1 = rejected p2 ∧
  follows l1 l2 (world p1) (world p2).

(** The first rejection of the pool is [e], and the watched pool differs
    from the pool in the line [Failed e], which it has after the lines [l1]
    that were there when the rejection came. *)
Definition reported (l1 : list LogEntry) (e : Error) (p1 p2 : Pool) : Prop :=
  (∃ more, rejected p2 = e :: more) ∧ pool_follows (l1 ++ [Failed e]) l1 p1 p2.

(** The program writes to the log only as it fails: one line, and then it
    throws. *)
Fixpoint quiet {A} (m : Prog A) : Prop :=
  match m with
  | Ret _ => True
  | Throw _ => True
  | Log _ k => ∃ e, k = Throw e
  | Call _ k => ∀ r, quiet (k r)
  end.

(** The same of a program that, besides, writes nothing as it is started. *)
Definition muted {A} (m : Prog A) : Prop :=
  match m with
  | Ret _ => True
  | Throw _ => True
  | Log _ _ => False
  | Call _ k => ∀ r, quiet (k r)
  end.

Definition task_quiet (t : Task) : Prop :=
  match t with
  | Pending _ k => ∀ r, quiet (k r)
  | Settled _ => True
  end.

(** The tasks of the pool are quiet, and the log is still [l0] when nothing
    is rejected yet. *)
Definition pool_quiet (l0 : list LogEntry) (pool : Pool) : Prop :=
  Forall task_quiet (tasks pool) ∧ (rejected pool = [] → log (world pool) = l0).

(** The lines [l1] are [l0] and at most one line more. *)
Definition just_after (l0 l1 : list LogEntry) : Prop :=
  ∃ new, l1 = l0 ++ new ∧ (length new ≤ 1)%nat.

(** The watched pool and the pool, whose log was [l0] at the start, evolve
    alike: they are the same as long as nothing is rejected, and the watched
    pool reports the first rejection, after the line, if any, that the
    rejected task wrote as it failed. *)
Definition watches (l0 : list LogEntry) (p1 p2 : Pool) : Prop :=
  pool_quiet l0 p2 ∧
  ((rejected p2 = [] ∧ p1 = p2) ∨
   ∃ l1 e, just_after l0 l1 ∧ reported l1 e p1 p2).

(** * Properties *)

(** ** Integers and their decimal form *)

Lemma to_int_not_nil (z : Z) : Z.to_int z ≠ Pos Nil ∧ Z.to_int z ≠ Neg Nil.
Proof.
  destruct z as [|p|p]; simpl; split; try discriminate;
    intros H; injection H as H;
    exact (DecimalPos.Unsigned.to_uint_nonnil p H).
Qed.

Lemma parse_integer_decimal (z : Z) : parse_integer (decimal z) = Some z.
Proof.
  unfold parse_integer, decimal. destruct (to_int_not_nil z) as [Hp Hn].
  rewrite (NilZero.isi _ Hp Hn). simpl. by rewrite DecimalZ.of_to.
Qed.

(** [toInt] reads back the numeral of a strictly positive integer ... *)
Lemma toInt_positive (s : string) (n : Z) :
  parse_integer s = Some n → 0 < n → toInt s = Ok n.
Proof.
  intros Hs Hn. unfold toInt. rewrite Hs.
  by rewrite (proj2 (Z.ltb_lt 0 n) Hn).
Qed.

(** ... and rejects the numeral of any other integer ... *)
Lemma toInt_not_positive (s : string) (n : Z) :
  parse_integer s = Some n → (n ≤ 0)%Z →
  toInt s = Err (ValueError ("Invalid integer: " +:+ s)).
Proof.
  intros Hs Hn. unfold toInt. rewrite Hs.
  by rewrite (proj2 (Z.ltb_ge 0 n) Hn).
Qed.

(** ... as well as what is not the numeral of an integer. *)
Lemma toInt_not_numeral (s : string) :
  parse_integer s = None →
  toInt s = Err (ValueError ("Invalid integer: " +:+ s)).
Proof. intros Hs. unfold toInt. by rewrite Hs. Qed.

Lemma toInt_decimal (z : Z) : 0 < z → toInt (decimal z) = Ok z.
Proof. apply toInt_positive, parse_integer_decimal. Qed.

Lemma toInt_Ok (s : string) (n : Z) :
  toInt s = Ok n → parse_integer s = Some n ∧ 0 < n.
Proof.
  unfold toInt. destruct (parse_integer s) as [m |]; [| discriminate].
  destruct (Z.ltb 0 m) eqn:Hm; [| discriminate].
  intros [= <-]. split; [done | by apply Z.ltb_lt].
Qed.

Lemma toInt_error (s : string) (e : Error) : toInt s = Err e → is_ValueError e = true.
Proof.
  unfold toInt. destruct (parse_integer s) as [m |].
  - destruct (Z.ltb 0 m); [discriminate | by intros [= <-]].
  - by intros [= <-].
Qed.

Lemma decimal_not_undefined (z : Z) : decimal z ≠ "undefined".
Proof.
  intros H. pose proof (parse_integer_decimal z) as Hz.
  rewrite H in Hz. discriminate Hz.
Qed.

Lemma decimal_not_empty (z : Z) : decimal z ≠ "".
Proof.
  intros H. pose proof (parse_integer_decimal z) as Hz.
  rewrite H in Hz. discriminate Hz.
Qed.

(** The number of an integer: it is falsy when the integer is [0], and it
    prints as the numeral of the integer. *)
Lemma integer_Some (z : Z) (x : Number) :
  integer z = Some x →
  x = {| number_falsy := Z.eqb z 0; number_text := decimal z |}.
Proof.
  unfold integer. destruct (Z.leb (Z.abs z) MAX_SAFE_INTEGER); [| discriminate].
  by intros [= <-].
Qed.

(** ** Truthiness and the tiers of [requestId] *)

Lemma truthy_number (x : Number) : truthy (JsNumber x) = true ↔ number_falsy x = false.
Proof. simpl. apply negb_true_iff. Qed.

Lemma truthy_string (s : string) : truthy (JsString s) = true ↔ s ≠ "".
Proof.
  simpl. rewrite negb_true_iff. apply eqb_neq.
Qed.

Lemma or_string_unset (b : string) : or_string None b = b.
Proof. reflexivity. Qed.

Lemma or_string_empty (b : string) : or_string (Some "") b = b.
Proof. reflexivity. Qed.

Lemma or_string_explicit (s b : string) : s ≠ "" → or_string (Some s) b = s.
Proof.
  intros Hs. unfold or_string.
  destruct (String.eqb_spec s ""); [contradiction | reflexivity].
Qed.

Lemma skipped_unset : skipped None.
Proof. reflexivity. Qed.

(** Tier 1: an explicit number that is truthy is the candidate. *)
Lemma candidate_explicit env options (x : Number) :
  explicit_requestId options = Some x → number_falsy x = false →
  requestId_candidate env options = JsNumber x.
Proof.
  intros He Hx. unfold requestId_candidate, js_or. rewrite He. cbn [of_number].
  by rewrite !(proj2 (truthy_number x) Hx).
Qed.

(** Tier 2: else a non-empty single-run input is the candidate. *)
Lemma candidate_input env options (s : string) :
  skipped (explicit_requestId options) →
  getProperty env "requestId" = s → s ≠ "" →
  requestId_candidate env options = JsString s.
Proof.
  intros He Hp Hs. unfold requestId_candidate, js_or. rewrite Hp.
  unfold skipped in He. rewrite He.
  by rewrite (proj2 (truthy_string s) Hs).
Qed.

(** Tier 3: else the number of the ambient pull request, if there is one. *)
Lemma candidate_ambient env options :
  skipped (explicit_requestId options) →
  getProperty env "requestId" = "" →
  requestId_candidate env options = of_number (pull_request_number (context env)).
Proof.
  intros He Hp. unfold requestId_candidate, js_or. rewrite Hp.
  unfold skipped in He. by rewrite He.
Qed.

(** Resolution is [toInt] on the text of the candidate, once there is one. *)
Lemma buildConfigOptions_text env options :
  requestId_candidate env options ≠ JsUndefined →
  buildConfigOptions env options =
    match toInt (template (requestId_candidate env options)) with
    | Err e => Err e
    | Ok n =>
        Ok {| styleOptions :=
                {| theme := or_string (explicit_theme options) (getProperty env "theme");
                   layout := or_string (explicit_layout options) (getProperty env "layout") |};
              resourceOptions := {| requestId := n |};
              repoOptions := context_repo (context env) |}
    end.
Proof.
  intros Hc. unfold buildConfigOptions.
  by destruct (requestId_candidate env options).
Qed.

Lemma buildConfigOptions_number env options (x : Number) (n : Z) :
  requestId_candidate env options = JsNumber x →
  number_text x = decimal n → 0 < n →
  buildConfigOptions env options =
    Ok {| styleOptions :=
            {| theme := or_string (explicit_theme options) (getProperty env "theme");
               layout := or_string (explicit_layout options) (getProperty env "layout") |};
          resourceOptions := {| requestId := n |};
          repoOptions := context_repo (context env) |}.
Proof.
  intros Hc Hx Hn. rewrite buildConfigOptions_text by (by rewrite Hc).
  rewrite Hc. cbn [template]. by rewrite Hx, toInt_decimal.
Qed.

Lemma buildConfigOptions_string env options (s : string) :
  requestId_candidate env options = JsString s →
  buildConfigOptions env options =
    match toInt s with
    | Err e => Err e
    | Ok n =>
        Ok {| styleOptions :=
                {| theme := or_string (explicit_theme options) (getProperty env "theme");
                   layout := or_string (explicit_layout options) (getProperty env "layout") |};
              resourceOptions := {| requestId := n |};
              repoOptions := context_repo (context env) |}
    end.
Proof.
  intros Hc. unfold buildConfigOptions. by rewrite Hc.
Qed.

Lemma buildConfigOptions_undefined env options :
  requestId_candidate env options = JsUndefined →
  buildConfigOptions env options =
    Err (ValueError "Invalid pull request identifier: undefined").
Proof.
  intros Hc. unfold buildConfigOptions. by rewrite Hc.
Qed.

(** Resolution only ever fails with a [ValueError]. *)
Lemma buildConfigOptions_error env options (e : Error) :
  buildConfigOptions env options = Err e → is_ValueError e = true.
Proof.
  unfold buildConfigOptions.
  destruct (isNullOrUndefined _); [by intros [= <-] |].
  destruct (toInt _) as [n | e'] eqn:Ht; [discriminate |].
  intros [= <-]. by eapply toInt_error.
Qed.

Lemma buildConfigOptions_style env options cfg :
  buildConfigOptions env options = Ok cfg →
  theme (styleOptions cfg) = or_string (explicit_theme options) (getProperty env "theme") ∧
  layout (styleOptions cfg) = or_string (explicit_layout options) (getProperty env "layout") ∧
  repoOptions cfg = context_repo (context env).
Proof.
  unfold buildConfigOptions.
  destruct (isNullOrUndefined _); [discriminate |].
  destruct (toInt _); [| discriminate].
  by intros [= <-].
Qed.

(** ** Config Resolver *)

(** C2.  Resolution hands the text of the candidate to [toInt], and the
    candidate is the explicit number of the entry when it is truthy, else
    the single-run input when it is not empty, else the number of the
    ambient pull request.  Resolution fails with [ValueError] when no tier
    yields a candidate, when the text of the candidate is not the numeral
    of an integer, and when it is the numeral of zero or of a negative
    integer.  When it is the numeral of a strictly positive integer,
    whether the candidate is a number or a numeric string, resolution
    succeeds and the resolved [requestId] is that integer.  So an explicit
    number that is an integer the number type holds exactly resolves to
    itself when it is strictly positive, and is rejected when it is
    negative. *)
Theorem buildConfigOptions_requestId env options :
  let candidate := requestId_candidate env options in
  let resolved (n : Z) : Result ConfigOptions :=
    Ok {| styleOptions :=
            {| theme := or_string (explicit_theme options) (getProperty env "theme");
               layout := or_string (explicit_layout options) (getProperty env "layout") |};
          resourceOptions := {| requestId := n |};
          repoOptions := context_repo (context env) |} in
  ((∀ x, explicit_requestId options = Some x → number_falsy x = false →
         candidate = JsNumber x) ∧
   (skipped (explicit_requestId options) → getProperty env "requestId" ≠ "" →
    candidate = JsString (getProperty env "requestId")) ∧
   (skipped (explicit_requestId options) → getProperty env "requestId" = "" →
    candidate = of_number (pull_request_number (context env)))) ∧
  (candidate = JsUndefined →
   buildConfigOptions env options =
     Err (ValueError "Invalid pull request identifier: undefined")) ∧
  (parse_integer (template candidate) = None →
   ∃ message, buildConfigOptions env options = Err (ValueError message)) ∧
  (∀ n, parse_integer (template candidate) = Some n → (n ≤ 0)%Z →
        ∃ message, buildConfigOptions env options = Err (ValueError message)) ∧
  (∀ n, parse_integer (template candidate) = Some n → 0 < n →
        buildConfigOptions env options = resolved n) ∧
  (∀ z x, integer z = Some x → explicit_requestId options = Some x →
          (0 < z → buildConfigOptions env options = resolved z) ∧
          (z < 0 →
           ∃ message, buildConfigOptions env options = Err (ValueError message))).
Proof.
  intros candidate resolved. subst candidate resolved. cbn beta.
  split; [split; [| split] |].
  - intros x He Hx. by apply candidate_explicit.
  - intros He Hs. by apply candidate_input.
  - intros He Hs. by apply candidate_ambient.
  - split; [apply buildConfigOptions_undefined |].
    assert (Hz : ∀ z x, integer z = Some x → explicit_requestId options = Some x →
              z ≠ 0 →
              buildConfigOptions env options =
                match toInt (decimal z) with
                | Err e => Err e
                | Ok n =>
                    Ok {| styleOptions :=
                            {| theme := or_string (explicit_theme options)
                                          (getProperty env "theme");
                               layout := or_string (explicit_layout options)
                                           (getProperty env "layout") |};
                          resourceOptions := {| requestId := n |};
                          repoOptions := context_repo (context env) |}
                end).
    { intros z x Hx He Hne. apply integer_Some in Hx. subst x.
      pose proof (candidate_explicit env options _ He
                    (proj2 (Z.eqb_neq z 0) Hne)) as Hc.
      rewrite buildConfigOptions_text by (by rewrite Hc). by rewrite Hc. }
    assert (Hint : ∀ z x, integer z = Some x → explicit_requestId options = Some x →
              (0 < z →
               buildConfigOptions env options =
                 Ok {| styleOptions :=
                         {| theme := or_string (explicit_theme options)
                                       (getProperty env "theme");
                            layout := or_string (explicit_layout options)
                                        (getProperty env "layout") |};
                       resourceOptions := {| requestId := z |};
                       repoOptions := context_repo (context env) |}) ∧
              (z < 0 →
               ∃ message, buildConfigOptions env options = Err (ValueError message))).
    { intros z x Hx He. split; intros Hr.
      - rewrite (Hz z x Hx He) by lia. by rewrite toInt_decimal by lia.
      - rewrite (Hz z x Hx He) by lia.
        rewrite (toInt_not_positive _ z (parse_integer_decimal z)) by lia.
        by eexists. }
    destruct (requestId_candidate env options) as [| x | s] eqn:Hc.
    + rewrite (buildConfigOptions_undefined env options Hc).
      rewrite (buildConfigOptions_undefined env options Hc) in Hint.
      split; [by eexists |].
      split; [intros n Hn; vm_compute in Hn; discriminate Hn |].
      split; [intros n Hn; vm_compute in Hn; discriminate Hn | exact Hint].
    + rewrite buildConfigOptions_text by (by rewrite Hc).
      rewrite buildConfigOptions_text in Hint by (by rewrite Hc). rewrite Hc in *.
      split; [| split; [| split; [| exact Hint]]].
      * intros Hn. rewrite (toInt_not_numeral _ Hn). by eexists.
      * intros n Hn Hle. rewrite (toInt_not_positive _ n Hn Hle). by eexists.
      * intros n Hn Hlt. by rewrite (toInt_positive _ n Hn Hlt).
    + rewrite buildConfigOptions_text by (by rewrite Hc).
      rewrite buildConfigOptions_text in Hint by (by rewrite Hc). rewrite Hc in *.
      split; [| split; [| split; [| exact Hint]]].
      * intros Hn. rewrite (toInt_not_numeral _ Hn). by eexists.
      * intros n Hn Hle. rewrite (toInt_not_positive _ n Hn Hle). by eexists.
      * intros n Hn Hlt. by rewrite (toInt_positive _ n Hn Hlt).
Qed.

Lemma buildConfigOptions_requestId_witness :
  buildConfigOptions Sample.env empty_partial =
    Err (ValueError "Invalid pull request identifier: undefined") ∧
  (∃ message,
     buildConfigOptions (Sample.with_inputs {[ "requestId" := "3.7" ]} Sample.env)
       empty_partial = Err (ValueError message)) ∧
  (∃ message,
     buildConfigOptions Sample.env
       {| partial_styleOptions := None;
          partial_resourceOptions :=
            Some {| partial_requestId :=
                      Some {| number_falsy := false; number_text := "1e+21" |} |};
          partial_repoOptions := None |} = Err (ValueError message)) ∧
  (∃ message,
     buildConfigOptions Sample.env (Sample.entry (-5)) = Err (ValueError message)) ∧
  (∃ message,
     buildConfigOptions (Sample.with_inputs {[ "requestId" := "0" ]} Sample.env)
       empty_partial = Err (ValueError message)) ∧
  buildConfigOptions Sample.env (Sample.entry 9) =
    Ok {| styleOptions := {| theme := "light"; layout := "classic" |};
          resourceOptions := {| requestId := 9 |};
          repoOptions := Sample.repo_o_r |} ∧
  buildConfigOptions (Sample.with_inputs {[ "requestId" := "10" ]} Sample.env)
    empty_partial =
    Ok {| styleOptions := {| theme := "light"; layout := "classic" |};
          resourceOptions := {| requestId := 10 |};
          repoOptions := Sample.repo_o_r |} ∧
  buildConfigOptions (Sample.with_pull_request 7 Sample.env) (Sample.entry 0) =
    Ok {| styleOptions := {| theme := "light"; layout := "classic" |};
          resourceOptions := {| requestId := 7 |};
          repoOptions := Sample.repo_o_r |}.
Proof.
  split; [| split; [| split; [| split; [| split; [| split; [| split]]]]]].
  - exact (proj1 (proj2 (buildConfigOptions_requestId Sample.env empty_partial)) eq_refl).
  - exact (proj1 (proj2 (proj2 (buildConfigOptions_requestId
             (Sample.with_inputs {[ "requestId" := "3.7" ]} Sample.env) empty_partial)))
             eq_refl).
  - exact (proj1 (proj2 (proj2 (buildConfigOptions_requestId Sample.env
             {| partial_styleOptions := None;
                partial_resourceOptions :=
                  Some {| partial_requestId :=
                            Some {| number_falsy := false; number_text := "1e+21" |} |};
                partial_repoOptions := None |}))) eq_refl).
  - refine (proj2 (proj2 (proj2 (proj2 (proj2 (proj2 (buildConfigOptions_requestId
              Sample.env (Sample.entry (-5))))))) (-5) _ eq_refl eq_refl) _).
    lia.
  - refine (proj1 (proj2 (proj2 (proj2 (buildConfigOptions_requestId
              (Sample.with_inputs {[ "requestId" := "0" ]} Sample.env) empty_partial))))
              0 eq_refl _). lia.
  - refine (proj1 (proj2 (proj2 (proj2 (proj2 (proj2 (buildConfigOptions_requestId
              Sample.env (Sample.entry 9)))))) 9 _ eq_refl eq_refl) _).
    lia.
  - refine (proj1 (proj2 (proj2 (proj2 (proj2 (buildConfigOptions_requestId
              (Sample.with_inputs {[ "requestId" := "10" ]} Sample.env) empty_partial)))))
              10 eq_refl _). lia.
  - refine (proj1 (proj2 (proj2 (proj2 (proj2 (buildConfigOptions_requestId
              (Sample.with_pull_request 7 Sample.env) (Sample.entry 0)))))) 7 eq_refl _).
    lia.
Defined.

(** C6, as amended.  When resolution succeeds, a batch entry without an
    explicit theme gets the single-run [theme] input when the step supplies
    one and the ambient default otherwise, and an explicit theme that is not
    the empty string wins over both; likewise for the layout. *)
Theorem buildConfigOptions_precedence env options cfg :
  buildConfigOptions env options = Ok cfg →
  (explicit_theme options = None →
     (∀ v, inputs env !! "theme" = Some v → theme (styleOptions cfg) = v) ∧
     (∀ d, inputs env !! "theme" = None → defaults env !! "theme" = Some d →
           theme (styleOptions cfg) = d)) ∧
  (∀ s, explicit_theme options = Some s → s ≠ "" → theme (styleOptions cfg) = s) ∧
  (explicit_layout options = None →
     (∀ v, inputs env !! "layout" = Some v → layout (styleOptions cfg) = v) ∧
     (∀ d, inputs env !! "layout" = None → defaults env !! "layout" = Some d →
           layout (styleOptions cfg) = d)) ∧
  (∀ s, explicit_layout options = Some s → s ≠ "" → layout (styleOptions cfg) = s).
Proof.
  intros Hb.
  destruct (buildConfigOptions_style env options cfg Hb) as (Ht & Hl & _).
  rewrite Ht, Hl. unfold getProperty.
  repeat split.
  - intros v Hv. by rewrite H, Hv.
  - intros d Hn Hd. by rewrite H, Hn, Hd.
  - intros s Hs Hne. rewrite Hs. by apply or_string_explicit.
  - intros v Hv. by rewrite H, Hv.
  - intros d Hn Hd. by rewrite H, Hn, Hd.
  - intros s Hs Hne. rewrite Hs. by apply or_string_explicit.
Qed.

Lemma buildConfigOptions_precedence_witness :
  theme (styleOptions
           {| styleOptions := {| theme := "dark"; layout := "churchill" |};
              resourceOptions := {| requestId := 10 |};
              repoOptions := Sample.repo_o_r |}) = "dark".
Proof.
  refine (proj1 (proj1 (buildConfigOptions_precedence
            (Sample.with_inputs {[ "theme" := "dark" ]} Sample.env)
            {| partial_styleOptions :=
                 Some {| partial_theme := None; partial_layout := Some "churchill" |};
               partial_resourceOptions :=
                 Some {| partial_requestId := integer 10 |};
               partial_repoOptions := None |}
            _ _) _) "dark" _); reflexivity.
Defined.

(** C6 as stated fails: an explicit theme that is the empty string does not
    win over the single-run input. *)
Lemma buildConfigOptions_precedence_counterexample :
  explicit_theme (Sample.styled_entry "" "classic" 9) = Some "" ∧
  buildConfigOptions (Sample.with_inputs {[ "theme" := "dark" ]} Sample.env)
    (Sample.styled_entry "" "classic" 9) =
    Ok {| styleOptions := {| theme := "dark"; layout := "classic" |};
          resourceOptions := {| requestId := 9 |};
          repoOptions := Sample.repo_o_r |} ∧
  ¬ (∀ cfg,
       buildConfigOptions (Sample.with_inputs {[ "theme" := "dark" ]} Sample.env)
         (Sample.styled_entry "" "classic" 9) = Ok cfg →
       theme (styleOptions cfg) = "").
Proof.
  repeat split.
  intros H. specialize (H _ eq_refl). discriminate H.
Qed.

(** C9.  An explicit theme or layout that is the empty string, and an
    explicit [requestId] that is [0] (or any number [||] takes for false),
    do not count: the entry resolves as the same entry without that field
    does.  The theme and the layout are then those of the single-run input
    or its default; the [requestId] is what [toInt] makes of the single-run
    input when there is one, else of the number of the ambient pull
    request, and it is missing when there is neither.  It is the test with
    [||] that does this: an explicit value that is truthy is the one
    resolved. *)
Theorem buildConfigOptions_falsy_explicit env options :
  let resolved (t l : string) (n : Z) : Result ConfigOptions :=
    Ok {| styleOptions := {| theme := t; layout := l |};
          resourceOptions := {| requestId := n |};
          repoOptions := context_repo (context env) |} in
  (explicit_theme options = Some "" →
   buildConfigOptions env options = buildConfigOptions env (unset_theme options) ∧
   ∀ n, requestId_candidate env options ≠ JsUndefined →
        toInt (template (requestId_candidate env options)) = Ok n →
        buildConfigOptions env options =
          resolved (getProperty env "theme")
            (or_string (explicit_layout options) (getProperty env "layout")) n) ∧
  (explicit_layout options = Some "" →
   buildConfigOptions env options = buildConfigOptions env (unset_layout options) ∧
   ∀ n, requestId_candidate env options ≠ JsUndefined →
        toInt (template (requestId_candidate env options)) = Ok n →
        buildConfigOptions env options =
          resolved (or_string (explicit_theme options) (getProperty env "theme"))
            (getProperty env "layout") n) ∧
  (∀ x, explicit_requestId options = Some x → number_falsy x = true →
   buildConfigOptions env options = buildConfigOptions env (unset_requestId options) ∧
   (∀ n, getProperty env "requestId" ≠ "" →
         toInt (getProperty env "requestId") = Ok n →
         buildConfigOptions env options =
           resolved (or_string (explicit_theme options) (getProperty env "theme"))
             (or_string (explicit_layout options) (getProperty env "layout")) n) ∧
   (∀ y n, getProperty env "requestId" = "" →
           pull_request_number (context env) = Some y →
           toInt (number_text y) = Ok n →
           buildConfigOptions env options =
             resolved (or_string (explicit_theme options) (getProperty env "theme"))
               (or_string (explicit_layout options) (getProperty env "layout")) n) ∧
   (getProperty env "requestId" = "" →
    pull_request_number (context env) = None →
    buildConfigOptions env options =
      Err (ValueError "Invalid pull request identifier: undefined"))) ∧
  (∀ t cfg, explicit_theme options = Some t → t ≠ "" →
            buildConfigOptions env options = Ok cfg → theme (styleOptions cfg) = t) ∧
  (∀ l cfg, explicit_layout options = Some l → l ≠ "" →
            buildConfigOptions env options = Ok cfg → layout (styleOptions cfg) = l) ∧
  (∀ x n, explicit_requestId options = Some x → number_falsy x = false →
          toInt (number_text x) = Ok n →
          buildConfigOptions env options =
            resolved (or_string (explicit_theme options) (getProperty env "theme"))
              (or_string (explicit_layout options) (getProperty env "layout")) n).
Proof.
  intros resolved. subst resolved. cbn beta.
  assert (Hbuild : ∀ n, requestId_candidate env options ≠ JsUndefined →
            toInt (template (requestId_candidate env options)) = Ok n →
            buildConfigOptions env options =
              Ok {| styleOptions :=
                      {| theme := or_string (explicit_theme options) (getProperty env "theme");
                         layout := or_string (explicit_layout options)
                                     (getProperty env "layout") |};
                    resourceOptions := {| requestId := n |};
                    repoOptions := context_repo (context env) |}).
  { intros n Hc Hn. by rewrite buildConfigOptions_text, Hn. }
  split; [| split; [| split; [| split; [| split]]]].
  - intros He. split.
    + destruct options as [[[t l]|] r o]; cbn in He; try discriminate.
      by subst.
    + intros n Hc Hn. rewrite (Hbuild n Hc Hn). by rewrite He.
  - intros He. split.
    + destruct options as [[[t l]|] r o]; cbn in He; try discriminate.
      by subst.
    + intros n Hc Hn. rewrite (Hbuild n Hc Hn). by rewrite He.
  - intros x He Hx.
    assert (Hs : skipped (explicit_requestId options)).
    { unfold skipped. rewrite He. simpl. by rewrite Hx. }
    split; [| split; [| split]].
    + destruct options as [s [[r]|] o]; cbn in He; try discriminate.
      subst r. unfold buildConfigOptions, requestId_candidate, js_or.
      cbn. by rewrite Hx.
    + intros n Hne Hn.
      pose proof (candidate_input env options _ Hs eq_refl Hne) as Hc.
      apply Hbuild; by rewrite Hc.
    + intros y n Hp Hy Hn.
      pose proof (candidate_ambient env options Hs Hp) as Hc. rewrite Hy in Hc.
      apply Hbuild; by rewrite Hc.
    + intros Hp Hy. apply buildConfigOptions_undefined.
      by rewrite (candidate_ambient env options Hs Hp), Hy.
  - intros t cfg He Ht Hb.
    destruct (buildConfigOptions_style _ _ _ Hb) as (-> & _).
    rewrite He. by apply or_string_explicit.
  - intros l cfg He Hl Hb.
    destruct (buildConfigOptions_style _ _ _ Hb) as (_ & -> & _).
    rewrite He. by apply or_string_explicit.
  - intros x n He Hx Hn.
    pose proof (candidate_explicit env options x He Hx) as Hc.
    apply Hbuild; by rewrite Hc.
Qed.

Lemma buildConfigOptions_falsy_explicit_witness :
  buildConfigOptions (Sample.with_inputs {[ "theme" := "dark" ]} Sample.env)
    (Sample.styled_entry "" "classic" 9) =
    Ok {| styleOptions := {| theme := "dark"; layout := "classic" |};
          resourceOptions := {| requestId := 9 |};
          repoOptions := Sample.repo_o_r |} ∧
  buildConfigOptions Sample.env (Sample.styled_entry "nightOwl" "" 9) =
    Ok {| styleOptions := {| theme := "nightOwl"; layout := "classic" |};
          resourceOptions := {| requestId := 9 |};
          repoOptions := Sample.repo_o_r |} ∧
  buildConfigOptions
    (Sample.with_pull_request 7
       (Sample.with_inputs {[ "requestId" := "3" ]} Sample.env)) (Sample.entry 0) =
    Ok {| styleOptions := {| theme := "light"; layout := "classic" |};
          resourceOptions := {| requestId := 3 |};
          repoOptions := Sample.repo_o_r |} ∧
  buildConfigOptions (Sample.with_pull_request 7 Sample.env) (Sample.entry 0) =
    Ok {| styleOptions := {| theme := "light"; layout := "classic" |};
          resourceOptions := {| requestId := 7 |};
          repoOptions := Sample.repo_o_r |} ∧
  buildConfigOptions Sample.env (Sample.entry 0) =
    Err (ValueError "Invalid pull request identifier: undefined") ∧
  buildConfigOptions
    (Sample.with_pull_request 7
       (Sample.with_inputs {[ "requestId" := "3" ]} Sample.env)) (Sample.entry 10) =
    Ok {| styleOptions := {| theme := "light"; layout := "classic" |};
          resourceOptions := {| requestId := 10 |};
          repoOptions := Sample.repo_o_r |}.
Proof.
  split; [| split; [| split; [| split; [| split]]]].
  - exact (proj2 (proj1 (buildConfigOptions_falsy_explicit
             (Sample.with_inputs {[ "theme" := "dark" ]} Sample.env)
             (Sample.styled_entry "" "classic" 9)) eq_refl) 9
             ltac:(by vm_compute) eq_refl).
  - exact (proj2 (proj1 (proj2 (buildConfigOptions_falsy_explicit
             Sample.env (Sample.styled_entry "nightOwl" "" 9))) eq_refl) 9
             ltac:(by vm_compute) eq_refl).
  - refine (proj1 (proj2 (proj1 (proj2 (proj2 (buildConfigOptions_falsy_explicit
              (Sample.with_pull_request 7
                 (Sample.with_inputs {[ "requestId" := "3" ]} Sample.env))
              (Sample.entry 0)))) _ eq_refl eq_refl)) 3 _ eq_refl).
    discriminate.
  - exact (proj1 (proj2 (proj2 (proj1 (proj2 (proj2 (buildConfigOptions_falsy_explicit
              (Sample.with_pull_request 7 Sample.env)
              (Sample.entry 0)))) _ eq_refl eq_refl)))
              _ 7 eq_refl eq_refl eq_refl).
  - exact (proj2 (proj2 (proj2 (proj1 (proj2 (proj2 (buildConfigOptions_falsy_explicit
             Sample.env (Sample.entry 0)))) _ eq_refl eq_refl)))
             eq_refl eq_refl).
  - exact (proj2 (proj2 (proj2 (proj2 (proj2 (buildConfigOptions_falsy_explicit
              (Sample.with_pull_request 7
                 (Sample.with_inputs {[ "requestId" := "3" ]} Sample.env))
              (Sample.entry 10)))))) _ 10 eq_refl eq_refl eq_refl).
Defined.

(** ** Batch Expander *)

(** C7.  A source that does not name an existing file with the [.json]
    extension expands to the one-element batch of the empty partial
    configuration; a source that names an existing [.json] file expands to
    the partial configurations parsed from that file. *)
Theorem params_expansion env (sourceData : string) :
  (files env !! sourceData = None ∨ has_extension ".json" sourceData = false →
   params env sourceData = Ok [empty_partial]) ∧
  (∀ entries,
     files env !! sourceData = Some (Structured entries) →
     has_extension ".json" sourceData = true →
     params env sourceData = Ok entries).
Proof.
  unfold params, isValidFile, getConfigOptions. split.
  - intros [Hf | He].
    + rewrite Hf. rewrite bool_decide_eq_false_2; [done |].
      by intros [x Hx].
    + rewrite He. by rewrite andb_false_r.
  - intros entries Hf He. rewrite Hf, He.
    rewrite bool_decide_eq_true_2; [done | by eexists].
Qed.

Lemma params_expansion_witness :
  params Sample.env "" = Ok [empty_partial] ∧
  params (Sample.with_files {[ "batch.yml" := Structured [Sample.entry 9] ]} Sample.env)
    "batch.yml" = Ok [empty_partial] ∧
  params (Sample.with_files
            {[ "batch.json" := Structured [Sample.styled_entry "nightOwl" "churchill" 10;
                                           Sample.entry 9] ]} Sample.env)
    "batch.json" = Ok [Sample.styled_entry "nightOwl" "churchill" 10; Sample.entry 9].
Proof.
  split; [| split].
  - apply (proj1 (params_expansion Sample.env "")). by left.
  - apply (proj1 (params_expansion _ "batch.yml")). by right.
  - apply (proj2 (params_expansion _ "batch.json")); reflexivity.
Defined.

(** ** A pipeline whose resolution fails *)

(** C10.  When the resolution of a batch entry fails with [ValueError], its
    pipeline is the thrown error and nothing else: run alone or launched in
    a batch, it leaves the host, the trace of issued calls and the log as
    they were, so no comment is listed, created or updated for it. *)
Theorem getOperationStatus_invalid_no_call env option (message : string) :
  buildConfigOptions env option = Err (ValueError message) →
  getOperationStatus env option = Throw (ValueError message) ∧
  (∀ w, exec (getOperationStatus env option) w = (Err (ValueError message), w)) ∧
  (∀ pool,
     launch pool (getOperationStatus env option) =
       {| tasks := tasks pool ++ [Settled (Err (ValueError message))];
          world := world pool;
          rejected := rejected pool ++ [ValueError message] |}).
Proof.
  intros Hb. unfold getOperationStatus. rewrite Hb. by repeat split.
Qed.

Lemma getOperationStatus_invalid_no_call_witness :
  exec (getOperationStatus Sample.env (Sample.entry 0)) (fresh_world Sample.busy_host) =
    (Err (ValueError "Invalid pull request identifier: undefined"),
     fresh_world Sample.busy_host).
Proof.
  exact (proj1 (proj2 (getOperationStatus_invalid_no_call
           Sample.env (Sample.entry 0) "Invalid pull request identifier: undefined"
           eq_refl)) (fresh_world Sample.busy_host)).
Defined.

(** ** Running programs *)

Lemma exec_bind {A B} (m : Prog A) (f : A → Prog B) (w : World) :
  exec (bind m f) w =
    match exec m w with
    | (Ok a, w') => exec (f a) w'
    | (Err e, w') => (Err e, w')
    end.
Proof.
  revert w. induction m as [a | e | entry k IH | c k IH]; intros w; simpl.
  - reflexivity.
  - reflexivity.
  - apply IH.
  - destruct (answer c (issue c w)) as [r w']. apply IH.
Qed.

Lemma exec_try_catch {A} (m : Prog A) (handler : Error → Prog A) (w : World) :
  exec (try_catch m handler) w =
    match exec m w with
    | (Ok a, w') => (Ok a, w')
    | (Err e, w') => exec (handler e) w'
    end.
Proof.
  revert w. induction m as [a | e | entry k IH | c k IH]; intros w; simpl.
  - reflexivity.
  - reflexivity.
  - apply IH.
  - destruct (answer c (issue c w)) as [r w']. apply IH.
Qed.

Lemma exec_await (c : ApiCall) (w : World) :
  exec (await c) w =
    match answer c (issue c w) with
    | (Ok x, w') => (Ok x, w')
    | (Err e, w') => (Err e, w')
    end.
Proof.
  simpl. destruct (answer c (issue c w)) as [[x | e] w']; reflexivity.
Qed.

(** The answer of the host changes the host only. *)
Lemma answer_trace (c : ApiCall) (w : World) :
  trace (answer c w).2 = trace w ∧ log (answer c w).2 = log w.
Proof.
  unfold answer. by destruct (serve (host w) c).
Qed.

Lemma answer_host (c : ApiCall) (w : World) :
  answer c w = ((serve (host w) c).1, set_host (serve (host w) c).2 w).
Proof.
  unfold answer. by destruct (serve (host w) c).
Qed.

(** ** The locator on a list of comments *)

Lemma pick_comment_id_head (cs : list Comment) :
  pick_comment_id cs = comment_id <$> head (filter by_bot cs).
Proof.
  unfold pick_comment_id, by_bot.
  destruct (filter _ cs) as [| c rest]; [reflexivity |].
  rewrite bool_decide_eq_true_2; [reflexivity | simpl; lia].
Qed.

Lemma filter_none_by_bot (cs : list Comment) :
  Forall (λ c, ¬ by_bot c) cs → filter by_bot cs = [].
Proof.
  induction 1 as [| c cs Hc _ IH]; [reflexivity |].
  by rewrite filter_cons_False.
Qed.

Lemma pick_comment_id_first (pre post : list Comment) (c : Comment) :
  Forall (λ x, ¬ by_bot x) pre → by_bot c →
  pick_comment_id (pre ++ c :: post) = Some (comment_id c).
Proof.
  intros Hpre Hc. rewrite pick_comment_id_head, filter_app.
  rewrite (filter_none_by_bot pre Hpre). simpl.
  by rewrite filter_cons_True.
Qed.

Lemma pick_comment_id_none (cs : list Comment) :
  Forall (λ x, ¬ by_bot x) cs → pick_comment_id cs = None.
Proof.
  intros H. rewrite pick_comment_id_head. by rewrite (filter_none_by_bot cs H).
Qed.

(** What the locator returns is the identifier of a listed bot comment. *)
Lemma pick_comment_id_Some (cs : list Comment) (id : Z) :
  pick_comment_id cs = Some id →
  ∃ c, c ∈ cs ∧ by_bot c ∧ comment_id c = id ∧ head (filter by_bot cs) = Some c.
Proof.
  rewrite pick_comment_id_head.
  destruct (head (filter by_bot cs)) as [c |] eqn:Hh; [| discriminate].
  intros [= <-]. exists c.
  assert (Hin : c ∈ filter by_bot cs) by (by apply head_Some_elem_of).
  apply list_elem_of_filter in Hin as [Hb Hin]. done.
Qed.

Lemma exec_getCommentId (options : PayloadOptions) (w : World) :
  exec (getCommentId options) w =
    match answer (list_call options) (issue (list_call options) w) with
    | (Ok cs, w') => (Ok (pick_comment_id cs), w')
    | (Err e, w') => (Err e, w')
    end.
Proof.
  unfold getCommentId, list_call. simpl.
  by destruct (answer _ _) as [[cs | e] w'].
Qed.

Lemma exec_replaceComment (options : PayloadOptions) (w : World) :
  exec (replaceComment options) w =
    match answer (list_call options) (issue (list_call options) w) with
    | (Ok cs, w1) =>
        let c := write_call options (pick_comment_id cs) in
        match answer c (issue c w1) with
        | (Ok _, w2) => (Ok tt, w2)
        | (Err e, w2) => (Err e, w2)
        end
    | (Err e, w1) => (Err e, w1)
    end.
Proof.
  unfold replaceComment. rewrite exec_bind, exec_getCommentId.
  destruct (answer (list_call options) _) as [[cs | e] w1]; [| reflexivity].
  rewrite exec_bind, exec_await.
  by destruct (answer (write_call _ _) _) as [[x | e] w2].
Qed.

Lemma exec_processComment env (options : ConfigOptions) (w : World) :
  exec (processComment env options) w =
    match exec (replaceComment (comment_payload env options)) w with
    | (Ok a, w') => (Ok a, w')
    | (Err e, w') => (Err e, write_log (CannotProcess options) w')
    end.
Proof.
  unfold processComment. rewrite exec_try_catch.
  by destruct (exec (replaceComment _) w) as [[a | e] w'].
Qed.

(** A located identifier that is not [0] selects the update. *)
Lemma write_call_located (options : PayloadOptions) (id : Z) :
  id ≠ 0 →
  write_call options (Some id) =
    UpdateComment (payload_repoOptions options) id (message (commentOptions options)).
Proof.
  intros Hid. unfold write_call.
  by rewrite (proj2 (Z.eqb_neq id 0) Hid).
Qed.

Lemma write_call_text (options : PayloadOptions) (commentId : option Z) :
  is_write (write_call options commentId) = true ∧
  call_text (write_call options commentId) = Some (message (commentOptions options)).
Proof.
  unfold write_call. destruct commentId as [id |]; [| done].
  by destruct (negb (Z.eqb id 0)).
Qed.

(** The choice is by the truthiness of [commentId]: an identifier [0], which
    a well-kept host never hands out, would select the creation. *)
Example write_call_zero (options : PayloadOptions) :
  write_call options (Some 0) =
    CreateComment (payload_repoOptions options)
      (requestId (payload_resourceOptions options)) (message (commentOptions options)).
Proof. reflexivity. Qed.

(** ** Pools of pipelines *)

(** A program run alone is the program started and then given its answers. *)
Lemma start_exec (m : Prog unit) (w : World) :
  exec m w =
    match start m w with
    | (Settled r, w') => (r, w')
    | (Pending c k, w') => let (r, w1) := answer c w' in exec (k r) w1
    end.
Proof.
  revert w. induction m as [a | e | entry k IH | c k IH]; intros w; simpl.
  - by destruct a.
  - reflexivity.
  - apply IH.
  - reflexivity.
Qed.

Lemma complete_idle (pool : Pool) (j : nat) : idle pool j → complete pool j = pool.
Proof.
  unfold idle, complete. intros H.
  destruct (tasks pool !! j) as [[c k | r] |]; [| reflexivity | reflexivity].
  by destruct (H c k).
Qed.

Lemma deliver_idle (pool : Pool) (j : nat) : idle pool j → deliver pool j = pool.
Proof.
  unfold idle, deliver. intros H.
  destruct (tasks pool !! j) as [[c k | r] |]; [| reflexivity | reflexivity].
  by destruct (H c k).
Qed.

Lemma complete_length (pool : Pool) (i : nat) :
  length (tasks (complete pool i)) = length (tasks pool).
Proof.
  unfold complete.
  destruct (tasks pool !! i) as [[c k | r] |]; [| reflexivity | reflexivity].
  destruct (answer c (world pool)) as [r w].
  destruct (exec (k r) w) as [r2 w2]. simpl. apply length_insert.
Qed.

Lemma deliver_length (pool : Pool) (i : nat) :
  length (tasks (deliver pool i)) = length (tasks pool).
Proof.
  unfold deliver.
  destruct (tasks pool !! i) as [[c k | r] |]; [| reflexivity | reflexivity].
  destruct (answer c (world pool)) as [r w].
  destruct (start (k r) w) as [t w2]. simpl. apply length_insert.
Qed.

Lemma complete_lookup_ne (pool : Pool) (i j : nat) :
  j ≠ i → tasks (complete pool i) !! j = tasks pool !! j.
Proof.
  intros Hne. unfold complete.
  destruct (tasks pool !! i) as [[c k | r] |]; [| reflexivity | reflexivity].
  destruct (answer c (world pool)) as [r w].
  destruct (exec (k r) w) as [r2 w2]. simpl.
  by apply list_lookup_insert_ne.
Qed.

Lemma deliver_lookup_ne (pool : Pool) (i j : nat) :
  j ≠ i → tasks (deliver pool i) !! j = tasks pool !! j.
Proof.
  intros Hne. unfold deliver.
  destruct (tasks pool !! i) as [[c k | r] |]; [| reflexivity | reflexivity].
  destruct (answer c (world pool)) as [r w].
  destruct (start (k r) w) as [t w2]. simpl.
  by apply list_lookup_insert_ne.
Qed.

(** Once completed, a task is settled. *)
Lemma complete_lookup_eq (pool : Pool) (i : nat) (t : Task) :
  tasks (complete pool i) !! i = Some t → settled t = true.
Proof.
  unfold complete.
  destruct (tasks pool !! i) as [[c k | r] |] eqn:Hi.
  - destruct (answer c (world pool)) as [r w].
    destruct (exec (k r) w) as [r2 w2]. simpl.
    rewrite list_lookup_insert_eq by (by eapply lookup_lt_Some).
    by intros [= <-].
  - rewrite Hi. by intros [= <-].
  - rewrite Hi. discriminate.
Qed.

Lemma foldl_complete_idle (l : list nat) (pool : Pool) :
  (∀ j, j ∈ l → idle pool j) → foldl complete pool l = pool.
Proof.
  induction l as [| j l IH]; intros H; simpl; [reflexivity |].
  rewrite complete_idle by (apply H; left).
  apply IH. intros j' Hj'. apply H. by right.
Qed.

(** Draining a pool in which only task [i] may be waiting completes [i]. *)
Lemma drain_solo (pool : Pool) (i : nat) :
  solo i pool → (i < length (tasks pool))%nat → drain pool = complete pool i.
Proof.
  intros Hsolo Hi. unfold drain.
  replace (length (tasks pool)) with (i + S (length (tasks pool) - S i))%nat by lia.
  rewrite seq_app, foldl_app. simpl.
  rewrite (foldl_complete_idle (seq 0 i) pool).
  - apply foldl_complete_idle. intros j Hj c k.
    apply elem_of_seq in Hj.
    rewrite complete_lookup_ne by lia. apply Hsolo. lia.
  - intros j Hj. apply elem_of_seq in Hj. apply Hsolo. lia.
Qed.

(** An answer delivered early is an answer the completion need not wait for. *)
Lemma complete_deliver (pool : Pool) (i : nat) :
  complete (deliver pool i) i = complete pool i.
Proof.
  unfold deliver at 1.
  destruct (tasks pool !! i) as [[c k | r0] |] eqn:Hi; [| reflexivity | reflexivity].
  assert (Hlt : (i < length (tasks pool))%nat) by (by eapply lookup_lt_Some).
  unfold complete at 2. rewrite Hi.
  destruct (answer c (world pool)) as [r w].
  rewrite (start_exec (k r) w).
  destruct (start (k r) w) as [[c2 k2 | r2] w2]; unfold complete; simpl;
    rewrite list_lookup_insert_eq by done.
  - destruct (answer c2 w2) as [r3 w3].
    destruct (exec (k2 r3) w3) as [r4 w4].
    by rewrite list_insert_insert_eq, app_nil_r.
  - reflexivity.
Qed.

Lemma deliver_solo (pool : Pool) (i j : nat) : solo i pool → solo i (deliver pool j).
Proof.
  intros Hsolo j' Hne c k.
  destruct (decide (j = i)) as [-> | Hji].
  - rewrite deliver_lookup_ne by done. by apply Hsolo.
  - rewrite deliver_idle by (by apply Hsolo). by apply Hsolo.
Qed.

(** With a single pipeline in flight the schedule does not matter. *)
Lemma drain_deliver_solo (schedule : list nat) (pool : Pool) (i : nat) :
  solo i pool → (i < length (tasks pool))%nat →
  drain (foldl deliver pool schedule) = complete pool i.
Proof.
  revert pool. induction schedule as [| j schedule IH]; intros pool Hsolo Hi; simpl.
  - by apply drain_solo.
  - rewrite IH.
    + destruct (decide (j = i)) as [-> | Hji].
      * apply complete_deliver.
      * by rewrite deliver_idle by (by apply Hsolo).
    + by apply deliver_solo.
    + by rewrite deliver_length.
Qed.

(** Completing a task that was launched from [m] gives what [m] gives when
    it is run alone from the world of its launch. *)
Lemma complete_launched (pre post : list Task) (rej : list Error)
    (m : Prog unit) (w : World) :
  settled (start m w).1 = false →
  complete {| tasks := pre ++ (start m w).1 :: post;
              world := (start m w).2; rejected := rej |} (length pre) =
    {| tasks := pre ++ Settled (exec m w).1 :: post;
       world := (exec m w).2;
       rejected := rej ++ rejection (Settled (exec m w).1) |}.
Proof.
  intros Hs. rewrite (start_exec m w).
  destruct (start m w) as [[c k | r] w1]; [| discriminate]. simpl.
  unfold complete. simpl. rewrite list_lookup_middle by done.
  destruct (answer c w1) as [r w2].
  destruct (exec (k r) w2) as [r2 w3]. simpl.
  rewrite insert_app_r_alt by done. by rewrite Nat.sub_diag.
Qed.

(** Every task of a drained pool is settled: the event loop leaves no
    promise pending. *)
Lemma foldl_complete_settled (l : list nat) (pool : Pool) (i : nat) (t : Task) :
  i ∈ l → tasks (foldl complete pool l) !! i = Some t → settled t = true.
Proof.
  revert pool. induction l as [| j l IH]; intros pool Hin; [by inversion Hin |].
  simpl. destruct (decide (i ∈ l)) as [Hl | Hl]; [by apply IH |].
  assert (j = i) as -> by (inversion Hin; by subst).
  assert (Hkeep : ∀ (l' : list nat) pool',
             i ∉ l' → tasks (foldl complete pool' l') !! i = tasks pool' !! i).
  { induction l' as [| j' l' IH']; intros pool' Hn; [reflexivity |].
    simpl. rewrite IH' by (intros ?; apply Hn; by right).
    apply complete_lookup_ne. intros ->. apply Hn. left. }
  rewrite Hkeep by done. apply complete_lookup_eq.
Qed.

Lemma foldl_complete_length (l : list nat) (pool : Pool) :
  length (tasks (foldl complete pool l)) = length (tasks pool).
Proof.
  revert pool. induction l as [| j l IH]; intros pool; [reflexivity |].
  simpl. by rewrite IH, complete_length.
Qed.

Lemma drain_settled (pool : Pool) : Forall (λ t, settled t = true) (tasks (drain pool)).
Proof.
  apply Forall_lookup. intros i t Hi. unfold drain in *.
  eapply foldl_complete_settled; [| exact Hi].
  apply elem_of_seq. apply lookup_lt_Some in Hi.
  rewrite foldl_complete_length in Hi. lia.
Qed.

(** Whatever the batch and the schedule, [executeOperation] ends with every
    pipeline settled. *)
Lemma run_pool_settled (schedule : list nat) (ms : list (Prog unit)) (w : World) :
  Forall (λ t, settled t = true) (tasks (run_pool schedule ms w)).
Proof. apply drain_settled. Qed.

(** A resolved pipeline starts by listing the comments of its target. *)
Lemma start_processComment env (options : ConfigOptions) (w : World) :
  settled (start (processComment env options) w).1 = false ∧
  (start (processComment env options) w).2 =
    issue (list_call (comment_payload env options)) w.
Proof. by split. Qed.

(** A batch of one entry runs as its pipeline runs alone. *)
Lemma run_pool_single (schedule : list nat) (m : Prog unit) (w : World) :
  run_pool schedule [m] w =
    {| tasks := [Settled (exec m w).1]; world := (exec m w).2;
       rejected := rejection (Settled (exec m w).1) |}.
Proof.
  unfold run_pool. simpl. unfold launch. simpl.
  rewrite (drain_deliver_solo schedule _ 0).
  - destruct (settled (start m w).1) eqn:Hs.
    + rewrite complete_idle.
      * rewrite (start_exec m w).
        by destruct (start m w) as [[c k | r] w1].
      * intros c k. destruct (start m w) as [[c' k' | r] w1]; by simpl.
    + pose proof (complete_launched [] [] [] m w Hs) as H.
      simpl in H. rewrite <- H.
      destruct (start m w) as [[c k | r] w1]; [by simpl | discriminate].
  - intros j Hj c k. destruct (start m w) as [t w1]. simpl.
    destruct j; [done | by simpl].
  - destruct (start m w) as [t w1]. simpl. lia.
Qed.

Lemma executeOperation_single env (schedule : list nat)
    (option : PartialConfigOptions) (w : World) :
  executeOperation env schedule [option] w = exec (getOperationStatus env option) w.
Proof.
  unfold executeOperation, executeOperation_pool. simpl.
  rewrite run_pool_single. unfold outcome. simpl.
  by destruct (exec (getOperationStatus env option) w) as [[[] | e] w'].
Qed.

(** A pipeline that throws at once and one that awaits, in either order:
    the second runs as if it were alone, and the batch is rejected with the
    error of the first. *)
Lemma run_pool_throw_first (schedule : list nat) (e : Error) (m : Prog unit) (w : World) :
  settled (start m w).1 = false →
  run_pool schedule [Throw e; m] w =
    {| tasks := [Settled (Err e); Settled (exec m w).1]; world := (exec m w).2;
       rejected := e :: rejection (Settled (exec m w).1) |}.
Proof.
  intros Hs. unfold run_pool. simpl. unfold launch. simpl.
  rewrite (drain_deliver_solo schedule _ 1).
  - pose proof (complete_launched [Settled (Err e)] [] [e] m w Hs) as H.
    simpl in H. rewrite <- H.
    destruct (start m w) as [[c k | r] w1]; [by simpl | discriminate].
  - intros j Hj c k. destruct (start m w) as [t w1]. simpl.
    destruct j as [| [| j]]; done.
  - destruct (start m w) as [t w1]. simpl. lia.
Qed.

Lemma run_pool_throw_second (schedule : list nat) (e : Error) (m : Prog unit) (w : World) :
  settled (start m w).1 = false →
  run_pool schedule [m; Throw e] w =
    {| tasks := [Settled (exec m w).1; Settled (Err e)]; world := (exec m w).2;
       rejected := e :: rejection (Settled (exec m w).1) |}.
Proof.
  intros Hs. unfold run_pool. simpl. unfold launch. simpl.
  rewrite (drain_deliver_solo schedule _ 0).
  - pose proof (complete_launched [] [Settled (Err e)] [e] m w Hs) as H.
    simpl in H. rewrite <- H.
    destruct (start m w) as [[c k | r] w1]; [by simpl | discriminate].
  - intros j Hj c k. destruct (start m w) as [t w1]. simpl.
    destruct j as [| [| j]]; done.
  - destruct (start m w) as [t w1]. simpl. lia.
Qed.

(** ** The host *)

Lemma set_host_same (w : World) : set_host (host w) w = w.
Proof. by destruct w. Qed.

Lemma answer_list (r : RepoOptions) (n : Z) (w : World) :
  n ∈ issues (host w) →
  answer (ListComments r n) w = (Ok (listed n (host w)), w).
Proof.
  intros Hn. rewrite answer_host. simpl.
  rewrite bool_decide_eq_true_2 by done. simpl.
  by rewrite set_host_same.
Qed.

Lemma thread_elem_of (n : Z) (h : Host) (c : Comment) :
  c ∈ thread n h ↔ issue_number c = n ∧ c ∈ comments h.
Proof. unfold thread. by rewrite list_elem_of_filter. Qed.

(** What is listed is on the thread. *)
Lemma listed_elem_of (n : Z) (h : Host) (c : Comment) :
  c ∈ listed n h → issue_number c = n ∧ c ∈ comments h.
Proof.
  unfold listed. intros Hc. apply thread_elem_of.
  rewrite <- (take_drop per_page (thread n h)). apply elem_of_app. by left.
Qed.

Lemma bot_comments_elem_of (n : Z) (h : Host) (c : Comment) :
  c ∈ bot_comments n h ↔ by_bot c ∧ issue_number c = n ∧ c ∈ comments h.
Proof.
  unfold bot_comments. rewrite list_elem_of_filter. by rewrite thread_elem_of.
Qed.

(** A thread that ends on the first page is listed whole. *)
Lemma listed_short (n : Z) (h : Host) :
  (length (thread n h) ≤ per_page)%nat → listed n h = thread n h.
Proof. intros Hl. unfold listed. by apply take_ge. Qed.

(** The first comment of the bot among those listed is its first comment on
    the thread, when the locator has the thread in view. *)
Lemma head_bot_listed (n : Z) (h : Host) :
  in_view n h → head (filter by_bot (listed n h)) = head (bot_comments n h).
Proof.
  intros [Hb | Hl].
  - unfold bot_comments. rewrite <- (take_drop per_page (thread n h)).
    fold (listed n h). rewrite filter_app.
    apply Exists_exists in Hb as (c & Hc & Hbot).
    assert (Hin : c ∈ filter by_bot (listed n h)) by (by apply list_elem_of_filter).
    destruct (filter by_bot (listed n h)); [by inversion Hin | reflexivity].
  - rewrite listed_short by lia. reflexivity.
Qed.

Lemma pick_comment_id_in_view (n : Z) (h : Host) :
  in_view n h →
  pick_comment_id (listed n h) = comment_id <$> head (bot_comments n h).
Proof. intros Hv. by rewrite pick_comment_id_head, head_bot_listed. Qed.

Lemma host_ok_id (h : Host) (c : Comment) :
  host_ok h → c ∈ comments h → comment_id c ≠ 0.
Proof.
  intros [_ Hall] Hc. rewrite Forall_forall in Hall.
  specialize (Hall c Hc). lia.
Qed.

(** On a well-kept host the locator's answer selects the update. *)
Lemma write_call_host_ok (options : PayloadOptions) (h : Host) (n : Z) :
  host_ok h →
  write_call options (pick_comment_id (listed n h)) =
    match pick_comment_id (listed n h) with
    | Some id =>
        UpdateComment (payload_repoOptions options) id (message (commentOptions options))
    | None =>
        CreateComment (payload_repoOptions options)
          (requestId (payload_resourceOptions options)) (message (commentOptions options))
    end.
Proof.
  intros Hok. destruct (pick_comment_id (listed n h)) as [id |] eqn:Hp; [| reflexivity].
  apply write_call_located.
  apply pick_comment_id_Some in Hp as (c & Hc & _ & <- & _).
  apply listed_elem_of in Hc as [_ Hc]. by eapply host_ok_id.
Qed.

(** The invariant of the host survives every call. *)
Lemma serve_host_ok (h : Host) (c : ApiCall) : host_ok h → host_ok (serve h c).2.
Proof.
  intros [Hnext Hall]. destruct c as [r n | r id text | r n text]; simpl.
  - by destruct (bool_decide _).
  - destruct (filter _ (comments h)); [done |]. split; [done |]. simpl.
    apply Forall_fmap. eapply Forall_impl; [exact Hall |].
    intros x Hx. unfold edit. simpl. by destruct (bool_decide _).
  - destruct (bool_decide _); [| done]. split; simpl; [lia |].
    apply Forall_app. split.
    + eapply Forall_impl; [exact Hall |]. intros x Hx. simpl in Hx. lia.
    + apply Forall_singleton. simpl. lia.
Qed.

Lemma serve_frame (h : Host) (c : ApiCall) :
  issues (serve h c).2 = issues h ∧ viewer (serve h c).2 = viewer h.
Proof.
  destruct c as [r n | r id text | r n text]; simpl.
  - by destruct (bool_decide _).
  - by destruct (filter _ (comments h)).
  - by destruct (bool_decide _).
Qed.

(** An edit changes bodies only, so it commutes with the choice of the
    comments of an issue and of an author. *)
Lemma filter_edit (P : Comment → Prop) `{∀ x, Decision (P x)}
    (id : Z) (text : string) (l : list Comment) :
  (∀ x, P (edit id text x) ↔ P x) →
  filter P (edit id text <$> l) = edit id text <$> filter P l.
Proof.
  intros HP. induction l as [| x l IH]; [reflexivity |].
  rewrite fmap_cons. destruct (decide (P x)) as [Hx | Hx].
  - rewrite (filter_cons_True P x l Hx).
    rewrite filter_cons_True by (by apply HP).
    by rewrite fmap_cons, IH.
  - rewrite (filter_cons_False P x l Hx).
    rewrite filter_cons_False by (by rewrite HP).
    exact IH.
Qed.

Lemma edit_frame (id : Z) (text : string) (x : Comment) :
  issue_number (edit id text x) = issue_number x ∧
  user_login (edit id text x) = user_login x ∧
  comment_id (edit id text x) = comment_id x.
Proof. unfold edit. by destruct (bool_decide _). Qed.

Lemma bot_comments_edit (n id : Z) (text : string) (h : Host) :
  filter by_bot (filter (λ x, issue_number x = n) (edit id text <$> comments h)) =
    edit id text <$> bot_comments n h.
Proof.
  unfold bot_comments, thread.
  rewrite filter_edit.
  - rewrite filter_edit; [reflexivity |].
    intros x. unfold by_bot. by rewrite (proj1 (proj2 (edit_frame id text x))).
  - intros x. by rewrite (proj1 (edit_frame id text x)).
Qed.

Lemma thread_edit (n id : Z) (text : string) (l : list Comment) :
  filter (λ x, issue_number x = n) (edit id text <$> l) =
    edit id text <$> filter (λ x, issue_number x = n) l.
Proof.
  apply filter_edit. intros x. by rewrite (proj1 (edit_frame id text x)).
Qed.

(** A new comment on issue [n] goes to the end of its thread. *)
Lemma thread_snoc (n : Z) (ns : list Z) (cs : list Comment) (x : Comment)
    (next : Z) (v : string) :
  issue_number x = n →
  thread n {| issues := ns; comments := cs ++ [x]; next_comment_id := next;
              viewer := v |} =
    filter (λ c, issue_number c = n) cs ++ [x].
Proof.
  intros Hx. unfold thread. cbn [comments]. rewrite filter_app.
  by rewrite (filter_cons_True (λ c, issue_number c = n)), filter_nil.
Qed.

Lemma bot_comments_head (n : Z) (h : Host) (c : Comment) :
  head (bot_comments n h) = Some c → ∃ rest, bot_comments n h = c :: rest.
Proof.
  destruct (bot_comments n h) as [| x l]; simpl; [discriminate |].
  intros [= ->]. by exists l.
Qed.

(** The write of one pipeline, served: on a host that has the target and
    authors as the bot, with the thread of the target in view, the write
    succeeds; the first comment of the bot on the target then has the new
    body, and it is the comment that was first before, when there was one,
    and the only one, when there was none.  It is on the first page. *)
Lemma serve_write_call (options : PayloadOptions) (h : Host) :
  let n := requestId (payload_resourceOptions options) in
  let c := write_call options (pick_comment_id (listed n h)) in
  host_ok h → n ∈ issues h → viewer h = bot_login → in_view n h →
  is_Ok (serve h c).1 = true ∧
  Exists by_bot (listed n (serve h c).2) ∧
  ∃ x rest,
    bot_comments n (serve h c).2 = x :: rest ∧
    body x = message (commentOptions options) ∧
    length rest = (length (bot_comments n h) - 1)%nat ∧
    c = match bot_comments n h with
        | c0 :: _ =>
            UpdateComment (payload_repoOptions options) (comment_id c0)
              (message (commentOptions options))
        | [] =>
            CreateComment (payload_repoOptions options) n
              (message (commentOptions options))
        end ∧
    (∀ c0 l, bot_comments n h = c0 :: l → comment_id x = comment_id c0).
Proof.
  intros n c Hok Hn Hv Hview. subst c.
  rewrite (write_call_host_ok options h n Hok).
  pose proof (head_bot_listed n h Hview) as Hhead.
  rewrite pick_comment_id_head, Hhead.
  destruct (head (bot_comments n h)) as [c0 |] eqn:Hh.
  - destruct (bot_comments_head n h c0 Hh) as [l Hb].
    assert (Hin : c0 ∈ comments h).
    { assert (H0 : c0 ∈ bot_comments n h) by (rewrite Hb; left).
      by apply bot_comments_elem_of in H0 as (_ & _ & H0). }
    rewrite Hb. cbn [fmap option_fmap option_map serve].
    destruct (filter (λ x, comment_id x = comment_id c0) (comments h)) as [| y l'] eqn:Hf.
    + assert (H0 : c0 ∈ filter (λ x, comment_id x = comment_id c0) (comments h))
        by (by apply list_elem_of_filter).
      rewrite Hf in H0. by inversion H0.
    + split; [reflexivity |]. cbn [snd]. split.
      * unfold listed, thread. cbn [comments].
        rewrite thread_edit. fold (thread n h). rewrite <- fmap_take. fold (listed n h).
        apply Exists_fmap.
        destruct (filter by_bot (listed n h)) as [| b0 l0] eqn:Hfl; [discriminate Hhead |].
        assert (Hb0 : b0 ∈ filter by_bot (listed n h)) by (rewrite Hfl; left).
        apply list_elem_of_filter in Hb0 as [Hbot Hb0].
        apply Exists_exists. exists b0. split; [exact Hb0 |].
        unfold by_bot. simpl. by rewrite (proj1 (proj2 (edit_frame _ _ b0))).
      * exists (edit (comment_id c0) (message (commentOptions options)) c0),
               (edit (comment_id c0) (message (commentOptions options)) <$> l).
        split; [| split; [| split; [| split]]].
        -- unfold bot_comments at 1, thread at 1. cbn [comments].
           by rewrite bot_comments_edit, Hb.
        -- unfold edit. by rewrite bool_decide_eq_true_2.
        -- rewrite length_fmap. simpl. lia.
        -- reflexivity.
        -- intros c1 l1 [= <- _]. apply edit_frame.
  - assert (Hb : bot_comments n h = []) by (by destruct (bot_comments n h)).
    assert (Hshort : (length (thread n h) < per_page)%nat).
    { destruct Hview as [Hex | Hl]; [| exact Hl].
      apply Exists_exists in Hex as (b0 & Hb0 & Hbot).
      assert (H0 : b0 ∈ filter by_bot (listed n h)) by (by apply list_elem_of_filter).
      destruct (filter by_bot (listed n h)); [by inversion H0 | discriminate Hhead]. }
    rewrite Hb. cbn [fmap option_fmap option_map serve].
    rewrite bool_decide_eq_true_2 by done. split; [reflexivity |]. cbn [snd].
    split.
    + rewrite listed_short
        by (rewrite thread_snoc, length_app by done; fold (thread n h);
            cbn [length]; lia).
      rewrite thread_snoc by done. apply Exists_app. right. by apply Exists_cons_hd.
    + eexists _, []. split; [| split; [| split; [| split]]].
      * unfold bot_comments at 1. rewrite thread_snoc, filter_app by done.
        fold (thread n h). fold (bot_comments n h). rewrite Hb.
        rewrite (filter_cons_True by_bot) by done.
        by rewrite filter_nil.
      * reflexivity.
      * reflexivity.
      * reflexivity.
      * intros c0 l. discriminate.
Qed.

Lemma quiet_host_ok : host_ok Sample.quiet_host.
Proof. split; [reflexivity | constructor]. Defined.

Lemma update_host_ok : host_ok Sample.update_host.
Proof. split; [reflexivity |]. by repeat constructor. Defined.

Lemma busy_host_ok : host_ok Sample.busy_host.
Proof. split; [reflexivity |]. by repeat constructor. Defined.

(** ** One pipeline on a well-kept host *)

Lemma host_issue (c : ApiCall) (w : World) : host (issue c w) = host w.
Proof. reflexivity. Qed.

Lemma pipeline_once env (option : PartialConfigOptions) (cfg : ConfigOptions)
    (w : World) :
  let n := requestId (resourceOptions cfg) in
  let options := comment_payload env cfg in
  let w' := (exec (getOperationStatus env option) w).2 in
  buildConfigOptions env option = Ok cfg →
  host_ok (host w) → n ∈ issues (host w) → viewer (host w) = bot_login →
  in_view n (host w) →
  (exec (getOperationStatus env option) w).1 = Ok tt ∧
  in_view n (host w') ∧
  host_ok (host w') ∧
  issues (host w') = issues (host w) ∧
  viewer (host w') = viewer (host w) ∧
  log w' = log w ∧
  ∃ x rest,
    bot_comments n (host w') = x :: rest ∧
    body x = comment_message env cfg ∧
    length rest = (length (bot_comments n (host w)) - 1)%nat ∧
    trace w' = trace w ++
      [list_call options;
       match bot_comments n (host w) with
       | c0 :: _ =>
           UpdateComment (repoOptions cfg) (comment_id c0) (comment_message env cfg)
       | [] => CreateComment (repoOptions cfg) n (comment_message env cfg)
       end] ∧
    (∀ c0 l, bot_comments n (host w) = c0 :: l → comment_id x = comment_id c0).
Proof.
  intros n options w' Hb Hok Hn Hv Hview. subst w'.
  destruct (serve_write_call options (host w) Hok Hn Hv Hview)
    as (Hs & Hsee & x & rest & Hx & Hbody & Hrest & Hc & Hid).
  change (requestId (payload_resourceOptions options))
    with n in Hs, Hsee, Hx, Hrest, Hc, Hid.
  pose proof (serve_host_ok (host w)
                (write_call options (pick_comment_id (listed n (host w)))) Hok) as Hok'.
  pose proof (serve_frame (host w)
                (write_call options (pick_comment_id (listed n (host w))))) as [Hi' Hv'].
  revert Hs Hsee Hx Hok' Hi' Hv'.
  set (c := write_call options (pick_comment_id (listed n (host w)))) in *.
  intros Hs Hsee Hx Hok' Hi' Hv'.
  assert (Hex : exec (getOperationStatus env option) w =
                (Ok tt, set_host (serve (host w) c).2
                          (issue c (issue (list_call options) w)))).
  { unfold getOperationStatus. rewrite Hb.
    rewrite exec_processComment, exec_replaceComment. fold options.
    unfold list_call at 1 2. rewrite answer_list by done. cbn zeta.
    change (requestId (payload_resourceOptions options)) with n.
    rewrite answer_host, !host_issue. fold c.
    destruct (serve (host w) c) as [[y | e] h']; [reflexivity | discriminate Hs]. }
  rewrite Hex. cbn [fst snd set_host host trace log issue].
  split; [reflexivity |]. split; [by left |]. split; [exact Hok' |].
  split; [exact Hi' |]. split; [exact Hv' |]. split; [reflexivity |].
  exists x, rest. split; [exact Hx |]. split; [exact Hbody |].
  split; [exact Hrest |]. split; [| exact Hid].
  rewrite <- app_assoc. cbn [app]. do 3 f_equal. exact Hc.
Qed.

(** ** Comment Locator *)

(** C3.  Whatever list of comments the host returns for the target,
    [getCommentId] returns the identifier of the first comment of the list
    whose author is [github-actions[bot]], and no identifier when the list
    has no such comment.  For a list by alice, the bot and the bot again, it
    is the identifier of the second element. *)
Theorem getCommentId_first_bot (options : PayloadOptions) (w w' : World)
    (cs : list Comment) :
  answer (list_call options) (issue (list_call options) w) = (Ok cs, w') →
  (∀ pre c post,
     cs = pre ++ c :: post →
     Forall (λ x, user_login x ≠ "github-actions[bot]") pre →
     user_login c = "github-actions[bot]" →
     exec (getCommentId options) w = (Ok (Some (comment_id c)), w')) ∧
  (Forall (λ x, user_login x ≠ "github-actions[bot]") cs →
   exec (getCommentId options) w = (Ok None, w')) ∧
  (∀ a b c,
     cs = [a; b; c] →
     user_login a = "alice" →
     user_login b = "github-actions[bot]" →
     user_login c = "github-actions[bot]" →
     exec (getCommentId options) w = (Ok (Some (comment_id b)), w')).
Proof.
  intros Ha. rewrite exec_getCommentId, Ha. repeat split.
  - intros pre c post -> Hpre Hc. by rewrite pick_comment_id_first.
  - intros Hcs. by rewrite pick_comment_id_none.
  - intros a b c -> Hal Hb Hc.
    change [a; b; c] with ([a] ++ b :: [c]).
    rewrite (pick_comment_id_first [a] [c] b); [done | | done].
    apply Forall_singleton. unfold by_bot. by rewrite Hal.
Qed.

Lemma getCommentId_first_bot_witness :
  exec (getCommentId (comment_payload Sample.env
          {| styleOptions := {| theme := "light"; layout := "classic" |};
             resourceOptions := {| requestId := 9 |};
             repoOptions := Sample.repo_o_r |}))
       (fresh_world Sample.busy_host) =
    (Ok (Some 42),
     issue (ListComments Sample.repo_o_r 9) (fresh_world Sample.busy_host)).
Proof.
  refine (proj2 (proj2 (getCommentId_first_bot _ (fresh_world Sample.busy_host) _
            (comments Sample.busy_host) _))
          (Sample.comment 40 9 "alice" "hello")
          (Sample.comment 42 9 bot_login "old")
          (Sample.comment 43 9 bot_login "older") _ _ _ _); reflexivity.
Defined.

(** ** Comment Publisher *)

(** C4.  On a host that keeps its comment identifiers positive and has the
    target, [replaceComment] issues the listing and then exactly one write
    call: the update of the located comment with the new body when the
    locator found one, and otherwise the creation of a comment with the new
    body on the target; never both. *)
Theorem replaceComment_one_write (options : PayloadOptions) (w : World) :
  host_ok (host w) →
  requestId (payload_resourceOptions options) ∈ issues (host w) →
  let located :=
    pick_comment_id (listed (requestId (payload_resourceOptions options)) (host w)) in
  let write :=
    match located with
    | Some id =>
        UpdateComment (payload_repoOptions options) id (message (commentOptions options))
    | None =>
        CreateComment (payload_repoOptions options)
          (requestId (payload_resourceOptions options)) (message (commentOptions options))
    end in
  trace (exec (replaceComment options) w).2 = trace w ++ [list_call options; write] ∧
  filter (λ c, is_write c = true) (trace (exec (replaceComment options) w).2)
    = filter (λ c, is_write c = true) (trace w) ++ [write].
Proof.
  intros Hok Hn located write.
  assert (Ht : trace (exec (replaceComment options) w).2 =
               trace w ++ [list_call options; write]).
  { rewrite exec_replaceComment. unfold list_call at 1 2.
    rewrite answer_list by done. cbn zeta.
    change (host (issue (list_call options) w)) with (host w).
    rewrite (write_call_host_ok options (host w) _ Hok). fold located. fold write.
    pose proof (answer_trace write (issue write (issue (list_call options) w))) as [Hw _].
    destruct (answer write _) as [[x | e] w2]; simpl in *;
      rewrite Hw; by rewrite <- app_assoc. }
  split; [exact Ht |].
  rewrite Ht, filter_app. f_equal.
  subst write. by destruct located.
Qed.

Lemma replaceComment_one_write_witness :
  trace (exec (replaceComment (comment_payload Sample.env
           {| styleOptions := {| theme := "light"; layout := "classic" |};
              resourceOptions := {| requestId := 9 |};
              repoOptions := Sample.repo_o_r |}))
         (fresh_world Sample.busy_host)).2 =
    [ListComments Sample.repo_o_r 9;
     UpdateComment Sample.repo_o_r 42 Sample.scenario_body].
Proof.
  refine (proj1 (replaceComment_one_write _ (fresh_world Sample.busy_host) _ _)).
  - exact busy_host_ok.
  - apply list_elem_of_here.
Defined.

(** ** The published body *)

(** C5.  For a resolved descriptor with theme [t] and layout [l] and the
    ambient commit [s], the body of the write call, whichever it is, is the
    image reference [![Styled Proverbs](<endpoint>?theme=t&layout=l)], two
    newlines and [Triggered by commit: s]; on a host that has the target it
    is the body of the one write call of [processComment].  In the
    end-to-end scenario the run creates one comment on issue 9 with the
    body of the scenario, under every schedule. *)
Theorem processComment_body env (options : ConfigOptions) (w : World) :
  let expected :=
    ("![Styled Proverbs](" +:+ profile_url env +:+ "?theme="
       +:+ theme (styleOptions options) +:+ "&layout="
       +:+ layout (styleOptions options) +:+ ")")
    +:+ "

" +:+ ("Triggered by commit: " +:+ sha (context env)) in
  (∀ commentId,
     call_text (write_call (comment_payload env options) commentId) = Some expected) ∧
  (requestId (resourceOptions options) ∈ issues (host w) →
   ∃ c, trace (exec (processComment env options) w).2 =
          trace w ++ [list_call (comment_payload env options); c] ∧
        is_write c = true ∧ call_text c = Some expected) ∧
  (∀ schedule,
     runCommentOperation Sample.scenario_env schedule (fresh_world Sample.quiet_host) =
       (Ok tt, Sample.scenario_world)) ∧
  Sample.scenario_body =
    "![Styled Proverbs](<endpoint>?theme=light&layout=classic)

Triggered by commit: abc123".
Proof.
  intros expected.
  assert (Htext : ∀ commentId,
            call_text (write_call (comment_payload env options) commentId) = Some expected).
  { intros commentId. by rewrite (proj2 (write_call_text _ commentId)). }
  split; [exact Htext |]. split; [| split; [| reflexivity]].
  - intros Hn.
    exists (write_call (comment_payload env options)
              (pick_comment_id (listed (requestId (resourceOptions options)) (host w)))).
    split; [| split; [apply write_call_text | apply Htext]].
    rewrite exec_processComment, exec_replaceComment.
    unfold list_call at 1 2. rewrite answer_list by done. cbn zeta.
    rewrite answer_host, !host_issue.
    destruct (serve (host w) _) as [[y | e] h']; cbn; by rewrite <- app_assoc.
  - intros schedule. unfold runCommentOperation, getOperationResult.
    assert (Hp : params Sample.scenario_env (getProperty Sample.scenario_env "sourceData")
                 = Ok [Sample.entry 9]) by reflexivity.
    cbn zeta. rewrite Hp, executeOperation_single. reflexivity.
Qed.

Lemma processComment_body_witness :
  ∃ c, trace (exec (processComment Sample.env
                      {| styleOptions := {| theme := "light"; layout := "classic" |};
                         resourceOptions := {| requestId := 9 |};
                         repoOptions := Sample.repo_o_r |})
                (fresh_world Sample.update_host)).2 =
         [ListComments Sample.repo_o_r 9; c] ∧
       is_write c = true ∧
       call_text c = Some Sample.scenario_body.
Proof.
  refine (proj1 (proj2 (processComment_body Sample.env _
                          (fresh_world Sample.update_host))) _).
  apply list_elem_of_here.
Defined.

(** ** Batch independence *)

(** C8.  In a batch of two entries of which one resolves and the other
    fails validation with [ValueError], in either order and under every
    schedule, the run ends with both pipelines settled and leaves the
    world that the pipeline of the resolved entry leaves when it runs
    alone; on a host that has its target that is the listing followed by
    its publish call.  The batch as a whole is rejected with the
    [ValueError]. *)
Theorem executeOperation_independent env (ok bad : PartialConfigOptions)
    (cfg : ConfigOptions) (message : string) (schedule : list nat) (w : World)
    (batch : list PartialConfigOptions) :
  buildConfigOptions env ok = Ok cfg →
  buildConfigOptions env bad = Err (ValueError message) →
  batch = [ok; bad] ∨ batch = [bad; ok] →
  let payload := comment_payload env cfg in
  let n := requestId (resourceOptions cfg) in
  (executeOperation env schedule batch w).2 = (exec (getOperationStatus env ok) w).2 ∧
  (executeOperation env schedule batch w).1 = Err (ValueError message) ∧
  Forall (λ t, settled t = true) (tasks (executeOperation_pool env schedule batch w)) ∧
  (n ∈ issues (host w) →
   trace (executeOperation env schedule batch w).2 =
     trace w ++ [list_call payload;
                 write_call payload (pick_comment_id (listed n (host w)))]).
Proof.
  intros Hok Hbad Hbatch payload n.
  assert (Hrun : (executeOperation env schedule batch w).2 =
                   (exec (getOperationStatus env ok) w).2 ∧
                 (executeOperation env schedule batch w).1 = Err (ValueError message)).
  { unfold executeOperation, executeOperation_pool.
    assert (Hs : settled (start (getOperationStatus env ok) w).1 = false).
    { unfold getOperationStatus. rewrite Hok. apply start_processComment. }
    assert (Hthrow : getOperationStatus env bad = Throw (ValueError message))
      by (unfold getOperationStatus; by rewrite Hbad).
    destruct Hbatch as [-> | ->].
    - change (getOperationStatus env <$> [ok; bad])
        with [getOperationStatus env ok; getOperationStatus env bad].
      rewrite Hthrow. by rewrite run_pool_throw_second.
    - change (getOperationStatus env <$> [bad; ok])
        with [getOperationStatus env bad; getOperationStatus env ok].
      rewrite Hthrow. by rewrite run_pool_throw_first. }
  destruct Hrun as [Hworld Hres].
  split; [exact Hworld |]. split; [exact Hres |].
  split; [apply run_pool_settled |].
  intros Hn. rewrite Hworld. unfold getOperationStatus. rewrite Hok.
  rewrite exec_processComment, exec_replaceComment. fold payload.
  unfold list_call at 1 2. rewrite answer_list by done. cbn zeta.
  rewrite answer_host, !host_issue.
  destruct (serve (host w) _) as [[y | e] h']; cbn; by rewrite <- app_assoc.
Qed.

Lemma executeOperation_independent_witness :
  trace (executeOperation Sample.env [1; 0; 1]%nat [Sample.entry 0; Sample.entry 9]
           (fresh_world Sample.quiet_host)).2 =
    [ListComments Sample.repo_o_r 9;
     CreateComment Sample.repo_o_r 9 Sample.scenario_body].
Proof.
  refine (proj2 (proj2 (proj2 (executeOperation_independent Sample.env
                  (Sample.entry 9) (Sample.entry 0) _
                  "Invalid pull request identifier: undefined"
                  [1; 0; 1]%nat (fresh_world Sample.quiet_host)
                  [Sample.entry 0; Sample.entry 9] eq_refl eq_refl
                  (or_intror eq_refl)))) _).
  apply list_elem_of_here.
Defined.


(** * Further properties *)

(** ** Programs and what they call *)

Lemma extends_issue (P : ApiCall → Prop) (t0 : list ApiCall) (c : ApiCall) (w : World) :
  P c → extends P t0 w → extends P t0 (issue c w).
Proof.
  intros Hc (added & Ht & Hall). exists (added ++ [c]). simpl. split.
  - by rewrite Ht, app_assoc.
  - apply Forall_app. split; [done | by apply Forall_singleton].
Qed.

Lemma extends_same (P : ApiCall → Prop) (t0 : list ApiCall) (w w' : World) :
  trace w' = trace w → extends P t0 w → extends P t0 w'.
Proof. intros Heq (added & Ht & Hall). exists added. by rewrite Heq. Qed.

Lemma extends_answer (P : ApiCall → Prop) (t0 : list ApiCall) (c : ApiCall) (w : World) :
  extends P t0 w → extends P t0 (answer c w).2.
Proof. apply extends_same. apply answer_trace. Qed.

Lemma always_later {A} (P : ApiCall → Prop) (m : Prog A) : always P m → later P m.
Proof.
  induction m as [a | e | entry k IH | c k IH]; simpl; try done.
  by intros [_ H].
Qed.

Lemma always_bind {A B} (P : ApiCall → Prop) (m : Prog A) (f : A → Prog B) :
  always P m → (∀ a, always P (f a)) → always P (bind m f).
Proof.
  intros Hm Hf. induction m as [a | e | entry k IH | c k IH]; simpl in *.
  - apply Hf.
  - done.
  - by apply IH.
  - destruct Hm as [Hc Hk]. split; [done |]. intros r. by apply IH.
Qed.

Lemma always_try_catch {A} (P : ApiCall → Prop) (m : Prog A) (handler : Error → Prog A) :
  always P m → (∀ e, always P (handler e)) → always P (try_catch m handler).
Proof.
  intros Hm Hh. induction m as [a | e | entry k IH | c k IH]; simpl in *.
  - done.
  - apply Hh.
  - by apply IH.
  - destruct Hm as [Hc Hk]. split; [done |]. intros r. by apply IH.
Qed.

Lemma always_impl {A} (P Q : ApiCall → Prop) (m : Prog A) :
  (∀ c, P c → Q c) → always P m → always Q m.
Proof.
  intros HPQ. induction m as [a | e | entry k IH | c k IH]; simpl; try done.
  intros [Hc Hk]. split; [by apply HPQ |]. intros r. by apply IH.
Qed.

Lemma exec_always {A} (P : ApiCall → Prop) (t0 : list ApiCall) (m : Prog A) (w : World) :
  always P m → extends P t0 w → extends P t0 (exec m w).2.
Proof.
  revert w. induction m as [a | e | entry k IH | c k IH]; intros w Hm Hw; simpl in *.
  - done.
  - done.
  - apply IH; [done |]. by eapply extends_same.
  - destruct Hm as [Hc Hk].
    pose proof (extends_answer P t0 c (issue c w) (extends_issue P t0 c w Hc Hw)) as Ha.
    destruct (answer c (issue c w)) as [r w']. by apply IH.
Qed.

Lemma start_always (P : ApiCall → Prop) (t0 : list ApiCall) (m : Prog unit) (w : World) :
  always P m → extends P t0 w →
  extends P t0 (start m w).2 ∧ task_always P (start m w).1.
Proof.
  revert w. induction m as [a | e | entry k IH | c k IH]; intros w Hm Hw; simpl in *.
  - done.
  - done.
  - apply IH; [done |]. by eapply extends_same.
  - destruct Hm as [Hc Hk]. split; [by apply extends_issue | done].
Qed.

Lemma deliver_always (P : ApiCall → Prop) (t0 : list ApiCall) (pool : Pool) (i : nat) :
  pool_always P t0 pool → pool_always P t0 (deliver pool i).
Proof.
  intros [Ht Hw]. unfold deliver.
  destruct (tasks pool !! i) as [[c k | r0] |] eqn:Hi; [| done | done].
  pose proof (Forall_lookup_1 _ _ _ _ Ht Hi) as Hk. simpl in Hk.
  pose proof (extends_answer P t0 c (world pool) Hw) as Ha.
  destruct (answer c (world pool)) as [r w].
  destruct (start_always P t0 (k r) w (Hk r) Ha) as [Hw2 Ht2].
  destruct (start (k r) w) as [t w2]. split; simpl.
  - by apply Forall_insert.
  - done.
Qed.

Lemma complete_always (P : ApiCall → Prop) (t0 : list ApiCall) (pool : Pool) (i : nat) :
  pool_always P t0 pool → pool_always P t0 (complete pool i).
Proof.
  intros [Ht Hw]. unfold complete.
  destruct (tasks pool !! i) as [[c k | r0] |] eqn:Hi; [| done | done].
  pose proof (Forall_lookup_1 _ _ _ _ Ht Hi) as Hk. simpl in Hk.
  pose proof (extends_answer P t0 c (world pool) Hw) as Ha.
  destruct (answer c (world pool)) as [r w].
  pose proof (exec_always P t0 (k r) w (Hk r) Ha) as Hw2.
  destruct (exec (k r) w) as [r2 w2]. split; simpl.
  - by apply Forall_insert.
  - done.
Qed.

Lemma foldl_deliver_always (P : ApiCall → Prop) (t0 : list ApiCall)
    (schedule : list nat) (pool : Pool) :
  pool_always P t0 pool → pool_always P t0 (foldl deliver pool schedule).
Proof.
  revert pool. induction schedule as [| i schedule IH]; intros pool H; [done |].
  simpl. apply IH. by apply deliver_always.
Qed.

Lemma foldl_complete_always (P : ApiCall → Prop) (t0 : list ApiCall)
    (l : list nat) (pool : Pool) :
  pool_always P t0 pool → pool_always P t0 (foldl complete pool l).
Proof.
  revert pool. induction l as [| i l IH]; intros pool H; [done |].
  simpl. apply IH. by apply complete_always.
Qed.

(** Once every pipeline is launched, the rest of the run only adds calls
    that the pending tasks may make. *)
Lemma settle_always (P : ApiCall → Prop) (schedule : list nat) (pool : Pool) :
  Forall (task_always P) (tasks pool) →
  extends P (trace (world pool)) (world (drain (foldl deliver pool schedule))).
Proof.
  intros Ht.
  assert (H0 : pool_always P (trace (world pool)) pool).
  { split; [done |]. exists []. by rewrite app_nil_r. }
  apply (foldl_complete_always P _ _ _ (foldl_deliver_always P _ schedule pool H0)).
Qed.

(** ** The launch of a batch *)

Lemma launch_always (P : ApiCall → Prop) (t0 : list ApiCall) (pool : Pool) (m : Prog unit) :
  always P m → pool_always P t0 pool → pool_always P t0 (launch pool m).
Proof.
  intros Hm [Ht Hw]. unfold launch.
  destruct (start_always P t0 m (world pool) Hm Hw) as [Hw2 Ht2].
  destruct (start m (world pool)) as [t w]. split; simpl.
  - apply Forall_app. split; [done | by apply Forall_singleton].
  - done.
Qed.

Lemma foldl_launch_always (P : ApiCall → Prop) (t0 : list ApiCall)
    (ms : list (Prog unit)) (pool : Pool) :
  Forall (always P) ms → pool_always P t0 pool → pool_always P t0 (foldl launch pool ms).
Proof.
  intros H. revert pool. induction H as [| m ms Hm _ IH]; intros pool Hp; [done |].
  simpl. apply IH. by apply launch_always.
Qed.

(** What the launch of one entry does to the pool. *)
Lemma launch_getOperationStatus env (entry : PartialConfigOptions) (pool : Pool) :
  ∃ t,
    launch pool (getOperationStatus env entry) =
      {| tasks := tasks pool ++ [t];
         world := {| host := host (world pool);
                     trace := trace (world pool) ++ option_list (listing env entry);
                     log := log (world pool) |};
         rejected := rejected pool ++ option_list (invalid env entry) |} ∧
    task_always (λ c, is_write c = true) t ∧
    (settled t = true ↔ ¬ resolves env entry).
Proof.
  unfold launch, getOperationStatus, listing, invalid, resolves.
  destruct (buildConfigOptions env entry) as [cfg | e]; simpl.
  - eexists. split; [by rewrite app_nil_r |]. split.
    + intros [cs | e]; simpl; [| done]. split; [apply write_call_text |].
      by intros [x | e].
    + simpl. split; [done |]. intros H. by destruct H.
  - eexists. split; [rewrite app_nil_r; by destruct (world pool) |].
    split; [done |]. simpl. split; [| done].
    intros _ H. discriminate H.
Qed.

Lemma launch_batch env (options : list PartialConfigOptions) (pool : Pool) :
  ∃ ts,
    foldl launch pool (getOperationStatus env <$> options) =
      {| tasks := tasks pool ++ ts;
         world := {| host := host (world pool);
                     trace := trace (world pool) ++ omap (listing env) options;
                     log := log (world pool) |};
         rejected := rejected pool ++ omap (invalid env) options |} ∧
    Forall (task_always (λ c, is_write c = true)) ts.
Proof.
  revert pool. induction options as [| entry options IH]; intros pool.
  - exists []. simpl. rewrite !app_nil_r. split; [| done].
    by destruct pool as [ts [h t l] rej].
  - rewrite fmap_cons. cbn [foldl].
    destruct (launch_getOperationStatus env entry pool) as (t & -> & Hk & _).
    destruct (IH {| tasks := tasks pool ++ [t];
                    world := {| host := host (world pool);
                                trace := trace (world pool) ++ option_list (listing env entry);
                                log := log (world pool) |};
                    rejected := rejected pool ++ option_list (invalid env entry) |})
      as (ts & -> & Hts).
    exists (t :: ts). cbn [tasks world rejected host trace log]. split.
    + f_equal.
      * by rewrite <- app_assoc.
      * f_equal. rewrite <- app_assoc. f_equal. simpl.
        by destruct (listing env entry).
      * rewrite <- app_assoc. f_equal. simpl. by destruct (invalid env entry).
    + by apply Forall_cons.
Qed.

(** The rejections of a pool are only ever added to. *)
Lemma deliver_rejected (pool : Pool) (i : nat) :
  rejected pool `prefix_of` rejected (deliver pool i).
Proof.
  unfold deliver.
  destruct (tasks pool !! i) as [[c k | r0] |]; [| done | done].
  destruct (answer c (world pool)) as [r w].
  destruct (start (k r) w) as [t w2]. simpl. by apply prefix_app_r.
Qed.

Lemma complete_rejected (pool : Pool) (i : nat) :
  rejected pool `prefix_of` rejected (complete pool i).
Proof.
  unfold complete.
  destruct (tasks pool !! i) as [[c k | r0] |]; [| done | done].
  destruct (answer c (world pool)) as [r w].
  destruct (exec (k r) w) as [r2 w2]. simpl. by apply prefix_app_r.
Qed.

Lemma settle_rejected (schedule : list nat) (pool : Pool) :
  rejected pool `prefix_of` rejected (drain (foldl deliver pool schedule)).
Proof.
  assert (Hd : ∀ l p, rejected p `prefix_of` rejected (foldl deliver p l)).
  { induction l as [| i l IH]; intros p; [done |]. simpl.
    etrans; [apply deliver_rejected | apply IH]. }
  assert (Hc : ∀ l p, rejected p `prefix_of` rejected (foldl complete p l)).
  { induction l as [| i l IH]; intros p; [done |]. simpl.
    etrans; [apply complete_rejected | apply IH]. }
  etrans; [apply Hd | apply Hc].
Qed.

Lemma always_processComment env (cfg : ConfigOptions) :
  always (call_of env cfg) (processComment env cfg).
Proof.
  simpl. split; [done |].
  intros [cs | e]; simpl; [| done]. split; [| by intros [x | e]].
  unfold write_call.
  destruct (pick_comment_id cs) as [id |]; [| done].
  by destruct (negb (Z.eqb id 0)).
Qed.

Lemma always_getOperationStatus env (options : list PartialConfigOptions)
    (entry : PartialConfigOptions) :
  entry ∈ options →
  always (call_of_batch env options) (getOperationStatus env entry).
Proof.
  intros Hin. unfold getOperationStatus.
  destruct (buildConfigOptions env entry) as [cfg | e] eqn:Hb; [| done].
  apply (always_impl (call_of env cfg)); [| apply always_processComment].
  intros c Hc. exists entry, cfg. repeat split; try done.
  by destruct (buildConfigOptions_style env entry cfg Hb) as (_ & _ & ->).
Qed.

(** ** Batches the host cannot reject *)

Lemma valid_serve (ns : list Z) (h : Host) (c0 c : ApiCall) :
  valid ns h c → valid ns (serve h c0).2 c.
Proof.
  destruct c as [r n | r id text | r n text]; [done | | done].
  simpl. intros (x & Hx & Hid).
  destruct c0 as [r0 n0 | r0 id0 text0 | r0 n0 text0]; simpl.
  - destruct (bool_decide _); by exists x.
  - destruct (filter _ (comments h)); [by exists x |]. simpl.
    exists (edit id0 text0 x). split; [by apply list_elem_of_fmap_2 |].
    by rewrite (proj2 (proj2 (edit_frame id0 text0 x))).
  - destruct (bool_decide _); [| by exists x]. simpl.
    exists x. split; [| done]. apply elem_of_app. by left.
Qed.

Lemma task_thrives_serve (ns : list Z) (h : Host) (c0 : ApiCall) (t : Task) :
  task_thrives ns h t → task_thrives ns (serve h c0).2 t.
Proof.
  destruct t as [c k | r]; [| done].
  intros [Hc Hk]. split; [by apply valid_serve | done].
Qed.

Lemma start_thrives (ns : list Z) (m : Prog unit) (w : World) :
  thrives ns m (host w) →
  host (start m w).2 = host w ∧ task_thrives ns (host w) (start m w).1 ∧
  rejection (start m w).1 = [].
Proof.
  revert w. induction m as [a | e | entry k IH | c k IH]; intros w Hm; simpl in *.
  - done.
  - done.
  - by apply (IH (write_log entry w)).
  - done.
Qed.

Lemma exec_thrives {A} (ns : list Z) (m : Prog A) (w : World) :
  ns ⊆ issues (host w) → thrives ns m (host w) →
  is_Ok (exec m w).1 = true ∧
  ns ⊆ issues (host (exec m w).2) ∧
  ∀ t, task_thrives ns (host w) t → task_thrives ns (host (exec m w).2) t.
Proof.
  revert w. induction m as [a | e | entry k IH | c k IH]; intros w Hi Hm; simpl in *.
  - done.
  - done.
  - by apply (IH (write_log entry w)).
  - destruct Hm as [Hc Hk]. rewrite answer_host, host_issue.
    destruct (IH (serve (host w) c).1
                 (set_host (serve (host w) c).2 (issue c w))) as (Hr & Hi' & Hm').
    + simpl. by rewrite (proj1 (serve_frame (host w) c)).
    + simpl. by apply Hk.
    + split; [exact Hr |]. split; [exact Hi' |].
      intros t Ht. apply Hm'. simpl. by apply task_thrives_serve.
Qed.

Lemma launch_thrives (ns : list Z) (pool : Pool) (m : Prog unit) :
  (∀ h, ns ⊆ issues h → thrives ns m h) →
  pool_thrives ns pool → pool_thrives ns (launch pool m).
Proof.
  intros Hm (Hi & Hr & Hts). unfold launch.
  destruct (start_thrives ns m (world pool) (Hm _ Hi)) as (Hh & Hk & Hrej).
  destruct (start m (world pool)) as [t w]. unfold pool_thrives. simpl in *.
  rewrite Hh, Hr, Hrej. split; [done |]. split; [done |].
  apply Forall_app. split; [done | by apply Forall_singleton].
Qed.

Lemma deliver_thrives (ns : list Z) (pool : Pool) (i : nat) :
  pool_thrives ns pool → pool_thrives ns (deliver pool i).
Proof.
  intros (Hi & Hr & Hts). unfold deliver.
  destruct (tasks pool !! i) as [[c k | r0] |] eqn:Hl; [| done | done].
  destruct (Forall_lookup_1 _ _ _ _ Hts Hl) as [Hc Hk].
  rewrite answer_host.
  destruct (start_thrives ns (k (serve (host (world pool)) c).1)
              (set_host (serve (host (world pool)) c).2 (world pool)))
    as (Hh & Ht2 & Hrej).
  { simpl. by apply Hk. }
  destruct (start (k (serve (host (world pool)) c).1) _) as [t w2].
  unfold pool_thrives. simpl in *. rewrite Hh, Hr, Hrej.
  split; [by rewrite (proj1 (serve_frame _ c)) |]. split; [done |].
  apply Forall_insert; [| done].
  eapply Forall_impl; [exact Hts |]. intros t' Ht'. by apply task_thrives_serve.
Qed.

Lemma complete_thrives (ns : list Z) (pool : Pool) (i : nat) :
  pool_thrives ns pool → pool_thrives ns (complete pool i).
Proof.
  intros (Hi & Hr & Hts). unfold complete.
  destruct (tasks pool !! i) as [[c k | r0] |] eqn:Hl; [| done | done].
  destruct (Forall_lookup_1 _ _ _ _ Hts Hl) as [Hc Hk].
  rewrite answer_host.
  destruct (exec_thrives ns (k (serve (host (world pool)) c).1)
              (set_host (serve (host (world pool)) c).2 (world pool)))
    as (Hok & Hi2 & Hm2).
  { simpl. by rewrite (proj1 (serve_frame _ c)). }
  { simpl. by apply Hk. }
  destruct (exec (k (serve (host (world pool)) c).1) _) as [r2 w2].
  unfold pool_thrives. simpl in *. rewrite Hr.
  split; [done |]. split; [by destruct r2 |].
  apply Forall_insert; [| done].
  eapply Forall_impl; [exact Hts |]. intros t' Ht'.
  apply Hm2. by apply task_thrives_serve.
Qed.

Lemma run_pool_thrives (ns : list Z) (schedule : list nat) (ms : list (Prog unit))
    (w : World) :
  Forall (λ m, ∀ h, ns ⊆ issues h → thrives ns m h) ms → ns ⊆ issues (host w) →
  pool_thrives ns (run_pool schedule ms w).
Proof.
  intros Hms Hi. unfold run_pool, drain.
  assert (H0 : pool_thrives ns (empty_pool w)) by done.
  assert (H1 : pool_thrives ns (foldl launch (empty_pool w) ms)).
  { revert H0. generalize (empty_pool w).
    induction Hms as [| m ms Hm _ IH]; intros pool Hp; [done |].
    simpl. apply IH. by apply launch_thrives. }
  assert (Hd : ∀ l p, pool_thrives ns p → pool_thrives ns (foldl deliver p l)).
  { induction l as [| i l IH]; intros p Hp; [done |]. simpl.
    apply IH. by apply deliver_thrives. }
  assert (Hc : ∀ l p, pool_thrives ns p → pool_thrives ns (foldl complete p l)).
  { induction l as [| i l IH]; intros p Hp; [done |]. simpl.
    apply IH. by apply complete_thrives. }
  apply Hc, Hd, H1.
Qed.

(** A pipeline whose entry resolves to an issue the host has is never
    rejected: what it updates is a comment it was listed. *)
Lemma thrives_getOperationStatus env (ns : list Z) (entry : PartialConfigOptions)
    (cfg : ConfigOptions) (h : Host) :
  buildConfigOptions env entry = Ok cfg →
  requestId (resourceOptions cfg) ∈ ns →
  thrives ns (getOperationStatus env entry) h.
Proof.
  intros Hb Hn. unfold getOperationStatus. rewrite Hb.
  simpl. split; [done |]. intros h' Hi _.
  rewrite bool_decide_eq_true_2 by (by apply Hi). simpl.
  assert (Hv : valid ns h'
            (write_call (comment_payload env cfg)
               (pick_comment_id (listed (requestId (resourceOptions cfg)) h')))).
  { unfold write_call.
    destruct (pick_comment_id _) as [id |] eqn:Hp; [| done].
    destruct (negb (Z.eqb id 0)); [| done].
    apply pick_comment_id_Some in Hp as (c0 & Hc0 & _ & Hid0 & _).
    apply listed_elem_of in Hc0 as [_ Hc0]. by exists c0. }
  split; [exact Hv |]. clear Hv. intros h'' Hi'' Hv.
  revert Hv. unfold write_call.
  destruct (pick_comment_id _) as [id |]; [destruct (negb (Z.eqb id 0)) |];
    simpl; intros Hv.
  - destruct Hv as (x & Hx & Hid).
    destruct (filter (λ y, comment_id y = id) (comments h'')) as [| y l] eqn:Hf; [| done].
    assert (H0 : x ∈ filter (λ y, comment_id y = id) (comments h''))
      by (by apply list_elem_of_filter).
    rewrite Hf in H0. by inversion H0.
  - by rewrite bool_decide_eq_true_2 by (by apply Hi'').
  - by rewrite bool_decide_eq_true_2 by (by apply Hi'').
Qed.

(** ** Comments of other authors *)

Lemma answer_create (r : RepoOptions) (n : Z) (text : string) (w : World) :
  n ∈ issues (host w) →
  answer (CreateComment r n text) w =
    (Ok {| comment_id := next_comment_id (host w); issue_number := n;
           user_login := viewer (host w); body := text |},
     {| host := {| issues := issues (host w);
                   comments := comments (host w) ++
                     [{| comment_id := next_comment_id (host w); issue_number := n;
                         user_login := viewer (host w); body := text |}];
                   next_comment_id := next_comment_id (host w) + 1;
                   viewer := viewer (host w) |};
        trace := trace w; log := log w |}).
Proof.
  intros Hn. rewrite answer_host. cbn [serve].
  by rewrite bool_decide_eq_true_2.
Qed.

Lemma NoDup_fmap_eq {A B} (f : A → B) (l : list A) (x y : A) :
  NoDup (f <$> l) → x ∈ l → y ∈ l → f x = f y → x = y.
Proof.
  induction l as [| z l IH]; intros Hnd Hx Hy Hf; [by inversion Hx |].
  rewrite fmap_cons in Hnd. apply NoDup_cons in Hnd as [Hz Hnd].
  apply elem_of_cons in Hx as [-> | Hx]; apply elem_of_cons in Hy as [-> | Hy].
  - reflexivity.
  - destruct Hz. rewrite Hf. by apply list_elem_of_fmap_2.
  - destruct Hz. rewrite <- Hf. by apply list_elem_of_fmap_2.
  - by apply IH.
Qed.

Lemma edit_ids (id : Z) (text : string) (l : list Comment) :
  comment_id <$> (edit id text <$> l) = comment_id <$> l.
Proof.
  induction l as [| x l IH]; [done |].
  rewrite !fmap_cons, IH. f_equal. apply edit_frame.
Qed.

Lemma serve_tidy (h : Host) (c : ApiCall) : tidy h → tidy (serve h c).2.
Proof.
  intros (Hv & Hok & Hnd). split; [| split].
  - by rewrite (proj2 (serve_frame h c)).
  - by apply serve_host_ok.
  - destruct c as [r n | r id text | r n text]; simpl.
    + by destruct (bool_decide _).
    + destruct (filter _ (comments h)); [done |]. simpl. by rewrite edit_ids.
    + destruct (bool_decide _); [| done]. simpl.
      rewrite fmap_app. apply NoDup_app. split; [done |]. split.
      * intros y Hy Hnew. apply list_elem_of_singleton in Hnew. simpl in Hnew.
        apply list_elem_of_fmap in Hy as (x & -> & Hx).
        destruct Hok as [_ Hall]. rewrite Forall_forall in Hall.
        specialize (Hall x Hx). simpl in Hall. lia.
      * apply NoDup_singleton.
Qed.

Lemma bot_on_edit (ns : list Z) (id : Z) (text : string) (x : Comment) :
  bot_on ns (edit id text x) ↔ bot_on ns x.
Proof.
  destruct (edit_frame id text x) as (Hi & Hl & _).
  unfold bot_on, by_bot. by rewrite Hi, Hl.
Qed.

(** A call that was the bot's own when it was issued still is when any
    call has been served. *)
Lemma own_call_serve (ns : list Z) (h : Host) (c0 c : ApiCall) :
  host_ok h → viewer h = bot_login → own_call ns h c → own_call ns (serve h c0).2 c.
Proof.
  intros Hok Hv Hc. destruct c as [r n | r id text | r n text]; [done | | done].
  destruct Hc as [(x0 & Hx0 & Hid0) Hc]. split.
  - apply (valid_serve [] h c0 (UpdateComment r id text)). by exists x0.
  - simpl in *. intros x Hx Hid.
    destruct c0 as [r0 n0 | r0 id0 text0 | r0 n0 text0]; simpl in Hx.
    + destruct (bool_decide _); by apply Hc.
    + destruct (filter _ (comments h)); [by apply Hc |]. simpl in Hx.
      apply list_elem_of_fmap in Hx as (y & -> & Hy).
      apply bot_on_edit. apply Hc; [done |].
      by rewrite <- (proj2 (proj2 (edit_frame id0 text0 y))).
    + destruct (bool_decide _); [| by apply Hc]. simpl in Hx.
      apply elem_of_app in Hx as [Hx | Hx]; [by apply Hc |].
      apply list_elem_of_singleton in Hx. subst x. simpl in Hid.
      destruct Hok as [_ Hall]. rewrite Forall_forall in Hall.
      specialize (Hall x0 Hx0). lia.
Qed.

Lemma filter_kept_edit (ns : list Z) (id : Z) (text : string) (l : list Comment) :
  (∀ y, y ∈ l → comment_id y = id → bot_on ns y) →
  filter (λ c, ¬ bot_on ns c) (edit id text <$> l) = filter (λ c, ¬ bot_on ns c) l.
Proof.
  induction l as [| x l IH]; intros Hc; [done |].
  rewrite fmap_cons.
  assert (Hl : ∀ y, y ∈ l → comment_id y = id → bot_on ns y)
    by (intros y Hy; apply Hc; by right).
  destruct (decide (bot_on ns x)) as [Hx | Hx].
  - rewrite (filter_cons_False _ x l) by (by intros H).
    rewrite filter_cons_False; [by apply IH |].
    intros H. apply H. by apply bot_on_edit.
  - assert (Hne : comment_id x ≠ id) by (intros Hid; apply Hx, Hc; [left | done]).
    assert (He : edit id text x = x)
      by (unfold edit; by rewrite bool_decide_eq_false_2).
    rewrite He, !filter_cons_True by done. f_equal. by apply IH.
Qed.

(** Serving a call that is the bot's own leaves every other comment as it
    was. *)
Lemma serve_kept (ns : list Z) (h : Host) (c : ApiCall) :
  viewer h = bot_login → own_call ns h c → kept ns (serve h c).2 = kept ns h.
Proof.
  intros Hv Hc. unfold kept.
  destruct c as [r n | r id text | r n text]; simpl.
  - by destruct (bool_decide _).
  - destruct (filter _ (comments h)); [done |]. simpl.
    apply filter_kept_edit. apply Hc.
  - destruct (bool_decide _); [| done]. simpl.
    rewrite filter_app, filter_cons_False, filter_nil, app_nil_r; [done |].
    intros H. apply H. split; [exact Hv | exact Hc].
Qed.

Lemma task_owns_serve (ns : list Z) (h : Host) (c0 : ApiCall) (t : Task) :
  tidy h → task_owns ns h t → task_owns ns (serve h c0).2 t.
Proof.
  intros (Hv & Hok & _). destruct t as [c k | r]; [| done].
  intros [Hc Hk]. split; [by apply own_call_serve | done].
Qed.

Lemma start_owns (ns : list Z) (m : Prog unit) (w : World) :
  owns ns m (host w) →
  host (start m w).2 = host w ∧ task_owns ns (host w) (start m w).1.
Proof.
  revert w. induction m as [a | e | entry k IH | c k IH]; intros w Hm; simpl in *.
  - done.
  - done.
  - by apply (IH (write_log entry w)).
  - done.
Qed.

(** A program that touches comments of the bot on [ns] only, run to its
    end: the host stays tidy, every other comment stays, and what tasks
    were the bot's own still are. *)
Lemma exec_owns {A} (ns : list Z) (m : Prog A) (w : World) :
  tidy (host w) → owns ns m (host w) →
  tidy (host (exec m w).2) ∧
  kept ns (host (exec m w).2) = kept ns (host w) ∧
  ∀ t, task_owns ns (host w) t → task_owns ns (host (exec m w).2) t.
Proof.
  revert w. induction m as [a | e | entry k IH | c k IH]; intros w Ht Hm; simpl in *.
  - done.
  - done.
  - by apply (IH (write_log entry w)).
  - destruct Hm as [Hc Hk]. rewrite answer_host, host_issue.
    destruct (IH (serve (host w) c).1
                 (set_host (serve (host w) c).2 (issue c w))) as (Ht' & Ho' & Hm').
    + simpl. by apply serve_tidy.
    + simpl. by apply Hk.
    + split; [exact Ht' |]. split.
      * rewrite Ho'. simpl. apply serve_kept; [apply Ht | done].
      * intros t Hown. apply Hm'. simpl. by apply task_owns_serve.
Qed.

Lemma launch_owns (ns : list Z) (o : list Comment) (pool : Pool) (m : Prog unit) :
  (∀ h, owns ns m h) → pool_owns ns o pool → pool_owns ns o (launch pool m).
Proof.
  intros Hm (Ht & Ho & Hts). unfold launch.
  destruct (start_owns ns m (world pool) (Hm _)) as [Hh Hk].
  destruct (start m (world pool)) as [t w]. unfold pool_owns. simpl in *. rewrite Hh.
  split; [done |]. split; [done |].
  apply Forall_app. split; [done | by apply Forall_singleton].
Qed.

Lemma deliver_owns (ns : list Z) (o : list Comment) (pool : Pool) (i : nat) :
  pool_owns ns o pool → pool_owns ns o (deliver pool i).
Proof.
  intros (Ht & Ho & Hts). unfold deliver.
  destruct (tasks pool !! i) as [[c k | r0] |] eqn:Hi; [| done | done].
  destruct (Forall_lookup_1 _ _ _ _ Hts Hi) as [Hc Hk].
  rewrite answer_host.
  destruct (start_owns ns (k (serve (host (world pool)) c).1)
              (set_host (serve (host (world pool)) c).2 (world pool))) as [Hh Ht2].
  { simpl. by apply Hk. }
  destruct (start (k (serve (host (world pool)) c).1) _) as [t w2].
  unfold pool_owns. simpl in *. rewrite Hh. split; [by apply serve_tidy |]. split.
  - rewrite <- Ho. apply serve_kept; [apply Ht | done].
  - apply Forall_insert; [| done].
    eapply Forall_impl; [exact Hts |]. intros t' Ht'.
    by apply task_owns_serve.
Qed.

Lemma complete_owns (ns : list Z) (o : list Comment) (pool : Pool) (i : nat) :
  pool_owns ns o pool → pool_owns ns o (complete pool i).
Proof.
  intros (Ht & Ho & Hts). unfold complete.
  destruct (tasks pool !! i) as [[c k | r0] |] eqn:Hi; [| done | done].
  destruct (Forall_lookup_1 _ _ _ _ Hts Hi) as [Hc Hk].
  rewrite answer_host.
  destruct (exec_owns ns (k (serve (host (world pool)) c).1)
              (set_host (serve (host (world pool)) c).2 (world pool)))
    as (Ht2 & Ho2 & Hm2).
  { simpl. by apply serve_tidy. }
  { simpl. by apply Hk. }
  destruct (exec (k (serve (host (world pool)) c).1) _) as [r2 w2].
  unfold pool_owns. simpl in *. split; [done |]. split.
  - rewrite Ho2, <- Ho. apply serve_kept; [apply Ht | done].
  - apply Forall_insert; [| done].
    eapply Forall_impl; [exact Hts |]. intros t' Ht'.
    apply Hm2. by apply task_owns_serve.
Qed.

Lemma run_pool_owns (ns : list Z) (schedule : list nat) (ms : list (Prog unit))
    (w : World) :
  Forall (λ m, ∀ h, owns ns m h) ms → tidy (host w) →
  pool_owns ns (kept ns (host w)) (run_pool schedule ms w).
Proof.
  intros Hms Ht. unfold run_pool, drain.
  assert (H0 : pool_owns ns (kept ns (host w)) (empty_pool w)) by done.
  assert (H1 : pool_owns ns (kept ns (host w)) (foldl launch (empty_pool w) ms)).
  { revert H0. generalize (empty_pool w).
    induction Hms as [| m ms Hm _ IH]; intros pool Hp; [done |].
    simpl. apply IH. by apply launch_owns. }
  assert (Hd : ∀ l p, pool_owns ns (kept ns (host w)) p →
                      pool_owns ns (kept ns (host w)) (foldl deliver p l)).
  { induction l as [| i l IH]; intros p Hp; [done |]. simpl.
    apply IH. by apply deliver_owns. }
  assert (Hc : ∀ l p, pool_owns ns (kept ns (host w)) p →
                      pool_owns ns (kept ns (host w)) (foldl complete p l)).
  { induction l as [| i l IH]; intros p Hp; [done |]. simpl.
    apply IH. by apply complete_owns. }
  apply Hc, Hd, H1.
Qed.

Lemma targets_elem_of env (options : list PartialConfigOptions)
    (entry : PartialConfigOptions) (cfg : ConfigOptions) :
  entry ∈ options → buildConfigOptions env entry = Ok cfg →
  requestId (resourceOptions cfg) ∈ targets env options.
Proof.
  intros Hin Hb. unfold targets. apply list_elem_of_omap.
  exists entry. by rewrite Hb.
Qed.

(** What a pipeline updates is a comment of the bot on its target, and what
    it creates is on its target. *)
Lemma owns_getOperationStatus env (ns : list Z) (entry : PartialConfigOptions) (h : Host) :
  (∀ cfg, buildConfigOptions env entry = Ok cfg → requestId (resourceOptions cfg) ∈ ns) →
  owns ns (getOperationStatus env entry) h.
Proof.
  intros Hns. unfold getOperationStatus.
  destruct (buildConfigOptions env entry) as [cfg | e]; [| done].
  specialize (Hns cfg eq_refl).
  simpl. split; [done |]. intros h' (Hv & Hok & Hnd).
  destruct (bool_decide _); simpl; [| done].
  split; [| intros h'' _; by destruct (serve h'' _).1].
  unfold write_call.
  destruct (pick_comment_id _) as [id |] eqn:Hp; [| done].
  destruct (negb (Z.eqb id 0)); [| done].
  apply pick_comment_id_Some in Hp as (c0 & Hc0 & Hb & Hid0 & _).
  apply listed_elem_of in Hc0 as [Hn0 Hc0].
  simpl. split; [by exists c0 |]. intros x Hx Hid.
  assert (x = c0) as ->.
  { apply (NoDup_fmap_eq comment_id (comments h')); try done. by rewrite Hid0. }
  split; [done | by rewrite Hn0].
Qed.

(** ** One entry among the others *)

Lemma start_first_task (m : Prog unit) (w : World) :
  (start m w).1 = first_task m ∧ host (start m w).2 = host w.
Proof.
  revert w. induction m as [a | e | entry k IH | c k IH]; intros w; simpl; try done.
  apply (IH (write_log entry w)).
Qed.

Lemma launch_tasks (ms : list (Prog unit)) (pool : Pool) :
  tasks (foldl launch pool ms) = tasks pool ++ (first_task <$> ms) ∧
  host (world (foldl launch pool ms)) = host (world pool).
Proof.
  revert pool. induction ms as [| m ms IH]; intros pool; simpl.
  - by rewrite app_nil_r.
  - destruct (IH (launch pool m)) as [-> ->]. unfold launch.
    destruct (start_first_task m (world pool)) as [Ht Hh].
    destruct (start m (world pool)) as [t w]. simpl in *. subst t.
    by rewrite <- app_assoc.
Qed.

Lemma first_task_owns (ns : list Z) (m : Prog unit) (h : Host) :
  owns ns m h → task_owns ns h (first_task m).
Proof.
  induction m as [a | e | entry k IH | c k IH]; simpl; try done.
Qed.

Lemma exec_issues {A} (m : Prog A) (w : World) :
  issues (host (exec m w).2) = issues (host w).
Proof.
  revert w. induction m as [a | e | entry k IH | c k IH]; intros w; simpl; try done.
  - apply (IH (write_log entry w)).
  - rewrite answer_host, host_issue.
    rewrite (IH (serve (host w) c).1). simpl. apply serve_frame.
Qed.

(** The comments of an issue outside [ns] are among those that are kept. *)
Lemma thread_kept (ns : list Z) (n : Z) (h : Host) :
  n ∉ ns → thread n h = filter (λ c, issue_number c = n) (kept ns h).
Proof.
  intros Hn. unfold thread, kept.
  rewrite list_filter_filter_l; [done |].
  intros c Hc [_ Hin]. by rewrite Hc in Hin.
Qed.

Lemma stage_kept env (cfg : ConfigOptions) (before : list Comment) (ns : list Z)
    (h h' : Host) (t : Task) :
  requestId (resourceOptions cfg) ∉ ns → kept ns h' = kept ns h →
  stage env cfg before h t → stage env cfg before h' t.
Proof.
  intros Hn Hk. unfold stage, bot_comments, in_view, listed.
  by rewrite !(thread_kept ns _ h' Hn), !(thread_kept ns _ h Hn), Hk.
Qed.

(** The answer to the write of the entry: it succeeds, and the entry is at
    its last stage. *)
Lemma deliver_publish env (cfg : ConfigOptions) (before : list Comment)
    (pool : Pool) (i : nat) :
  tidy (host (world pool)) →
  requestId (resourceOptions cfg) ∈ issues (host (world pool)) →
  tasks pool !! i = Some (first_task (publish env cfg (take per_page before))) →
  thread (requestId (resourceOptions cfg)) (host (world pool)) = before →
  in_view (requestId (resourceOptions cfg)) (host (world pool)) →
  ∃ c w,
    deliver pool i =
      {| tasks := <[i := Settled (Ok tt)]> (tasks pool);
         world := set_host (serve (host (world pool)) c).2 w;
         rejected := rejected pool |} ∧
    stage env cfg before (serve (host (world pool)) c).2 (Settled (Ok tt)).
Proof.
  intros (Hv & Hok & Hnd) Hn Hi Hl Hview. subst before.
  fold (listed (requestId (resourceOptions cfg)) (host (world pool))) in Hi.
  destruct (serve_write_call (comment_payload env cfg) (host (world pool)) Hok Hn Hv Hview)
    as (Hs & Hsee & x & rest & Hx & Hbody & Hrest & _ & Hid).
  cbn [comment_payload payload_resourceOptions] in Hs, Hsee, Hx, Hrest, Hid.
  exists (write_call (comment_payload env cfg)
            (pick_comment_id (listed (requestId (resourceOptions cfg))
                                (host (world pool))))), (world pool).
  split.
  - unfold deliver. rewrite Hi. cbn [first_task publish try_catch bind await].
    rewrite answer_host.
    destruct (serve (host (world pool)) _) as [[y | e] h']; [| discriminate Hs].
    cbn [fst snd start try_catch bind rejection]. by rewrite app_nil_r.
  - right. right. split; [done |]. split; [exact Hsee |]. exists x, rest.
    split; [exact Hx |]. split; [exact Hbody |]. split; [exact Hrest | exact Hid].
Qed.

(** The answer to the listing of the entry: the write is issued. *)
Lemma deliver_listing env (cfg : ConfigOptions) (pool : Pool) (i : nat) :
  requestId (resourceOptions cfg) ∈ issues (host (world pool)) →
  tasks pool !! i = Some (first_task (processComment env cfg)) →
  deliver pool i =
    {| tasks :=
         <[i := first_task
                  (publish env cfg
                     (listed (requestId (resourceOptions cfg)) (host (world pool))))]>
           (tasks pool);
       world :=
         issue (write_call (comment_payload env cfg)
                  (pick_comment_id
                     (listed (requestId (resourceOptions cfg)) (host (world pool)))))
           (world pool);
       rejected := rejected pool |}.
Proof.
  intros Hn Hi. unfold deliver. rewrite Hi.
  cbn [first_task processComment replaceComment getCommentId try_catch bind await].
  rewrite answer_list by done.
  cbn [bind try_catch start rejection]. by rewrite app_nil_r.
Qed.

Lemma deliver_stage env (cfg : ConfigOptions) (before : list Comment) (ns : list Z)
    (i j : nat) (pool : Pool) :
  requestId (resourceOptions cfg) ∉ ns →
  pool_stage env cfg before ns i pool → pool_stage env cfg before ns i (deliver pool j).
Proof.
  intros Hns Hp. pose proof Hp as (Ht & Hn & Hothers & t & Hi & Hst).
  destruct (decide (j = i)) as [-> | Hji].
  - destruct Hst as [(-> & Hl & Hview) | [(-> & Hl & Hview) | [-> Hdone]]].
    + (* the listing is answered *)
      subst before. rewrite (deliver_listing env cfg pool i Hn Hi).
      unfold pool_stage. cbn [world tasks host issue].
      split; [done |]. split; [done |]. split.
      * intros j t Hj. rewrite list_lookup_insert_ne by done. by apply Hothers.
      * eexists. split; [apply list_lookup_insert_eq; by eapply lookup_lt_Some |].
        right. left. by split.
    + (* the write is answered *)
      destruct (deliver_publish env cfg before pool i Ht Hn Hi Hl Hview)
        as (c & w & -> & Hdone).
      unfold pool_stage. cbn [world tasks host set_host].
      split; [by apply serve_tidy |].
      split; [by rewrite (proj1 (serve_frame _ c)) |]. split.
      * intros j t Hj. rewrite list_lookup_insert_ne by done.
        intros Hjt. apply task_owns_serve; [done | by apply (Hothers j)].
      * eexists. split; [apply list_lookup_insert_eq; by eapply lookup_lt_Some |]. done.
    + (* nothing is pending *)
      rewrite deliver_idle; [exact Hp | intros c k; by rewrite Hi].
  - unfold deliver.
    destruct (tasks pool !! j) as [[c k | r0] |] eqn:Hj; [| exact Hp | exact Hp].
    destruct (Hothers j _ Hji Hj) as [Hc Hk].
    rewrite answer_host.
    destruct (start_owns ns (k (serve (host (world pool)) c).1)
                (set_host (serve (host (world pool)) c).2 (world pool))) as [Hh Ht2].
    { simpl. by apply Hk. }
    destruct (start (k (serve (host (world pool)) c).1) _) as [t2 w2].
    unfold pool_stage. simpl in *. rewrite Hh.
    split; [by apply serve_tidy |].
    split; [by rewrite (proj1 (serve_frame _ c)) |]. split.
    + intros j' t' Hj'. destruct (decide (j' = j)) as [-> | Hne].
      * rewrite list_lookup_insert_eq by (by eapply lookup_lt_Some). by intros [= <-].
      * rewrite list_lookup_insert_ne by done.
        intros Hjt. apply task_owns_serve; [done | by apply (Hothers j')].
    + exists t. split; [by rewrite list_lookup_insert_ne |].
      apply (stage_kept env cfg before ns (host (world pool))); [done | | done].
      apply serve_kept; [apply Ht | done].
Qed.

Lemma complete_stage env (cfg : ConfigOptions) (before : list Comment) (ns : list Z)
    (i j : nat) (pool : Pool) :
  requestId (resourceOptions cfg) ∉ ns →
  pool_stage env cfg before ns i pool → pool_stage env cfg before ns i (complete pool j).
Proof.
  intros Hns Hp. destruct (decide (j = i)) as [-> | Hji].
  - (* two answers at most bring the entry to its end *)
    assert (Hwrite : ∀ p, pool_stage env cfg before ns i p →
              tasks p !! i = Some (first_task (publish env cfg (take per_page before))) →
              thread (requestId (resourceOptions cfg)) (host (world p)) = before →
              in_view (requestId (resourceOptions cfg)) (host (world p)) →
              pool_stage env cfg before ns i (complete p i)).
    { intros p Hq Hi Hl Hview. pose proof Hq as (Ht & Hn & _).
      rewrite <- (complete_deliver p i).
      pose proof (deliver_stage env cfg before ns i i p Hns Hq) as Hq1.
      destruct (deliver_publish env cfg before p i Ht Hn Hi Hl Hview)
        as (c & w & Hd & _).
      rewrite complete_idle; [exact Hq1 |].
      intros c' k'. rewrite Hd. cbn [tasks].
      rewrite list_lookup_insert_eq by (by eapply lookup_lt_Some). discriminate. }
    pose proof Hp as (Ht & Hn & _ & t & Hi & Hst).
    destruct Hst as [(-> & Hl & Hview) | [(-> & Hl & Hview) | [-> _]]].
    + rewrite <- (complete_deliver pool i).
      pose proof (deliver_stage env cfg before ns i i pool Hns Hp) as Hp1.
      apply Hwrite; [exact Hp1 | | |].
      * rewrite (deliver_listing env cfg pool i Hn Hi). cbn [tasks].
        unfold listed. rewrite Hl.
        apply list_lookup_insert_eq. by eapply lookup_lt_Some.
      * by rewrite (deliver_listing env cfg pool i Hn Hi).
      * by rewrite (deliver_listing env cfg pool i Hn Hi).
    + by apply Hwrite.
    + rewrite complete_idle; [exact Hp | intros c k; by rewrite Hi].
  - pose proof Hp as (Ht & Hn & Hothers & t & Hi & Hst). unfold complete.
    destruct (tasks pool !! j) as [[c k | r0] |] eqn:Hj; [| exact Hp | exact Hp].
    destruct (Hothers j _ Hji Hj) as [Hc Hk].
    rewrite answer_host.
    destruct (exec_owns ns (k (serve (host (world pool)) c).1)
                (set_host (serve (host (world pool)) c).2 (world pool)))
      as (Ht2 & Ho2 & Hm2).
    { simpl. by apply serve_tidy. }
    { simpl. by apply Hk. }
    pose proof (exec_issues (k (serve (host (world pool)) c).1)
                  (set_host (serve (host (world pool)) c).2 (world pool))) as Hi2.
    destruct (exec (k (serve (host (world pool)) c).1) _) as [r2 w2].
    unfold pool_stage. simpl in *.
    split; [done |].
    split; [by rewrite Hi2, (proj1 (serve_frame _ c)) |]. split.
    + intros j' t' Hj'. destruct (decide (j' = j)) as [-> | Hne].
      * rewrite list_lookup_insert_eq by (by eapply lookup_lt_Some). by intros [= <-].
      * rewrite list_lookup_insert_ne by done.
        intros Hjt. apply Hm2. apply task_owns_serve; [done | by apply (Hothers j')].
    + exists t. split; [by rewrite list_lookup_insert_ne |].
      apply (stage_kept env cfg before ns (host (world pool))); [done | | done].
      rewrite Ho2. apply serve_kept; [apply Ht | done].
Qed.

Lemma settle_stage env (cfg : ConfigOptions) (before : list Comment) (ns : list Z)
    (i : nat) (schedule : list nat) (pool : Pool) :
  requestId (resourceOptions cfg) ∉ ns →
  pool_stage env cfg before ns i pool →
  pool_stage env cfg before ns i (drain (foldl deliver pool schedule)).
Proof.
  intros Hns Hp. unfold drain.
  assert (Hd : ∀ l p, pool_stage env cfg before ns i p →
                      pool_stage env cfg before ns i (foldl deliver p l)).
  { induction l as [| j l IH]; intros p Hq; [done |]. simpl.
    apply IH. by apply deliver_stage. }
  assert (Hc : ∀ l p, pool_stage env cfg before ns i p →
                      pool_stage env cfg before ns i (foldl complete p l)).
  { induction l as [| j l IH]; intros p Hq; [done |]. simpl.
    apply IH. by apply complete_stage. }
  apply Hc, Hd, Hp.
Qed.

(** The pool of a launched batch, as the entry at index [length pre] and
    the entries around it see it. *)
Lemma launch_stage env (pre post : list PartialConfigOptions)
    (entry : PartialConfigOptions) (cfg : ConfigOptions) (w : World) :
  buildConfigOptions env entry = Ok cfg →
  tidy (host w) →
  requestId (resourceOptions cfg) ∈ issues (host w) →
  in_view (requestId (resourceOptions cfg)) (host w) →
  pool_stage env cfg (thread (requestId (resourceOptions cfg)) (host w))
    (targets env (pre ++ post)) (length pre)
    (foldl launch (empty_pool w) (getOperationStatus env <$> pre ++ entry :: post)).
Proof.
  intros Hb Ht Hn Hview.
  destruct (launch_tasks (getOperationStatus env <$> pre ++ entry :: post) (empty_pool w))
    as [Hts Hh].
  unfold pool_stage. rewrite Hts, Hh. cbn [empty_pool tasks world app].
  split; [done |]. split; [done |]. split.
  - intros j t Hj. rewrite !list_lookup_fmap.
    destruct ((pre ++ entry :: post) !! j) as [o |] eqn:Ho; [| discriminate].
    simpl. intros [= <-]. apply first_task_owns, owns_getOperationStatus.
    intros cfg' Hb'. apply (targets_elem_of env _ o cfg'); [| done].
    apply list_elem_of_lookup_2 in Ho as Hin.
    destruct (decide (j < length pre)%nat) as [Hlt | Hge].
    + rewrite lookup_app_l in Ho by done.
      apply elem_of_app. left. by eapply list_elem_of_lookup_2.
    + rewrite lookup_app_r in Ho by lia.
      destruct (j - length pre)%nat as [| j'] eqn:Hsub; [lia |].
      simpl in Ho. apply elem_of_app. right. by eapply list_elem_of_lookup_2.
  - exists (first_task (processComment env cfg)). split.
    + rewrite !list_lookup_fmap, list_lookup_middle by done. simpl.
      unfold getOperationStatus. by rewrite Hb.
    + by left.
Qed.
(** ** The ledger of a pool *)

Lemma start_runs (m : Prog unit) (w : World) :
  ∃ new,
    trace (start m w).2 = trace w ++ new ∧
    ∀ h', task_rest (start m w).1 h' → runs m (new ++ h').
Proof.
  revert w. induction m as [a | e | entry k IH | c k IH]; intros w; simpl.
  - exists []. by rewrite app_nil_r.
  - exists []. by rewrite app_nil_r.
  - apply (IH (write_log entry w)).
  - exists [c]. split; [done |]. intros h' Hr. by exists h'.
Qed.

Lemma exec_runs {A} (m : Prog A) (w : World) :
  ∃ new, trace (exec m w).2 = trace w ++ new ∧ runs m new.
Proof.
  revert w. induction m as [a | e | entry k IH | c k IH]; intros w; simpl.
  - exists []. by rewrite app_nil_r.
  - exists []. by rewrite app_nil_r.
  - apply (IH (write_log entry w)).
  - pose proof (proj1 (answer_trace c (issue c w))) as Ha.
    destruct (answer c (issue c w)) as [r w']. simpl in Ha.
    destruct (IH r w') as (new & Ht & Hr).
    exists (c :: new). split.
    + by rewrite Ht, Ha, <- app_assoc.
    + exists new. split; [done | by exists r].
Qed.

Lemma concat_insert_app {A} (ls : list (list A)) (i : nat) (l new : list A) :
  ls !! i = Some l → concat (<[i := l ++ new]> ls) ≡ₚ concat ls ++ new.
Proof.
  revert i. induction ls as [| x ls IH]; intros i Hi; [done |].
  destruct i as [| i]; simpl in *.
  - injection Hi as ->. by rewrite <- !app_assoc, (Permutation_app_comm new).
  - by rewrite (IH i Hi), app_assoc.
Qed.

Lemma ledger_empty (w : World) : ledger [] (trace w) (empty_pool w).
Proof.
  exists [], []. simpl. rewrite app_nil_r.
  split; [done |]. split; [done |]. split; [done |]. split; [done |].
  intros i m t h Hi. discriminate Hi.
Qed.

Lemma launch_ledger (ms : list (Prog unit)) (t0 : list ApiCall) (pool : Pool)
    (m : Prog unit) :
  ledger ms t0 pool → ledger (ms ++ [m]) t0 (launch pool m).
Proof.
  intros (hist & added & Ht & Hp & Hlt & Hlh & Hall). unfold launch.
  destruct (start_runs m (world pool)) as (new & Hnew & Hrest).
  destruct (start m (world pool)) as [t w']. simpl in *.
  exists (hist ++ [new]), (added ++ new). cbn [world tasks].
  split; [by rewrite Hnew, Ht, app_assoc |].
  split; [by rewrite concat_app, Hp; simpl; rewrite app_nil_r |].
  split; [rewrite !length_app; simpl; lia |].
  split; [rewrite !length_app; simpl; lia |].
  intros i m0 t0' h Hm Ht0 Hh.
  destruct (decide (i < length ms)%nat) as [Hi | Hge].
  - rewrite lookup_app_l in Hm by lia. rewrite lookup_app_l in Ht0 by lia.
    rewrite lookup_app_l in Hh by lia. by eapply Hall.
  - rewrite lookup_app_r in Hm by lia. rewrite lookup_app_r in Ht0 by lia.
    rewrite lookup_app_r in Hh by lia.
    rewrite Hlt, Hlh in *.
    destruct (i - length ms)%nat; simpl in *; [| discriminate].
    injection Hm as <-. injection Ht0 as <-. injection Hh as <-. exact Hrest.
Qed.

Lemma deliver_ledger (ms : list (Prog unit)) (t0 : list ApiCall) (pool : Pool) (i : nat) :
  ledger ms t0 pool → ledger ms t0 (deliver pool i).
Proof.
  intros Hl. pose proof Hl as (hist & added & Ht & Hp & Hlt & Hlh & Hall).
  unfold deliver.
  destruct (tasks pool !! i) as [[c k | r0] |] eqn:Hi; [| exact Hl | exact Hl].
  pose proof (proj1 (answer_trace c (world pool))) as Ha.
  destruct (answer c (world pool)) as [r w]. simpl in Ha.
  destruct (start_runs (k r) w) as (new & Hnew & Hrest).
  destruct (start (k r) w) as [t w2]. simpl in *.
  assert (Hih : ∃ h, hist !! i = Some h).
  { apply lookup_lt_is_Some. rewrite Hlh, <- Hlt. by eapply lookup_lt_Some. }
  destruct Hih as [h Hh].
  assert (Him : ∃ m, ms !! i = Some m).
  { apply lookup_lt_is_Some. rewrite <- Hlt. by eapply lookup_lt_Some. }
  destruct Him as [m Hm].
  exists (<[i := h ++ new]> hist), (added ++ new). cbn [world tasks].
  split; [by rewrite Hnew, Ha, Ht, app_assoc |].
  split; [by rewrite (concat_insert_app hist i h new Hh), Hp |].
  split; [by rewrite length_insert |].
  split; [by rewrite length_insert |].
  intros j m0 t0' h0 Hm0 Ht0 Hh0.
  destruct (decide (j = i)) as [-> | Hne].
  - rewrite list_lookup_insert_eq in Ht0 by (by eapply lookup_lt_Some).
    rewrite list_lookup_insert_eq in Hh0 by (by eapply lookup_lt_Some).
    injection Ht0 as <-. injection Hh0 as <-. rewrite Hm in Hm0. injection Hm0 as <-.
    intros h' Hr. rewrite <- app_assoc.
    apply (Hall i m (Pending c k) h Hm Hi Hh). exists r. by apply Hrest.
  - rewrite list_lookup_insert_ne in Ht0 by done.
    rewrite list_lookup_insert_ne in Hh0 by done. by eapply Hall.
Qed.

Lemma complete_ledger (ms : list (Prog unit)) (t0 : list ApiCall) (pool : Pool) (i : nat) :
  ledger ms t0 pool → ledger ms t0 (complete pool i).
Proof.
  intros Hl. pose proof Hl as (hist & added & Ht & Hp & Hlt & Hlh & Hall).
  unfold complete.
  destruct (tasks pool !! i) as [[c k | r0] |] eqn:Hi; [| exact Hl | exact Hl].
  pose proof (proj1 (answer_trace c (world pool))) as Ha.
  destruct (answer c (world pool)) as [r w]. simpl in Ha.
  destruct (exec_runs (k r) w) as (new & Hnew & Hruns).
  destruct (exec (k r) w) as [r2 w2]. simpl in *.
  assert (Hih : ∃ h, hist !! i = Some h).
  { apply lookup_lt_is_Some. rewrite Hlh, <- Hlt. by eapply lookup_lt_Some. }
  destruct Hih as [h Hh].
  assert (Him : ∃ m, ms !! i = Some m).
  { apply lookup_lt_is_Some. rewrite <- Hlt. by eapply lookup_lt_Some. }
  destruct Him as [m Hm].
  exists (<[i := h ++ new]> hist), (added ++ new). cbn [world tasks].
  split; [by rewrite Hnew, Ha, Ht, app_assoc |].
  split; [by rewrite (concat_insert_app hist i h new Hh), Hp |].
  split; [by rewrite length_insert |].
  split; [by rewrite length_insert |].
  intros j m0 t0' h0 Hm0 Ht0 Hh0.
  destruct (decide (j = i)) as [-> | Hne].
  - rewrite list_lookup_insert_eq in Ht0 by (by eapply lookup_lt_Some).
    rewrite list_lookup_insert_eq in Hh0 by (by eapply lookup_lt_Some).
    injection Ht0 as <-. injection Hh0 as <-. rewrite Hm in Hm0. injection Hm0 as <-.
    intros h' ->. rewrite app_nil_r.
    apply (Hall i m (Pending c k) h Hm Hi Hh). by exists r.
  - rewrite list_lookup_insert_ne in Ht0 by done.
    rewrite list_lookup_insert_ne in Hh0 by done. by eapply Hall.
Qed.

Lemma foldl_launch_ledger (ms new : list (Prog unit)) (t0 : list ApiCall) (pool : Pool) :
  ledger ms t0 pool → ledger (ms ++ new) t0 (foldl launch pool new).
Proof.
  revert ms pool. induction new as [| m new IH]; intros ms pool Hl; simpl.
  - by rewrite app_nil_r.
  - rewrite (cons_middle m ms new), app_assoc. by apply IH, launch_ledger.
Qed.

(** When the pool has run, the calls added to the trace are, in some order,
    those of one run to its end of each program. *)
Lemma run_pool_ledger (schedule : list nat) (ms : list (Prog unit)) (w : World) :
  ∃ hist added,
    trace (world (run_pool schedule ms w)) = trace w ++ added ∧
    added ≡ₚ concat hist ∧
    Forall2 runs ms hist.
Proof.
  assert (Hd : ∀ l p, ledger ms (trace w) p → ledger ms (trace w) (foldl deliver p l)).
  { induction l as [| j l IH]; intros p Hq; [done |]. simpl.
    by apply IH, deliver_ledger. }
  assert (Hc : ∀ l p, ledger ms (trace w) p → ledger ms (trace w) (foldl complete p l)).
  { induction l as [| j l IH]; intros p Hq; [done |]. simpl.
    by apply IH, complete_ledger. }
  pose proof (foldl_launch_ledger [] ms (trace w) (empty_pool w) (ledger_empty w)) as H0.
  rewrite app_nil_l in H0.
  pose proof (Hc (seq 0 (length (tasks (foldl deliver (foldl launch (empty_pool w) ms)
                                          schedule))))
                _ (Hd schedule _ H0)) as (hist & added & Ht & Hp & Hlt & Hlh & Hall).
  fold (drain (foldl deliver (foldl launch (empty_pool w) ms) schedule)) in *.
  fold (run_pool schedule ms w) in *.
  exists hist, added. split; [exact Ht |]. split; [exact Hp |].
  apply Forall2_same_length_lookup_2; [by rewrite Hlh |].
  intros i m h Hm Hh.
  assert (Hit : ∃ t, tasks (run_pool schedule ms w) !! i = Some t).
  { apply lookup_lt_is_Some. rewrite Hlt. by eapply lookup_lt_Some. }
  destruct Hit as [t Hi].
  pose proof (run_pool_settled schedule ms w) as Hs.
  pose proof (Forall_lookup_1 _ _ _ _ Hs Hi) as Hset. simpl in Hset.
  destruct t as [c k | r]; [discriminate |].
  rewrite <- (app_nil_r h). by apply (Hall i m (Settled r) h Hm Hi Hh).
Qed.

(** One run of a pipeline: nothing when the entry does not resolve; else
    the listing, followed by one write unless the listing was rejected. *)
Lemma runs_getOperationStatus env (entry : PartialConfigOptions) (h : list ApiCall) :
  runs (getOperationStatus env entry) h →
  ∃ slot, written env entry slot ∧
          h = option_list (listing env entry) ++ option_list slot.
Proof.
  unfold getOperationStatus, listing, written.
  destruct (buildConfigOptions env entry) as [cfg | e] eqn:Hb; simpl.
  - intros (h' & -> & r & Hr). destruct r as [cs | e]; simpl in Hr.
    + destruct Hr as (h'' & -> & r2 & Hr2).
      exists (Some (write_call (comment_payload env cfg) (pick_comment_id cs))).
      split; [by exists cfg, (pick_comment_id cs) |].
      destruct r2 as [x | e2]; simpl in Hr2; by subst.
    + exists None. split; [done |]. by subst.
  - intros ->. by exists None.
Qed.
(** ** The caller that watches the pool *)

Lemma follows_answer (l1 l2 : list LogEntry) (c : ApiCall) (w1 w2 : World) :
  follows l1 l2 w1 w2 →
  (answer c w1).1 = (answer c w2).1 ∧ follows l1 l2 (answer c w1).2 (answer c w2).2.
Proof.
  intros (Hh & Ht & new & H1 & H2). rewrite !answer_host, Hh. simpl.
  split; [done |]. split; [done |]. split; [done |]. by exists new.
Qed.

Lemma follows_issue (l1 l2 : list LogEntry) (c : ApiCall) (w1 w2 : World) :
  follows l1 l2 w1 w2 → follows l1 l2 (issue c w1) (issue c w2).
Proof.
  intros (Hh & Ht & new & H1 & H2). unfold follows. simpl.
  rewrite Hh, Ht. split; [done |]. split; [done |]. by exists new.
Qed.

Lemma follows_write_log (l1 l2 : list LogEntry) (entry : LogEntry) (w1 w2 : World) :
  follows l1 l2 w1 w2 → follows l1 l2 (write_log entry w1) (write_log entry w2).
Proof.
  intros (Hh & Ht & new & H1 & H2). unfold follows. simpl.
  split; [done |]. split; [done |]. exists (new ++ [entry]).
  by rewrite H1, H2, !app_assoc.
Qed.

Lemma follows_start (l1 l2 : list LogEntry) (m : Prog unit) (w1 w2 : World) :
  follows l1 l2 w1 w2 →
  (start m w1).1 = (start m w2).1 ∧ follows l1 l2 (start m w1).2 (start m w2).2.
Proof.
  revert w1 w2. induction m as [a | e | entry k IH | c k IH]; intros w1 w2 Hf; simpl.
  - done.
  - done.
  - by apply IH, follows_write_log.
  - split; [done | by apply follows_issue].
Qed.

Lemma follows_exec {A} (l1 l2 : list LogEntry) (m : Prog A) (w1 w2 : World) :
  follows l1 l2 w1 w2 →
  (exec m w1).1 = (exec m w2).1 ∧ follows l1 l2 (exec m w1).2 (exec m w2).2.
Proof.
  revert w1 w2. induction m as [a | e | entry k IH | c k IH]; intros w1 w2 Hf; simpl.
  - done.
  - done.
  - by apply IH, follows_write_log.
  - destruct (follows_answer l1 l2 c _ _ (follows_issue l1 l2 c w1 w2 Hf)) as [Hr Hw].
    destruct (answer c (issue c w1)) as [r1 w1'].
    destruct (answer c (issue c w2)) as [r2 w2']. simpl in *. subst r2.
    by apply IH.
Qed.

Lemma follows_deliver (l1 l2 : list LogEntry) (p1 p2 : Pool) (i : nat) :
  pool_follows l1 l2 p1 p2 → pool_follows l1 l2 (deliver p1 i) (deliver p2 i).
Proof.
  intros Hp. pose proof Hp as (Ht & Hr & Hw). unfold deliver. rewrite Ht.
  destruct (tasks p2 !! i) as [[c k | r0] |]; [| exact Hp | exact Hp].
  destruct (follows_answer l1 l2 c _ _ Hw) as [Ha Hw'].
  destruct (answer c (world p1)) as [r1 w1].
  destruct (answer c (world p2)) as [r2 w2]. simpl in *. subst r2.
  destruct (follows_start l1 l2 (k r1) w1 w2 Hw') as [Hs Hw''].
  destruct (start (k r1) w1) as [t1 w1'].
  destruct (start (k r1) w2) as [t2 w2']. simpl in *. subst t2.
  split; [done |]. split; [by rewrite Hr | done].
Qed.

Lemma follows_complete (l1 l2 : list LogEntry) (p1 p2 : Pool) (i : nat) :
  pool_follows l1 l2 p1 p2 → pool_follows l1 l2 (complete p1 i) (complete p2 i).
Proof.
  intros Hp. pose proof Hp as (Ht & Hr & Hw). unfold complete. rewrite Ht.
  destruct (tasks p2 !! i) as [[c k | r0] |]; [| exact Hp | exact Hp].
  destruct (follows_answer l1 l2 c _ _ Hw) as [Ha Hw'].
  destruct (answer c (world p1)) as [r1 w1].
  destruct (answer c (world p2)) as [r2 w2]. simpl in *. subst r2.
  destruct (follows_exec l1 l2 (k r1) w1 w2 Hw') as [Hs Hw''].
  destruct (exec (k r1) w1) as [t1 w1'].
  destruct (exec (k r1) w2) as [t2 w2']. simpl in *. subst t2.
  split; [done |]. split; [by rewrite Hr | done].
Qed.

(** The handler runs once: not before the first rejection and not after. *)
Lemma notify_first (handler : Error → World → World) (before after : Pool)
    (e : Error) (more : list Error) :
  rejected before = [] → rejected after = e :: more →
  notify handler before after =
    {| tasks := tasks after; world := handler e (world after);
       rejected := rejected after |}.
Proof. intros Hb Ha. unfold notify. by rewrite Hb, Ha. Qed.

Lemma notify_none (handler : Error → World → World) (before after : Pool) :
  rejected after = [] → notify handler before after = after.
Proof. intros Ha. unfold notify. rewrite Ha. by destruct (rejected before). Qed.

Lemma notify_later (handler : Error → World → World) (before after : Pool) :
  rejected before ≠ [] → notify handler before after = after.
Proof. intros Hb. unfold notify. by destruct (rejected before). Qed.

(** *** Quiet programs *)

Lemma just_after_refl (l : list LogEntry) : just_after l l.
Proof. exists []. split; [by rewrite app_nil_r | simpl; lia]. Qed.

Lemma start_quiet (m : Prog unit) (w : World) :
  quiet m →
  task_quiet (start m w).1 ∧
  just_after (log w) (log (start m w).2) ∧
  (rejection (start m w).1 = [] → log (start m w).2 = log w).
Proof.
  destruct m as [a | e | entry k | c k]; simpl.
  - intros _. split; [done |]. split; [apply just_after_refl | done].
  - intros _. split; [done |]. split; [apply just_after_refl | done].
  - intros [e ->]. simpl. split; [done |]. split; [by exists [entry] | done].
  - intros Hk. split; [done |]. split; [apply just_after_refl | done].
Qed.

Lemma start_muted (m : Prog unit) (w : World) :
  muted m → task_quiet (start m w).1 ∧ log (start m w).2 = log w.
Proof. destruct m as [a | e | entry k | c k]; simpl; done. Qed.

Lemma exec_quiet {A} (m : Prog A) (w : World) :
  quiet m →
  just_after (log w) (log (exec m w).2) ∧
  (is_Ok (exec m w).1 = true → log (exec m w).2 = log w).
Proof.
  revert w. induction m as [a | e | entry k IH | c k IH]; intros w; simpl.
  - intros _. split; [apply just_after_refl | done].
  - intros _. split; [apply just_after_refl | done].
  - intros [e ->]. simpl. split; [by exists [entry] | done].
  - intros Hk. pose proof (proj2 (answer_trace c (issue c w))) as Ha.
    destruct (answer c (issue c w)) as [r w']. simpl in Ha.
    specialize (IH r w' (Hk r)). by rewrite Ha in IH.
Qed.

Lemma launch_quiet (l0 : list LogEntry) (ms : list (Prog unit)) (pool : Pool) :
  Forall muted ms →
  Forall task_quiet (tasks pool) → log (world pool) = l0 →
  Forall task_quiet (tasks (foldl launch pool ms)) ∧
  log (world (foldl launch pool ms)) = l0.
Proof.
  intros Hms. revert pool. induction Hms as [| m ms Hm _ IH]; intros pool Ht Hl; [done |].
  simpl. apply IH; unfold launch;
    destruct (start_muted m (world pool) Hm) as [Hq Hlog];
    destruct (start m (world pool)) as [t w]; simpl in *.
  - apply Forall_app. split; [done | by apply Forall_singleton].
  - by rewrite Hlog.
Qed.

Lemma deliver_quiet (l0 : list LogEntry) (pool : Pool) (i : nat) :
  pool_quiet l0 pool →
  pool_quiet l0 (deliver pool i) ∧
  (rejected pool = [] → just_after l0 (log (world (deliver pool i)))).
Proof.
  intros [Ht Hl]. unfold deliver.
  destruct (tasks pool !! i) as [[c k | r0] |] eqn:Hi.
  - pose proof (Forall_lookup_1 _ _ _ _ Ht Hi) as Hk. simpl in Hk.
    pose proof (proj2 (answer_trace c (world pool))) as Ha.
    destruct (answer c (world pool)) as [r w]. simpl in Ha.
    destruct (start_quiet (k r) w (Hk r)) as (Hq & Hafter & Hsame).
    destruct (start (k r) w) as [t w2]. simpl in *. rewrite Ha in Hafter, Hsame.
    split; [split |].
    + by apply Forall_insert.
    + simpl. intros Hr. apply app_eq_nil in Hr as [Hr Hrt].
      by rewrite (Hsame Hrt), (Hl Hr).
    + simpl. intros Hr. by rewrite <- (Hl Hr).
  - split; [done |]. intros Hr. rewrite (Hl Hr). apply just_after_refl.
  - split; [done |]. intros Hr. rewrite (Hl Hr). apply just_after_refl.
Qed.

Lemma complete_quiet (l0 : list LogEntry) (pool : Pool) (i : nat) :
  pool_quiet l0 pool →
  pool_quiet l0 (complete pool i) ∧
  (rejected pool = [] → just_after l0 (log (world (complete pool i)))).
Proof.
  intros [Ht Hl]. unfold complete.
  destruct (tasks pool !! i) as [[c k | r0] |] eqn:Hi.
  - pose proof (Forall_lookup_1 _ _ _ _ Ht Hi) as Hk. simpl in Hk.
    pose proof (proj2 (answer_trace c (world pool))) as Ha.
    destruct (answer c (world pool)) as [r w]. simpl in Ha.
    destruct (exec_quiet (k r) w (Hk r)) as (Hafter & Hsame).
    destruct (exec (k r) w) as [r2 w2]. simpl in *. rewrite Ha in Hafter, Hsame.
    split; [split |].
    + by apply Forall_insert.
    + simpl. intros Hr. apply app_eq_nil in Hr as [Hr Hrt].
      rewrite <- (Hl Hr). apply Hsame. by destruct r2.
    + simpl. intros Hr. by rewrite <- (Hl Hr).
  - split; [done |]. intros Hr. rewrite (Hl Hr). apply just_after_refl.
  - split; [done |]. intros Hr. rewrite (Hl Hr). apply just_after_refl.
Qed.

(** The pipelines are quiet. *)
Lemma muted_getOperationStatus env (entry : PartialConfigOptions) :
  muted (getOperationStatus env entry).
Proof.
  unfold getOperationStatus.
  destruct (buildConfigOptions env entry) as [cfg | e]; simpl; [| done].
  intros [cs | e]; simpl; [| by eexists].
  intros [x | e]; simpl; [done | by eexists].
Qed.

(** *** The handler *)

Lemma notify_reported (before after : Pool) (e : Error) (more : list Error) :
  rejected before = [] → rejected after = e :: more →
  reported (log (world after)) e (notify setFailed before after) after.
Proof.
  intros Hb Ha. rewrite (notify_first setFailed before after e more Hb Ha).
  split; [by exists more |].
  split; [done |]. split; [done |]. split; [done |]. split; [done |].
  exists []. by rewrite !app_nil_r.
Qed.

Lemma reported_step (step : Pool → nat → Pool) (l1 : list LogEntry) (e : Error)
    (p1 p2 : Pool) (i : nat) :
  (∀ l l' q1 q2, pool_follows l l' q1 q2 → pool_follows l l' (step q1 i) (step q2 i)) →
  (∀ q, rejected q `prefix_of` rejected (step q i)) →
  reported l1 e p1 p2 →
  reported l1 e (notify setFailed p1 (step p1 i)) (step p2 i).
Proof.
  intros Hstep Hrej [[more Hr] Hf].
  rewrite notify_later by (destruct Hf as (_ & -> & _); by rewrite Hr).
  split; [| by apply Hstep].
  destruct (Hrej p2) as [more' ->]. rewrite Hr. by exists (more ++ more').
Qed.

Lemma watches_step (step : Pool → nat → Pool) (l0 : list LogEntry)
    (p1 p2 : Pool) (i : nat) :
  (∀ l l' q1 q2, pool_follows l l' q1 q2 → pool_follows l l' (step q1 i) (step q2 i)) →
  (∀ q, rejected q `prefix_of` rejected (step q i)) →
  (∀ q, pool_quiet l0 q →
        pool_quiet l0 (step q i) ∧
        (rejected q = [] → just_after l0 (log (world (step q i))))) →
  watches l0 p1 p2 → watches l0 (notify setFailed p1 (step p1 i)) (step p2 i).
Proof.
  intros Hstep Hrej Hquiet [Hq [[Hr ->] | (l1 & e & Hl1 & Hrep)]];
    destruct (Hquiet p2 Hq) as [Hq' Hafter]; (split; [exact Hq' |]).
  - destruct (rejected (step p2 i)) as [| e more] eqn:Ha.
    + left. split; [done | by apply notify_none].
    + right. exists (log (world (step p2 i))), e.
      split; [by apply Hafter | by eapply notify_reported].
  - right. exists l1, e. split; [exact Hl1 | by apply reported_step].
Qed.

Lemma watches_tasks (l0 : list LogEntry) (p1 p2 : Pool) :
  watches l0 p1 p2 → tasks p1 = tasks p2.
Proof. intros [_ [[_ ->] | (l1 & e & _ & _ & Ht & _)]]; done. Qed.

Lemma reported_settle (l1 : list LogEntry) (e : Error) (schedule : list nat)
    (p1 p2 : Pool) :
  reported l1 e p1 p2 →
  reported l1 e
    (foldl (λ pool i, notify setFailed pool (complete pool i))
       (foldl (λ pool i, notify setFailed pool (deliver pool i)) p1 schedule)
       (seq 0 (length (tasks
          (foldl (λ pool i, notify setFailed pool (deliver pool i)) p1 schedule)))))
    (drain (foldl deliver p2 schedule)).
Proof.
  intros Hp.
  assert (Hd : ∀ l q1 q2, reported l1 e q1 q2 →
            reported l1 e (foldl (λ pool i, notify setFailed pool (deliver pool i)) q1 l)
              (foldl deliver q2 l)).
  { induction l as [| i l IH]; intros q1 q2 Hq; [done |]. simpl. apply IH.
    apply (reported_step deliver); [intros; by apply follows_deliver | | done].
    intros q. apply deliver_rejected. }
  assert (Hc : ∀ l q1 q2, reported l1 e q1 q2 →
            reported l1 e (foldl (λ pool i, notify setFailed pool (complete pool i)) q1 l)
              (foldl complete q2 l)).
  { induction l as [| i l IH]; intros q1 q2 Hq; [done |]. simpl. apply IH.
    apply (reported_step complete); [intros; by apply follows_complete | | done].
    intros q. apply complete_rejected. }
  pose proof (Hd schedule p1 p2 Hp) as H1.
  unfold drain. destruct H1 as [Hr (Ht & Hrest)] eqn:E. rewrite Ht.
  apply Hc. split; [exact Hr |]. by split.
Qed.

Lemma watches_settle (l0 : list LogEntry) (schedule : list nat) (p1 p2 : Pool) :
  watches l0 p1 p2 →
  watches l0
    (foldl (λ pool i, notify setFailed pool (complete pool i))
       (foldl (λ pool i, notify setFailed pool (deliver pool i)) p1 schedule)
       (seq 0 (length (tasks
          (foldl (λ pool i, notify setFailed pool (deliver pool i)) p1 schedule)))))
    (drain (foldl deliver p2 schedule)).
Proof.
  intros Hp.
  assert (Hd : ∀ l q1 q2, watches l0 q1 q2 →
            watches l0 (foldl (λ pool i, notify setFailed pool (deliver pool i)) q1 l)
              (foldl deliver q2 l)).
  { induction l as [| i l IH]; intros q1 q2 Hq; [done |]. simpl. apply IH.
    apply (watches_step deliver); [intros; by apply follows_deliver | | | done].
    - intros q. apply deliver_rejected.
    - intros q. apply deliver_quiet. }
  assert (Hc : ∀ l q1 q2, watches l0 q1 q2 →
            watches l0 (foldl (λ pool i, notify setFailed pool (complete pool i)) q1 l)
              (foldl complete q2 l)).
  { induction l as [| i l IH]; intros q1 q2 Hq; [done |]. simpl. apply IH.
    apply (watches_step complete); [intros; by apply follows_complete | | | done].
    - intros q. apply complete_rejected.
    - intros q. apply complete_quiet. }
  pose proof (Hd schedule p1 p2 Hp) as H1.
  unfold drain. rewrite (watches_tasks _ _ _ H1). by apply Hc.
Qed.

(** The watched pool of programs that write nothing as they start, and
    their pool. *)
Lemma watched_pool_watches (schedule : list nat) (ms : list (Prog unit)) (w : World) :
  Forall muted ms →
  watches (log w) (watched_pool setFailed schedule ms w) (run_pool schedule ms w).
Proof.
  intros Hms. unfold watched_pool, run_pool. cbn zeta.
  apply watches_settle.
  destruct (launch_quiet (log w) ms (empty_pool w) Hms) as [Hq Hl]; [done | done |].
  split; [by split |].
  destruct (rejected (foldl launch (empty_pool w) ms)) as [| e more] eqn:Hr.
  - left. split; [done | by apply notify_none].
  - right. exists (log w), e. split; [apply just_after_refl |].
    rewrite <- Hl. by eapply notify_reported.
Qed.

(** When a pipeline is rejected as it is launched, the report is the first
    line the run adds to the log. *)
Lemma watched_pool_reported (schedule : list nat) (ms : list (Prog unit)) (w : World)
    (e : Error) (more : list Error) :
  rejected (foldl launch (empty_pool w) ms) = e :: more →
  reported (log (world (foldl launch (empty_pool w) ms))) e
    (watched_pool setFailed schedule ms w) (run_pool schedule ms w).
Proof.
  intros Hr. unfold watched_pool, run_pool. cbn zeta.
  apply reported_settle. by eapply notify_reported.
Qed.

(** ** The batch under every schedule *)

Lemma omap_cons_list {A B} (f : A → option B) (x : A) (l : list A) :
  omap f (x :: l) = option_list (f x) ++ omap f l.
Proof.
  change (omap f (x :: l))
    with (match f x with Some y => y :: omap f l | None => omap f l end).
  by destruct (f x).
Qed.

(** The calls of the runs of a batch, sorted into listings and writes. *)
Lemma runs_slots env (options : list PartialConfigOptions) (hist : list (list ApiCall)) :
  Forall2 (λ entry h, runs (getOperationStatus env entry) h) options hist →
  ∃ slots,
    Forall2 (written env) options slots ∧
    concat hist ≡ₚ omap (listing env) options ++ omap id slots.
Proof.
  induction 1 as [| entry h options hist Hr _ (slots & Hs & Hp)].
  - by exists [].
  - destruct (runs_getOperationStatus env entry h Hr) as (slot & Hw & ->).
    exists (slot :: slots). split; [by constructor |].
    rewrite !omap_cons_list. cbn [concat id]. rewrite Hp, <- !app_assoc.
    f_equiv. rewrite !app_assoc. f_equiv. apply Permutation_app_comm.
Qed.

(** X1.  Whatever the batch, the schedule and the host, [executeOperation]
    first issues the listing of every entry that resolves, in the order of
    the batch, and only then write calls: in some order, at most one for
    each entry, which is then a write call of the descriptor that entry
    resolves to. *)
Theorem executeOperation_lists_then_writes env (schedule : list nat)
    (options : list PartialConfigOptions) (w : World) :
  ∃ writes slots,
    trace (executeOperation env schedule options w).2 =
      trace w ++ omap (listing env) options ++ writes ∧
    Forall2 (written env) options slots ∧
    writes ≡ₚ omap id slots.
Proof.
  unfold executeOperation, executeOperation_pool. cbn [snd].
  destruct (launch_batch env options (empty_pool w)) as (ts & Hl & Hts).
  pose proof (settle_always (λ c, is_write c = true) schedule
                (foldl launch (empty_pool w) (getOperationStatus env <$> options))) as Hs.
  rewrite Hl in Hs at 1 2. cbn [tasks world trace empty_pool app] in Hs.
  destruct (Hs Hts) as (writes & Ht & _).
  fold (run_pool schedule (getOperationStatus env <$> options) w) in Ht.
  destruct (run_pool_ledger schedule (getOperationStatus env <$> options) w)
    as (hist & added & Ha & Hp & Hruns).
  rewrite Forall2_fmap_l in Hruns.
  destruct (runs_slots env options hist Hruns) as (slots & Hslots & Hc).
  exists writes, slots. split; [by rewrite Ht, app_assoc |]. split; [exact Hslots |].
  rewrite Ht, <- app_assoc in Ha. apply app_inv_head in Ha. subst added.
  rewrite Hc in Hp. by apply Permutation_app_inv_l in Hp.
Qed.

(** X2.  Whatever the batch, the schedule and the host, every call that
    [executeOperation] issues is a call of an entry of the batch that
    resolves: it is addressed to [github.context.repo], a listing or a
    creation is on the issue of that entry, and a written body is the body
    built for that entry. *)
Theorem executeOperation_calls_of_batch env (schedule : list nat)
    (options : list PartialConfigOptions) (w : World) :
  ∃ added,
    trace (executeOperation env schedule options w).2 = trace w ++ added ∧
    Forall (call_of_batch env options) added.
Proof.
  unfold executeOperation, executeOperation_pool, run_pool, drain. cbn [snd].
  assert (H0 : pool_always (call_of_batch env options) (trace w) (empty_pool w)).
  { split; [done |]. exists []. by rewrite app_nil_r. }
  assert (Hms : Forall (always (call_of_batch env options))
                  (getOperationStatus env <$> options)).
  { apply Forall_fmap, Forall_forall. intros entry Hin.
    by apply always_getOperationStatus. }
  pose proof (foldl_launch_always _ _ _ _ Hms H0) as H1.
  pose proof (foldl_deliver_always _ _ schedule _ H1) as H2.
  apply (foldl_complete_always _ _ _ _ H2).
Qed.

Lemma omap_invalid_resolves env (options : list PartialConfigOptions) :
  Forall (resolves env) options → omap (invalid env) options = [].
Proof.
  induction 1 as [| entry options He _ IH]; [done |].
  change (omap (invalid env) (entry :: options))
    with (match invalid env entry with
          | Some y => y :: omap (invalid env) options
          | None => omap (invalid env) options
          end).
  unfold resolves in He. unfold invalid at 1.
  by destruct (buildConfigOptions env entry).
Qed.

Lemma outcome_first_invalid env (schedule : list nat)
    (pre post : list PartialConfigOptions) (bad : PartialConfigOptions)
    (e : Error) (w : World) :
  Forall (resolves env) pre →
  buildConfigOptions env bad = Err e →
  (executeOperation env schedule (pre ++ bad :: post) w).1 = Err e.
Proof.
  intros Hpre Hbad.
  unfold executeOperation, executeOperation_pool, run_pool. cbn [fst].
  pose proof (settle_rejected schedule
                (foldl launch (empty_pool w)
                   (getOperationStatus env <$> pre ++ bad :: post))) as [more Hr].
  destruct (launch_batch env (pre ++ bad :: post) (empty_pool w)) as (ts & Hl & _).
  rewrite Hl in Hr at 2. cbn [rejected empty_pool app] in Hr.
  rewrite omap_app, (omap_invalid_resolves env pre Hpre) in Hr.
  change (omap (invalid env) (bad :: post))
    with (match invalid env bad with
          | Some y => y :: omap (invalid env) post
          | None => omap (invalid env) post
          end) in Hr.
  unfold invalid at 1 in Hr. rewrite Hbad in Hr.
  unfold outcome. by rewrite Hr.
Qed.

(** X3.  When an entry of the batch fails validation and every entry before
    it resolves, [executeOperation] is rejected with the error of that
    entry, whatever the schedule and whatever the host answers to the other
    pipelines. *)
Theorem executeOperation_first_invalid env (schedule : list nat)
    (pre post : list PartialConfigOptions) (bad : PartialConfigOptions)
    (e : Error) (w : World) :
  Forall (resolves env) pre →
  buildConfigOptions env bad = Err e →
  (executeOperation env schedule (pre ++ bad :: post) w).1 = Err e.
Proof. apply outcome_first_invalid. Qed.

Lemma executeOperation_first_invalid_witness :
  (executeOperation Sample.env [2; 0; 1]%nat
     [Sample.entry 9; Sample.entry 0; Sample.entry 77]
     (fresh_world Sample.quiet_host)).1 =
    Err (ValueError "Invalid pull request identifier: undefined").
Proof.
  apply (executeOperation_first_invalid Sample.env [2; 0; 1]%nat
           [Sample.entry 9] [Sample.entry 77] (Sample.entry 0)).
  - by apply Forall_singleton.
  - reflexivity.
Defined.

(** X4.  An empty batch does nothing and succeeds: no call is issued, the
    host and the log are left as they were. *)
Theorem executeOperation_empty env (schedule : list nat) (w : World) :
  executeOperation env schedule [] w = (Ok tt, w).
Proof.
  unfold executeOperation, executeOperation_pool, run_pool.
  assert (H : foldl deliver (empty_pool w) schedule = empty_pool w).
  { induction schedule as [| i schedule IH]; [done |]. simpl. exact IH. }
  rewrite fmap_nil. cbn [foldl]. by rewrite H.
Qed.

(** ** The failure path of a pipeline *)

Lemma exec_replaceComment_log (options : PayloadOptions) (w : World) :
  log (exec (replaceComment options) w).2 = log w.
Proof.
  rewrite exec_replaceComment.
  pose proof (proj2 (answer_trace (list_call options) (issue (list_call options) w))) as H1.
  destruct (answer (list_call options) _) as [[cs | e] w1]; simpl in H1; [| done].
  cbn zeta.
  pose proof (proj2 (answer_trace (write_call options (pick_comment_id cs))
                       (issue (write_call options (pick_comment_id cs)) w1))) as H2.
  destruct (answer (write_call options (pick_comment_id cs)) _) as [[x | e] w2];
    simpl in *; by rewrite H2.
Qed.

(** X5.  [processComment] lets the result of [replaceComment] through
    unchanged, with the same host and the same calls; it writes to the log
    exactly when that result is an error, and then one line, which names the
    descriptor. *)
Theorem processComment_logs_failure env (cfg : ConfigOptions) (w : World) :
  (exec (processComment env cfg) w).1 =
    (exec (replaceComment (comment_payload env cfg)) w).1 ∧
  host (exec (processComment env cfg) w).2 =
    host (exec (replaceComment (comment_payload env cfg)) w).2 ∧
  trace (exec (processComment env cfg) w).2 =
    trace (exec (replaceComment (comment_payload env cfg)) w).2 ∧
  log (exec (processComment env cfg) w).2 =
    log w ++ (if is_Ok (exec (processComment env cfg) w).1
              then [] else [CannotProcess cfg]).
Proof.
  rewrite exec_processComment.
  pose proof (exec_replaceComment_log (comment_payload env cfg) w) as Hl.
  destruct (exec (replaceComment (comment_payload env cfg)) w) as [[[] | e] w'];
    simpl in *; rewrite Hl; repeat split; by rewrite ?app_nil_r.
Qed.

(** X6.  When the host rejects the listing, the pipeline stops there: it
    throws the error of the listing, issues no write call, leaves the host
    as it was and logs one line. *)
Theorem processComment_listing_rejected env (cfg : ConfigOptions) (w : World)
    (e : Error) :
  (answer (list_call (comment_payload env cfg))
     (issue (list_call (comment_payload env cfg)) w)).1 = Err e →
  exec (processComment env cfg) w =
    (Err e,
     {| host := host w;
        trace := trace w ++ [list_call (comment_payload env cfg)];
        log := log w ++ [CannotProcess cfg] |}).
Proof.
  intros He. rewrite exec_processComment, exec_replaceComment.
  rewrite answer_host in He |- *. rewrite host_issue in He |- *. cbn [fst] in He.
  unfold list_call in He |- *. cbn [serve] in He |- *.
  destruct (bool_decide _); cbn in He |- *; [discriminate |].
  by injection He as <-.
Qed.

Lemma processComment_listing_rejected_witness :
  exec (processComment Sample.env (plain_config 77)) (fresh_world lone_host) =
    (Err (HostApiError 404),
     {| host := lone_host;
        trace := [ListComments Sample.repo_o_r 77];
        log := [CannotProcess (plain_config 77)] |}).
Proof.
  exact (processComment_listing_rejected Sample.env (plain_config 77)
           (fresh_world lone_host) (HostApiError 404) eq_refl).
Defined.

(** ** The locator as the thread grows *)

(** X7.  Which comment the locator finds depends on the comments of the bot
    only, and comments added after a located one never change it. *)
Theorem pick_comment_id_stable (cs more : list Comment) :
  pick_comment_id (filter by_bot cs) = pick_comment_id cs ∧
  (∀ id, pick_comment_id cs = Some id → pick_comment_id (cs ++ more) = Some id) ∧
  (pick_comment_id cs = None → pick_comment_id (cs ++ more) = pick_comment_id more).
Proof.
  rewrite !pick_comment_id_head. split; [| split].
  - by rewrite list_filter_filter_r.
  - intros id. rewrite filter_app.
    by destruct (filter by_bot cs).
  - rewrite filter_app. by destruct (filter by_bot cs).
Qed.

Lemma pick_comment_id_stable_witness :
  pick_comment_id (comments lone_host ++ [Sample.comment 50 9 bot_login "new"]) = Some 42.
Proof.
  apply (proj1 (proj2 (pick_comment_id_stable (comments lone_host)
                         [Sample.comment 50 9 bot_login "new"])) 42).
  reflexivity.
Defined.

(** ** Entries that say everything *)

(** X8.  A batch entry that gives a theme and a layout that are not empty
    and, as request identifier, a number that [||] takes for true and whose
    text [toInt] accepts, resolves to exactly these, on the repository of
    the run, whatever the single-run inputs, the defaults and the event
    payload are. *)
Theorem buildConfigOptions_explicit env (options : PartialConfigOptions)
    (t l : string) (x : Number) (n : Z) :
  explicit_theme options = Some t → t ≠ "" →
  explicit_layout options = Some l → l ≠ "" →
  explicit_requestId options = Some x → number_falsy x = false →
  toInt (number_text x) = Ok n →
  buildConfigOptions env options =
    Ok {| styleOptions := {| theme := t; layout := l |};
          resourceOptions := {| requestId := n |};
          repoOptions := context_repo (context env) |}.
Proof.
  intros Ht Hte Hl Hle Hx Hxt Hn.
  rewrite buildConfigOptions_text
    by (by rewrite (candidate_explicit env options x Hx Hxt)).
  rewrite (candidate_explicit env options x Hx Hxt). cbn [template].
  rewrite Hn, Ht, Hl.
  by rewrite !or_string_explicit.
Qed.

Lemma buildConfigOptions_explicit_witness :
  buildConfigOptions
    (Sample.with_pull_request 7
       (Sample.with_inputs {[ "theme" := "dark"; "requestId" := "3" ]} Sample.env))
    (Sample.styled_entry "nightOwl" "churchill" 10) =
    Ok {| styleOptions := {| theme := "nightOwl"; layout := "churchill" |};
          resourceOptions := {| requestId := 10 |};
          repoOptions := Sample.repo_o_r |}.
Proof.
  refine (buildConfigOptions_explicit
            (Sample.with_pull_request 7
               (Sample.with_inputs {[ "theme" := "dark"; "requestId" := "3" ]} Sample.env))
            (Sample.styled_entry "nightOwl" "churchill" 10)
            "nightOwl" "churchill" _ 10
            eq_refl _ eq_refl _ eq_refl eq_refl eq_refl); discriminate.
Defined.
(** ** The run as a whole *)

Lemma launch_first_invalid env (pre post : list PartialConfigOptions)
    (bad : PartialConfigOptions) (e : Error) (w : World) :
  Forall (resolves env) pre →
  buildConfigOptions env bad = Err e →
  ∃ more,
    rejected (foldl launch (empty_pool w)
                (getOperationStatus env <$> pre ++ bad :: post)) = e :: more ∧
    log (world (foldl launch (empty_pool w)
                  (getOperationStatus env <$> pre ++ bad :: post))) = log w.
Proof.
  intros Hpre Hbad.
  destruct (launch_batch env (pre ++ bad :: post) (empty_pool w)) as (ts & -> & _).
  cbn [rejected world log empty_pool app].
  rewrite omap_app, (omap_invalid_resolves env pre Hpre), omap_cons_list.
  unfold invalid at 1. rewrite Hbad. by eexists.
Qed.

(** X9.  When the batch of the run has an entry that fails validation and
    every entry before it resolves, [run] reports the error of that entry
    before anything else is written to the log: the line of [setFailed]
    comes first, and after it come the lines that the pipelines write as
    they go on, those that [runCommentOperation] leaves in the log.  The
    host and the calls are those of [runCommentOperation]. *)
Theorem run_reports_first_invalid env (schedule : list nat) (w : World)
    (pre post : list PartialConfigOptions) (bad : PartialConfigOptions) (e : Error) :
  params env (getProperty env "sourceData") = Ok (pre ++ bad :: post) →
  Forall (resolves env) pre →
  buildConfigOptions env bad = Err e →
  host (run env schedule w) = host (runCommentOperation env schedule w).2 ∧
  trace (run env schedule w) = trace (runCommentOperation env schedule w).2 ∧
  ∃ later,
    log (runCommentOperation env schedule w).2 = log w ++ later ∧
    log (run env schedule w) = log w ++ Failed e :: later.
Proof.
  intros Hp Hpre Hbad.
  unfold run, runCommentOperation, getOperationResult, executeOperation,
    executeOperation_pool.
  cbn zeta. rewrite Hp. cbn [snd].
  destruct (launch_first_invalid env pre post bad e w Hpre Hbad) as (more & Hr & Hl).
  pose proof (watched_pool_reported schedule
                (getOperationStatus env <$> pre ++ bad :: post) w e more Hr)
    as (_ & _ & _ & Hh & Ht & new & H1 & H2).
  rewrite Hl in H1, H2.
  split; [exact Hh |]. split; [exact Ht |].
  exists new. split; [exact H2 |]. by rewrite H1, <- app_assoc.
Qed.

Lemma run_reports_first_invalid_witness :
  log (run
         (Sample.with_files
            {[ "batch.json" := Structured [Sample.entry 0; Sample.entry 77] ]}
            (Sample.with_inputs {[ "sourceData" := "batch.json" ]} Sample.env))
         [1]%nat (fresh_world Sample.quiet_host)) =
    [Failed (ValueError "Invalid pull request identifier: undefined");
     CannotProcess (plain_config 77)].
Proof.
  destruct (run_reports_first_invalid
              (Sample.with_files
                 {[ "batch.json" := Structured [Sample.entry 0; Sample.entry 77] ]}
                 (Sample.with_inputs {[ "sourceData" := "batch.json" ]} Sample.env))
              [1]%nat (fresh_world Sample.quiet_host)
              [] [Sample.entry 77] (Sample.entry 0)
              (ValueError "Invalid pull request identifier: undefined"))
    as (_ & _ & later & Hlater & Hlog); [reflexivity | constructor | reflexivity |].
  rewrite Hlog. cbn [log fresh_world app] in *. rewrite <- Hlater. reflexivity.
Defined.

(** X10.  Without a batch file and without a [requestId] input, a run on a
    pull-request event is one pipeline, whatever the schedule: when [toInt]
    accepts the text of the number of the pull request, the pipeline
    comments on that pull request, with the theme and the layout of the
    single-run inputs; when [toInt] rejects it, the operation is rejected
    with that error and calls nothing. *)
Theorem runCommentOperation_default env (schedule : list nat) (w : World)
    (x : Number) :
  files env !! getProperty env "sourceData" = None →
  getProperty env "requestId" = "" →
  pull_request_number (context env) = Some x →
  (∀ n, toInt (number_text x) = Ok n →
   runCommentOperation env schedule w =
     exec (processComment env
             {| styleOptions := {| theme := getProperty env "theme";
                                   layout := getProperty env "layout" |};
                resourceOptions := {| requestId := n |};
                repoOptions := context_repo (context env) |}) w) ∧
  (∀ e, toInt (number_text x) = Err e →
   runCommentOperation env schedule w = (Err e, w)).
Proof.
  intros Hf Hr Hx. unfold runCommentOperation, getOperationResult. cbn zeta.
  assert (Hp : params env (getProperty env "sourceData") = Ok [empty_partial]).
  { unfold params, isValidFile. rewrite Hf.
    rewrite bool_decide_eq_false_2; [done |]. by intros [y Hy]. }
  rewrite Hp, executeOperation_single. unfold getOperationStatus.
  assert (Hc : requestId_candidate env empty_partial = JsNumber x).
  { rewrite candidate_ambient; [by rewrite Hx | apply skipped_unset | done]. }
  rewrite buildConfigOptions_text by (by rewrite Hc). rewrite Hc. cbn [template].
  split.
  - intros n Hn. by rewrite Hn.
  - intros e He. by rewrite He.
Qed.

Lemma runCommentOperation_default_witness :
  runCommentOperation (Sample.with_pull_request 9 Sample.env) [0; 3]%nat
    (fresh_world lone_host) =
  exec (processComment (Sample.with_pull_request 9 Sample.env) (plain_config 9))
    (fresh_world lone_host).
Proof.
  exact (proj1 (runCommentOperation_default (Sample.with_pull_request 9 Sample.env)
                  [0; 3]%nat (fresh_world lone_host) _
                  eq_refl eq_refl eq_refl) 9 eq_refl).
Defined.

(** X16.  [run] never throws, and it does to the host what
    [runCommentOperation] does, with the same calls.  When the operation is
    fulfilled the log is the same too; when it is rejected, the log of
    [run] has one line more, the report of the error the operation is
    rejected with, and it has it at the place where that rejection came:
    before the report is at most one line of the run, which the rejected
    pipeline wrote as it failed, and the lines of the pipelines that fail
    later come after it. *)
Theorem run_reports_rejection env (schedule : list nat) (w : World) :
  host (run env schedule w) = host (runCommentOperation env schedule w).2 ∧
  trace (run env schedule w) = trace (runCommentOperation env schedule w).2 ∧
  match (runCommentOperation env schedule w).1 with
  | Ok _ => log (run env schedule w) = log (runCommentOperation env schedule w).2
  | Err e =>
      ∃ new l2,
        (length new ≤ 1)%nat ∧
        log (runCommentOperation env schedule w).2 = (log w ++ new) ++ l2 ∧
        log (run env schedule w) = (log w ++ new) ++ Failed e :: l2
  end.
Proof.
  unfold run, runCommentOperation, getOperationResult, executeOperation,
    executeOperation_pool.
  cbn zeta. destruct (params env (getProperty env "sourceData")) as [options | e].
  - cbn [fst snd]. unfold outcome.
    destruct (watched_pool_watches schedule (getOperationStatus env <$> options) w)
      as [_ [[Hr ->] | (l1 & e & (new & -> & Hlen) & [more Hr] & _ & _ &
                          Hh & Ht & l2 & H1 & H2)]].
    { apply Forall_fmap, Forall_forall. intros entry _.
      apply muted_getOperationStatus. }
    + by rewrite Hr.
    + rewrite Hr. split; [exact Hh |]. split; [exact Ht |].
      exists new, l2. split; [exact Hlen |]. split; [exact H2 |].
      by rewrite H1, <- !app_assoc.
  - cbn [fst snd setFailed write_log host trace log].
    split; [done |]. split; [done |]. exists [], [].
    split; [simpl; lia |]. by rewrite !app_nil_r.
Qed.

(** Two pipelines that the host rejects, the second answered first: the
    report comes after the line of the second and before that of the
    first. *)
Example run_two_failures :
  log (run
         (Sample.with_files
            {[ "batch.json" := Structured [Sample.entry 77; Sample.entry 78] ]}
            (Sample.with_inputs {[ "sourceData" := "batch.json" ]} Sample.env))
         [1]%nat (fresh_world Sample.quiet_host)) =
    [CannotProcess (plain_config 78); Failed (HostApiError 404);
     CannotProcess (plain_config 77)].
Proof. reflexivity. Qed.

(** ** What a batch does to the comments of the host *)

Lemma quiet_host_tidy : tidy Sample.quiet_host.
Proof.
  split; [reflexivity |]. split; [exact quiet_host_ok |].
  by apply (bool_decide_unpack _).
Defined.

Lemma busy_host_tidy : tidy Sample.busy_host.
Proof.
  split; [reflexivity |]. split; [exact busy_host_ok |].
  by apply (bool_decide_unpack _).
Defined.

(** X11.  On a host that authors as the bot and gives every comment its own
    positive identifier, a batch touches nothing but comments of the bot on
    the issues its entries resolve to, whatever the schedule: every other
    comment is exactly as it was.  So are, in particular, all comments of
    other authors and all comments of an issue that no entry resolves to. *)
Theorem executeOperation_keeps_others env (schedule : list nat)
    (options : list PartialConfigOptions) (w : World) :
  tidy (host w) →
  kept (targets env options) (host (executeOperation env schedule options w).2) =
    kept (targets env options) (host w) ∧
  others (host (executeOperation env schedule options w).2) = others (host w) ∧
  (∀ n, n ∉ targets env options →
        thread n (host (executeOperation env schedule options w).2) =
          thread n (host w)) ∧
  tidy (host (executeOperation env schedule options w).2).
Proof.
  intros Ht. unfold executeOperation, executeOperation_pool. cbn [snd].
  destruct (run_pool_owns (targets env options) schedule
              (getOperationStatus env <$> options) w) as (Ht' & Ho' & _); [| done |].
  { apply Forall_fmap, Forall_forall. intros entry Hin h.
    apply owns_getOperationStatus. intros cfg Hb. by eapply targets_elem_of. }
  split; [exact Ho' |]. split; [| split; [| exact Ht']].
  - unfold others.
    rewrite <- (list_filter_filter_l (λ c, ¬ by_bot c)
                  (λ c, ¬ bot_on (targets env options) c) (comments (host w)))
      by (intros c Hc [Hb _]; by apply Hc).
    rewrite <- (list_filter_filter_l (λ c, ¬ by_bot c)
                  (λ c, ¬ bot_on (targets env options) c)
                  (comments (host (world (run_pool schedule
                     (getOperationStatus env <$> options) w)))))
      by (intros c Hc [Hb _]; by apply Hc).
    unfold kept in Ho'. by rewrite Ho'.
  - intros n Hn. unfold thread.
    rewrite <- (list_filter_filter_l (λ c, issue_number c = n)
                  (λ c, ¬ bot_on (targets env options) c) (comments (host w)))
      by (intros c Hc [_ Hin]; by rewrite Hc in Hin).
    rewrite <- (list_filter_filter_l (λ c, issue_number c = n)
                  (λ c, ¬ bot_on (targets env options) c)
                  (comments (host (world (run_pool schedule
                     (getOperationStatus env <$> options) w)))))
      by (intros c Hc [_ Hin]; by rewrite Hc in Hin).
    unfold kept in Ho'. by rewrite Ho'.
Qed.

Lemma executeOperation_keeps_others_witness :
  others (host (executeOperation Sample.env [1; 0; 1]%nat
                  [Sample.entry 9; Sample.entry 10; Sample.entry 9]
                  (fresh_world Sample.busy_host)).2) =
    [Sample.comment 40 9 "alice" "hello"].
Proof.
  exact (proj1 (proj2 (executeOperation_keeps_others Sample.env [1; 0; 1]%nat
                  [Sample.entry 9; Sample.entry 10; Sample.entry 9]
                  (fresh_world Sample.busy_host) busy_host_tidy))).
Defined.

Lemma pool_same_target env (first second : PartialConfigOptions) (cfg1 cfg2 : ConfigOptions)
    (w : World) (n : Z) :
  buildConfigOptions env first = Ok cfg1 →
  buildConfigOptions env second = Ok cfg2 →
  requestId (resourceOptions cfg1) = n →
  requestId (resourceOptions cfg2) = n →
  n ∈ issues (host w) →
  bot_comments n (host w) = [] →
  executeOperation_pool env [0; 1]%nat [first; second] w =
    {| tasks := [Settled (Ok tt); Settled (Ok tt)];
       world :=
         {| host :=
              {| issues := issues (host w);
                 comments := (comments (host w) ++
                   [{| comment_id := next_comment_id (host w); issue_number := n;
                       user_login := viewer (host w);
                       body := comment_message env cfg1 |}]) ++
                   [{| comment_id := next_comment_id (host w) + 1; issue_number := n;
                       user_login := viewer (host w);
                       body := comment_message env cfg2 |}];
                 next_comment_id := next_comment_id (host w) + 1 + 1;
                 viewer := viewer (host w) |};
            trace := trace w ++
              [ListComments (repoOptions cfg1) n; ListComments (repoOptions cfg2) n;
               CreateComment (repoOptions cfg1) n (comment_message env cfg1);
               CreateComment (repoOptions cfg2) n (comment_message env cfg2)];
            log := log w |};
       rejected := [] |}.
Proof.
  intros Hb1 Hb2 Hn1 Hn2 Hin Hbot.
  assert (Hpick : pick_comment_id (listed n (host w)) = None).
  { apply pick_comment_id_none, Forall_forall. intros c Hc Hb.
    assert (Hcb : c ∈ bot_comments n (host w)).
    { apply bot_comments_elem_of. split; [exact Hb | by apply listed_elem_of]. }
    rewrite Hbot in Hcb. by inversion Hcb. }
  unfold executeOperation_pool, run_pool, drain.
  cbn [foldl]. rewrite !deliver_length.
  rewrite !fmap_cons, fmap_nil. unfold getOperationStatus. rewrite Hb1, Hb2.
  cbn [foldl]. unfold launch.
  cbn [start processComment replaceComment getCommentId try_catch bind await
       empty_pool world tasks rejected fst snd app rejection length seq foldl
       comment_payload payload_repoOptions payload_resourceOptions commentOptions].
  rewrite Hn1, Hn2.
  unfold deliver at 2. cbn [tasks lookup list_lookup world].
  rewrite answer_list by done. cbn [host issue bind try_catch start].
  rewrite Hpick.
  cbn [write_call rejection app rejected insert list_insert
       comment_payload payload_repoOptions payload_resourceOptions commentOptions message].
  unfold deliver at 1. cbn [tasks lookup list_lookup world].
  rewrite answer_list by done. cbn [host issue bind try_catch start].
  rewrite Hpick.
  cbn [write_call rejection app rejected insert list_insert
       comment_payload payload_repoOptions payload_resourceOptions commentOptions message].
  rewrite Hn1, Hn2.
  unfold complete at 2. cbn [tasks lookup list_lookup world].
  rewrite answer_create by done.
  cbn [exec try_catch bind insert list_insert rejection app rejected host trace log issue].
  unfold complete at 1. cbn [tasks lookup list_lookup world].
  rewrite answer_create by done.
  cbn [exec try_catch bind insert list_insert rejection app rejected host trace log issue
       issues comments viewer next_comment_id].
  by rewrite <- !app_assoc.
Qed.

(** X12.  Two entries of one batch that resolve to the same issue race: when
    both listings are answered before either write is served, and the bot
    has no comment on the issue, each pipeline creates one.  Both succeed,
    and the bot ends with two comments on the issue. *)
Theorem executeOperation_same_target_twice env (first second : PartialConfigOptions)
    (cfg1 cfg2 : ConfigOptions) (w : World) (n : Z) :
  buildConfigOptions env first = Ok cfg1 →
  buildConfigOptions env second = Ok cfg2 →
  requestId (resourceOptions cfg1) = n →
  requestId (resourceOptions cfg2) = n →
  n ∈ issues (host w) →
  bot_comments n (host w) = [] →
  viewer (host w) = bot_login →
  (executeOperation env [0; 1]%nat [first; second] w).1 = Ok tt ∧
  trace (executeOperation env [0; 1]%nat [first; second] w).2 =
    trace w ++
      [ListComments (repoOptions cfg1) n; ListComments (repoOptions cfg2) n;
       CreateComment (repoOptions cfg1) n (comment_message env cfg1);
       CreateComment (repoOptions cfg2) n (comment_message env cfg2)] ∧
  body <$> bot_comments n (host (executeOperation env [0; 1]%nat [first; second] w).2) =
    [comment_message env cfg1; comment_message env cfg2].
Proof.
  intros Hb1 Hb2 Hn1 Hn2 Hin Hbot Hv. unfold executeOperation.
  rewrite (pool_same_target env first second cfg1 cfg2 w n) by done.
  split; [reflexivity |]. split; [reflexivity |].
  cbn [snd world host]. unfold bot_comments, thread. cbn [comments].
  rewrite !filter_app. fold (thread n (host w)). fold (bot_comments n (host w)).
  rewrite Hbot.
  rewrite !(filter_cons_True (λ x, issue_number x = n)) by done.
  rewrite !filter_nil.
  rewrite !(filter_cons_True by_bot) by done.
  by rewrite !filter_nil.
Qed.

Lemma executeOperation_same_target_twice_witness :
  body <$> bot_comments 9
             (host (executeOperation Sample.env [0; 1]%nat
                      [Sample.entry 9; Sample.styled_entry "nightOwl" "churchill" 9]
                      (fresh_world Sample.quiet_host)).2) =
    [comment_message Sample.env (plain_config 9);
     comment_message Sample.env
       {| styleOptions := {| theme := "nightOwl"; layout := "churchill" |};
          resourceOptions := {| requestId := 9 |};
          repoOptions := Sample.repo_o_r |}].
Proof.
  exact (proj2 (proj2 (executeOperation_same_target_twice Sample.env
                  (Sample.entry 9) (Sample.styled_entry "nightOwl" "churchill" 9)
                  _ _ (fresh_world Sample.quiet_host) 9
                  eq_refl eq_refl eq_refl eq_refl (list_elem_of_here _ _)
                  eq_refl eq_refl))).
Defined.

(** X13.  When every entry of the batch resolves and the host has every
    issue the entries resolve to, [executeOperation] succeeds under every
    schedule: no listing, update or creation of the batch is rejected. *)
Theorem executeOperation_succeeds env (schedule : list nat)
    (options : list PartialConfigOptions) (w : World) :
  Forall (resolves env) options →
  targets env options ⊆ issues (host w) →
  (executeOperation env schedule options w).1 = Ok tt ∧
  Forall (λ t, t = Settled (Ok tt))
    (tasks (executeOperation_pool env schedule options w)).
Proof.
  intros Hres Hi. unfold executeOperation, executeOperation_pool. cbn [fst].
  destruct (run_pool_thrives (targets env options) schedule
              (getOperationStatus env <$> options) w) as (_ & Hr & Hts); [| done |].
  { apply Forall_fmap, Forall_forall. intros entry Hin h Hh.
    rewrite Forall_forall in Hres. specialize (Hres entry Hin).
    unfold resolves in Hres.
    destruct (buildConfigOptions env entry) as [cfg | e] eqn:Hb; [| discriminate].
    apply (thrives_getOperationStatus env _ entry cfg h Hb).
    by eapply targets_elem_of. }
  split; [unfold outcome; by rewrite Hr |].
  pose proof (run_pool_settled schedule (getOperationStatus env <$> options) w) as Hs.
  apply Forall_forall. intros t Ht.
  rewrite Forall_forall in Hts, Hs. specialize (Hts t Ht). specialize (Hs t Ht).
  destruct t as [c k | [[] | e]]; [discriminate | done | discriminate].
Qed.

Lemma executeOperation_succeeds_witness :
  (executeOperation Sample.env [1; 1; 0]%nat
     [Sample.entry 9; Sample.entry 10; Sample.entry 9]
     (fresh_world Sample.busy_host)).1 = Ok tt.
Proof.
  refine (proj1 (executeOperation_succeeds Sample.env [1; 1; 0]%nat
                   [Sample.entry 9; Sample.entry 10; Sample.entry 9]
                   (fresh_world Sample.busy_host) _ _)).
  - by repeat constructor.
  - by apply (bool_decide_unpack _).
Defined.

Lemma entry_published env (schedule : list nat)
    (pre post : list PartialConfigOptions) (entry : PartialConfigOptions)
    (cfg : ConfigOptions) (w : World) :
  buildConfigOptions env entry = Ok cfg →
  requestId (resourceOptions cfg) ∉ targets env (pre ++ post) →
  tidy (host w) →
  requestId (resourceOptions cfg) ∈ issues (host w) →
  in_view (requestId (resourceOptions cfg)) (host w) →
  tidy (host (executeOperation env schedule (pre ++ entry :: post) w).2) ∧
  requestId (resourceOptions cfg) ∈
    issues (host (executeOperation env schedule (pre ++ entry :: post) w).2) ∧
  in_view (requestId (resourceOptions cfg))
    (host (executeOperation env schedule (pre ++ entry :: post) w).2) ∧
  tasks (executeOperation_pool env schedule (pre ++ entry :: post) w) !! length pre =
    Some (Settled (Ok tt)) ∧
  ∃ x rest,
    bot_comments (requestId (resourceOptions cfg))
      (host (executeOperation env schedule (pre ++ entry :: post) w).2) = x :: rest ∧
    body x = comment_message env cfg ∧
    length rest =
      (length (bot_comments (requestId (resourceOptions cfg)) (host w)) - 1)%nat ∧
    ∀ c0 l, bot_comments (requestId (resourceOptions cfg)) (host w) = c0 :: l →
            comment_id x = comment_id c0.
Proof.
  intros Hb Hns Ht Hn Hview.
  pose proof (settle_stage env cfg _ _ _ schedule _ Hns
                (launch_stage env pre post entry cfg w Hb Ht Hn Hview)) as Hp.
  fold (run_pool schedule (getOperationStatus env <$> pre ++ entry :: post) w) in Hp.
  fold (executeOperation_pool env schedule (pre ++ entry :: post) w) in Hp.
  destruct Hp as (Ht' & Hn' & _ & t & Hi & Hst).
  pose proof (run_pool_settled schedule
                (getOperationStatus env <$> pre ++ entry :: post) w) as Hs.
  fold (executeOperation_pool env schedule (pre ++ entry :: post) w) in Hs.
  pose proof (Forall_lookup_1 _ _ _ _ Hs Hi) as Hset. simpl in Hset.
  destruct Hst as [[-> _] | [[-> _] | (-> & Hsee & Hdone)]];
    [discriminate | discriminate |].
  split; [exact Ht' |]. split; [exact Hn' |]. split; [by left |].
  split; [exact Hi | exact Hdone].
Qed.

(** X14.  On a host that authors as the bot, gives every comment its own
    positive identifier and has the issue an entry resolves to, with the
    thread of that issue in view of the locator (a comment of the bot is
    among its first [per_page] comments, or it has less than [per_page]
    comments), when no other entry of the batch resolves to that issue, the
    pipeline of the entry succeeds under every schedule and whatever becomes
    of the others: afterwards the first comment of the bot on the issue has
    the body built for the entry, it is the comment that was first before
    when there was one, and the bot has one comment more there only if it
    had none. *)
Theorem executeOperation_publishes_entry env (schedule : list nat)
    (pre post : list PartialConfigOptions) (entry : PartialConfigOptions)
    (cfg : ConfigOptions) (w : World) :
  buildConfigOptions env entry = Ok cfg →
  requestId (resourceOptions cfg) ∉ targets env (pre ++ post) →
  tidy (host w) →
  requestId (resourceOptions cfg) ∈ issues (host w) →
  in_view (requestId (resourceOptions cfg)) (host w) →
  tasks (executeOperation_pool env schedule (pre ++ entry :: post) w) !! length pre =
    Some (Settled (Ok tt)) ∧
  ∃ x rest,
    bot_comments (requestId (resourceOptions cfg))
      (host (executeOperation env schedule (pre ++ entry :: post) w).2) = x :: rest ∧
    body x = comment_message env cfg ∧
    length rest =
      (length (bot_comments (requestId (resourceOptions cfg)) (host w)) - 1)%nat ∧
    ∀ c0 l, bot_comments (requestId (resourceOptions cfg)) (host w) = c0 :: l →
            comment_id x = comment_id c0.
Proof.
  intros Hb Hns Ht Hn Hview.
  by destruct (entry_published env schedule pre post entry cfg w Hb Hns Ht Hn Hview)
    as (_ & _ & _ & H).
Qed.

Lemma executeOperation_publishes_entry_witness :
  ∃ x rest,
    bot_comments 9
      (host (executeOperation Sample.env [1; 0; 1]%nat
               ([Sample.entry 10] ++ Sample.entry 9 :: [Sample.entry 0])
               (fresh_world Sample.busy_host)).2) = x :: rest ∧
    body x = Sample.scenario_body ∧
    length rest = 1%nat ∧
    comment_id x = 42.
Proof.
  destruct (executeOperation_publishes_entry Sample.env [1; 0; 1]%nat
              [Sample.entry 10] [Sample.entry 0] (Sample.entry 9) (plain_config 9)
              (fresh_world Sample.busy_host))
    as (_ & x & rest & Hx & Hbody & Hrest & Hid);
    [reflexivity | by apply (bool_decide_unpack _) | exact busy_host_tidy
    | apply list_elem_of_here | left; by apply (bool_decide_unpack _) |].
  exists x, rest. split; [exact Hx |]. split; [exact Hbody |]. split; [exact Hrest |].
  exact (Hid _ _ eq_refl).
Defined.

(** X15.  Under the same conditions, running the batch twice, under any two
    schedules, leaves the bot with as many comments on the issue of the
    entry as it had, or with one if it had none; the first of them is the
    comment the first run left first, and it has the body built for the
    entry: the batch is idempotent on every issue that one entry only
    resolves to and whose thread is in view of the locator. *)
Theorem executeOperation_twice env (schedule1 schedule2 : list nat)
    (pre post : list PartialConfigOptions) (entry : PartialConfigOptions)
    (cfg : ConfigOptions) (w : World) :
  buildConfigOptions env entry = Ok cfg →
  requestId (resourceOptions cfg) ∉ targets env (pre ++ post) →
  tidy (host w) →
  requestId (resourceOptions cfg) ∈ issues (host w) →
  in_view (requestId (resourceOptions cfg)) (host w) →
  ∃ x1 rest1 x2 rest2,
    bot_comments (requestId (resourceOptions cfg))
      (host (executeOperation env schedule1 (pre ++ entry :: post) w).2) =
      x1 :: rest1 ∧
    bot_comments (requestId (resourceOptions cfg))
      (host (executeOperation env schedule2 (pre ++ entry :: post)
               (executeOperation env schedule1 (pre ++ entry :: post) w).2).2) =
      x2 :: rest2 ∧
    comment_id x2 = comment_id x1 ∧
    body x2 = comment_message env cfg ∧
    length (x2 :: rest2) = length (x1 :: rest1) ∧
    length (x2 :: rest2) =
      Nat.max 1 (length (bot_comments (requestId (resourceOptions cfg)) (host w))).
Proof.
  intros Hb Hns Ht Hn Hview.
  destruct (entry_published env schedule1 pre post entry cfg w Hb Hns Ht Hn Hview)
    as (Ht1 & Hn1 & Hview1 & _ & x1 & rest1 & Hx1 & _ & Hrest1 & _).
  destruct (entry_published env schedule2 pre post entry cfg _ Hb Hns Ht1 Hn1 Hview1)
    as (_ & _ & _ & _ & x2 & rest2 & Hx2 & Hbody & Hrest2 & Hid).
  exists x1, rest1, x2, rest2. split; [exact Hx1 |]. split; [exact Hx2 |].
  split; [exact (Hid x1 rest1 Hx1) |]. split; [exact Hbody |].
  rewrite Hx1 in Hrest2. simpl in *. lia.
Qed.

Lemma executeOperation_twice_witness :
  ∃ x rest,
    bot_comments 9
      (host (executeOperation Sample.env [0]%nat
               ([Sample.entry 10] ++ Sample.entry 9 :: [Sample.entry 0])
               (executeOperation Sample.env [1; 0; 1]%nat
                  ([Sample.entry 10] ++ Sample.entry 9 :: [Sample.entry 0])
                  (fresh_world Sample.quiet_host)).2).2) = x :: rest ∧
    body x = Sample.scenario_body ∧
    length (x :: rest) = 1%nat.
Proof.
  destruct (executeOperation_twice Sample.env [1; 0; 1]%nat [0]%nat
              [Sample.entry 10] [Sample.entry 0] (Sample.entry 9) (plain_config 9)
              (fresh_world Sample.quiet_host))
    as (x1 & rest1 & x2 & rest2 & _ & Hx2 & _ & Hbody & _ & Hlen);
    [reflexivity | by apply (bool_decide_unpack _) | exact quiet_host_tidy
    | apply list_elem_of_here | right; vm_compute; lia |].
  exists x2, rest2. split; [exact Hx2 |]. split; [exact Hbody | exact Hlen].
Defined.
(** ** Idempotency *)

Lemma crowded_host_tidy : tidy Sample.crowded_host.
Proof.
  split; [reflexivity |]. split; [split; [reflexivity |] |];
    by apply (bool_decide_unpack _).
Defined.

(** C1, as amended.  Two runs of the full pipeline on the same target (the
    runs may differ in the commit that triggers them, and their batches may
    have other entries, which resolve to other issues), on a host that has
    the target, authors comments as [github-actions[bot]] and gives every
    comment its own positive identifier, with the thread of the target in
    view of the locator: a comment of the bot is on the first page of the
    thread, or the thread has less than a page of comments.  The pipelines
    of the target succeed in both runs, and together the runs add a comment
    of the bot only when there was none, so that the bot has at most one
    comment on the target afterwards when it had at most one before.  The
    second run located the comment the first run left first and updated
    it: that comment has the body the second run constructed, and when the
    second run has this one entry its calls are the listing and the update
    of that comment, with no creation. *)
Theorem pipeline_idempotent (env1 env2 : Env) (source1 source2 : string)
    (pre1 post1 pre2 post2 : list PartialConfigOptions)
    (option1 option2 : PartialConfigOptions) (cfg1 cfg2 : ConfigOptions)
    (schedule1 schedule2 : list nat) (w : World) (n : Z) :
  params env1 source1 = Ok (pre1 ++ option1 :: post1) →
  params env2 source2 = Ok (pre2 ++ option2 :: post2) →
  buildConfigOptions env1 option1 = Ok cfg1 →
  buildConfigOptions env2 option2 = Ok cfg2 →
  requestId (resourceOptions cfg1) = n →
  requestId (resourceOptions cfg2) = n →
  n ∉ targets env1 (pre1 ++ post1) →
  n ∉ targets env2 (pre2 ++ post2) →
  tidy (host w) → n ∈ issues (host w) → in_view n (host w) →
  let first := getOperationResult env1 schedule1 source1 w in
  let second := getOperationResult env2 schedule2 source2 first.2 in
  tasks (executeOperation_pool env1 schedule1 (pre1 ++ option1 :: post1) w)
    !! length pre1 = Some (Settled (Ok tt)) ∧
  tasks (executeOperation_pool env2 schedule2 (pre2 ++ option2 :: post2) first.2)
    !! length pre2 = Some (Settled (Ok tt)) ∧
  length (bot_comments n (host second.2)) =
    Nat.max 1 (length (bot_comments n (host w))) ∧
  ∃ c1 rest1 c2 rest2,
    bot_comments n (host first.2) = c1 :: rest1 ∧
    bot_comments n (host second.2) = c2 :: rest2 ∧
    comment_id c2 = comment_id c1 ∧
    length rest2 = length rest1 ∧
    ((length (bot_comments n (host w)) ≤ 1)%nat → rest2 = []) ∧
    body c2 = comment_message env2 cfg2 ∧
    (pre1 = [] → post1 = [] → first.1 = Ok tt) ∧
    (pre2 = [] → post2 = [] →
     second.1 = Ok tt ∧
     trace second.2 = trace first.2 ++
       [ListComments (repoOptions cfg2) n;
        UpdateComment (repoOptions cfg2) (comment_id c1) (comment_message env2 cfg2)]).
Proof.
  intros Hp1 Hp2 Hb1 Hb2 Hn1 Hn2 Hns1 Hns2 Ht Hn Hview first second.
  subst first second. unfold getOperationResult. rewrite Hp1, Hp2. subst n.
  destruct (entry_published env1 schedule1 pre1 post1 option1 cfg1 w Hb1 Hns1 Ht Hn Hview)
    as (Ht1 & Hi1 & Hview1 & Htask1 & x1 & rest1 & Hx1 & _ & Hrest1 & _).
  set (w1 := (executeOperation env1 schedule1 (pre1 ++ option1 :: post1) w).2) in *.
  rewrite <- Hn2 in Hns2, Hi1, Hview1, Hx1, Hrest1 |- *.
  destruct (entry_published env2 schedule2 pre2 post2 option2 cfg2 w1
              Hb2 Hns2 Ht1 Hi1 Hview1)
    as (_ & _ & _ & Htask2 & x2 & rest2 & Hx2 & Hbody & Hrest2 & Hid).
  split; [exact Htask1 |]. split; [exact Htask2 |].
  rewrite Hx1 in Hrest2. simpl in Hrest2. split.
  - rewrite Hx2. simpl. lia.
  - exists x1, rest1, x2, rest2.
    split; [exact Hx1 |]. split; [exact Hx2 |].
    split; [exact (Hid x1 rest1 Hx1) |]. split; [lia |].
    split; [intros Hlen; apply nil_length_inv; lia |].
    split; [exact Hbody |]. split.
    + intros -> ->. subst w1. rewrite app_nil_l in *.
      rewrite executeOperation_single in *.
      destruct Ht as (Hv & Hok & _).
      exact (proj1 (pipeline_once env1 option1 cfg1 w Hb1 Hok Hn Hv Hview)).
    + intros -> ->. rewrite app_nil_l, executeOperation_single.
      destruct Ht1 as (Hv1 & Hok1 & _).
      destruct (pipeline_once env2 option2 cfg2 w1 Hb2 Hok1 Hi1 Hv1 Hview1)
        as (Hr2 & _ & _ & _ & _ & _ & y & l & _ & _ & _ & Htrace & _).
      split; [exact Hr2 |]. rewrite Htrace, Hx1. reflexivity.
Qed.

Lemma pipeline_idempotent_witness :
  ∃ c, bot_comments 9
         (host (getOperationResult Sample.scenario_env [0]%nat "batch.json"
                  (getOperationResult Sample.scenario_env [] "batch.json"
                     (fresh_world Sample.quiet_host)).2).2) = [c] ∧
       body c = Sample.scenario_body.
Proof.
  destruct (pipeline_idempotent Sample.scenario_env Sample.scenario_env
              "batch.json" "batch.json" [] [] [] [] (Sample.entry 9) (Sample.entry 9)
              (plain_config 9) (plain_config 9) [] [0]%nat
              (fresh_world Sample.quiet_host) 9)
    as (_ & _ & _ & c1 & rest1 & c2 & rest2 & _ & Hc & _ & _ & Hrest & Hbody & _);
    [reflexivity | reflexivity | reflexivity | reflexivity | reflexivity | reflexivity
    | by apply (bool_decide_unpack _) | by apply (bool_decide_unpack _)
    | exact quiet_host_tidy | apply list_elem_of_here | right; vm_compute; lia |].
  exists c2. rewrite Hc, (Hrest (le_S _ _ (le_n 0))). split; [reflexivity | exact Hbody].
Defined.

(** C1 as stated fails: when the first page of the thread is full of other
    comments, the comment that the first run creates is not on the page the
    second run is listed, and the second run creates another one. *)
Lemma pipeline_idempotent_counterexample :
  let first :=
    getOperationResult Sample.scenario_env [] "batch.json"
      (fresh_world Sample.crowded_host) in
  let second := getOperationResult Sample.scenario_env [] "batch.json" first.2 in
  tidy Sample.crowded_host ∧
  9 ∈ issues Sample.crowded_host ∧
  bot_comments 9 Sample.crowded_host = [] ∧
  first.1 = Ok tt ∧ second.1 = Ok tt ∧
  trace second.2 =
    [ListComments Sample.repo_o_r 9;
     CreateComment Sample.repo_o_r 9 Sample.scenario_body;
     ListComments Sample.repo_o_r 9;
     CreateComment Sample.repo_o_r 9 Sample.scenario_body] ∧
  body <$> bot_comments 9 (host second.2) =
    [Sample.scenario_body; Sample.scenario_body] ∧
  ¬ (length (bot_comments 9 (host second.2)) ≤ 1)%nat.
Proof.
  cbn zeta. split; [exact crowded_host_tidy |]. split; [apply list_elem_of_here |].
  assert (Hb : body <$> bot_comments 9
             (host (getOperationResult Sample.scenario_env [] "batch.json"
                      (getOperationResult Sample.scenario_env [] "batch.json"
                         (fresh_world Sample.crowded_host)).2).2) =
               [Sample.scenario_body; Sample.scenario_body]) by (by vm_compute).
  split; [by vm_compute |]. split; [by vm_compute |]. split; [by vm_compute |].
  split; [by vm_compute |]. split; [exact Hb |].
  intros Hle. apply (f_equal length) in Hb. rewrite length_fmap in Hb.
  simpl in Hb. lia.
Qed.
